(** * OpenPBS client library: connector, deferred scheduler reply,
      job-credential decoding and stage-name parsing

    A shallow embedding of

    - [src/lib/Libcmds/cnt2mom.c]        ([pbs_connect2mom], [cnt2mom]),
    - [src/lib/Libifl/pbsD_defschreply.c] ([pbs_defschreply]),
    - [src/lib/Libifl/dec_JobCred.c]      ([decode_DIS_JobCred]),
    - [src/lib/Libcmds/parse_stage.c]     ([parse_stage_name],
                                           [parse_stage_list]),
    - [src/cmds/qdisable.c]               ([main], [execute]),

    followed by the properties established about them.

    The two IFL routines work on process-wide state (the connection table,
    [pbs_errno], [errno]) and call into libc, into the DIS layer and into the
    client thread layer.  The process-wide state is the record [world]; the
    routines are written in a small state monad over it.  Every call that
    leaves the translated files is logged in [trace] and answered by an
    arbitrary function [respond] of the current world, so that a statement
    proved here holds whatever the collaborators answer. *)

From Stdlib Require Import ZArith Lia String Ascii List Bool.
From stdpp Require Import base list.
Import ListNotations.

Local Open Scope string_scope.
Local Open Scope list_scope.
Local Open Scope Z_scope.

(** ** Constants that come from headers outside the translated files *)

Class Headers := {
  NCONNECTS : nat;                  (* libpbs.h: size of [connection] *)
  PBSE_IVALREQ : Z;                 (* pbs_error.h *)
  PBSE_BADHOST : Z;
  PBSE_SYSTEM : Z;
  PBSE_PROTOCOL : Z;
  PBSE_NOCONNECTS : Z;
  PBS_DIS_TCP_TIMEOUT_VLONG : Z;    (* dis.h *)
  PBS_BATCH_DefSchReply : Z;        (* batch request type *)
  pbs_current_user : string;
  dis_emsg : Z -> string;           (* dis.h: message table indexed by DIS code *)
  htons : Z -> Z;                   (* host to network byte order *)
  MAXPATHLEN : nat;                 (* sys/param.h *)
  PBS_MAXSERVERNAME : nat;          (* pbs_ifl.h *)
}.

(** [DIS_SUCCESS(0)], as the header comment of [decode_DIS_JobCred] gives it. *)
Definition DIS_SUCCESS : Z := 0.

(** ** Process-wide state *)

(** [struct connect_handle]: the fields the translated files read and write. *)
Record connect_handle := mk_handle {
  ch_inuse : Z;
  ch_errno : Z;
  ch_socket : Z;
  ch_errtxt : option string;        (* [None] is the null pointer *)
}.

Inductive ai_family_t := AF_UNSPEC | AF_INET | AF_INET6 | AF_OTHER (n : Z).
Inductive socktype_t := SOCK_STREAM | SOCK_DGRAM.
Inductive protocol_t := IPPROTO_IP | IPPROTO_TCP.

Record sockaddr_in := mk_sockaddr { sin_addr : Z; sin_port : Z }.

Record addrinfo := mk_addrinfo {
  ai_family : ai_family_t;
  ai_socktype : socktype_t;
  ai_protocol : protocol_t;
  ai_addr : sockaddr_in;
}.

(** Calls that leave the translated files, with their arguments. *)
Inductive call :=
| C_init_thread_context
| C_loadconf (reload : Z)
| C_lock_conntable
| C_unlock_conntable
| C_init_connect_context (conn : nat)
| C_lock_connection (c : nat)
| C_unlock_connection (c : nat)
| C_getaddrinfo (node : string) (hints : addrinfo)
| C_freeaddrinfo
| C_socket (domain : ai_family_t) (type : socktype_t) (protocol : Z)
| C_connect (sd : Z) (addr : sockaddr_in)
| C_close (sd : Z)
| C_strdup (s : string)
| C_DIS_tcp_setup (sock : Z)
| C_encode_DIS_ReqHdr (sock : Z) (reqt : Z) (user : string)
| C_diswui (sock : Z) (value : Z)
| C_diswsi (sock : Z) (value : Z)
| C_diswst (sock : Z) (value : string)
| C_encode_DIS_ReqExtend (sock : Z) (extend : option string)
| C_DIS_tcp_wflush (sock : Z)
| C_PBSD_rdrpy (c : nat)
| C_PBSD_FreeReply.

(** What a collaborator hands back.  Each wrapper below uses the fields
    its C prototype has and ignores the others. *)
Record response := mk_response {
  r_rc : Z;                       (* the returned int *)
  r_errno : Z;                    (* the error number it leaves behind *)
  r_port : Z;                     (* [pbs_loadconf]: the MoM service port *)
  r_addrs : list addrinfo;        (* [getaddrinfo]: the result list *)
  r_text : option string;         (* [PBSD_rdrpy]: the reply text, if any *)
}.

(** One logged call: what was called and what came back. *)
Definition event : Type := call * response.

Record world := mk_world {
  connection : list connect_handle;      (* [connection[NCONNECTS]] *)
  pbs_errno : Z;
  errno : Z;
  pbs_tcp_timeout : Z;
  mom_service_port : Z;                  (* [pbs_conf.mom_service_port] *)
  trace : list event;                    (* oldest first *)
}.


Class Collaborators := respond : world -> call -> response.

Definition set_connection (t : list connect_handle) (w : world) : world :=
  mk_world t (pbs_errno w) (errno w) (pbs_tcp_timeout w) (mom_service_port w) (trace w).
Definition set_pbs_errno (e : Z) (w : world) : world :=
  mk_world (connection w) e (errno w) (pbs_tcp_timeout w) (mom_service_port w) (trace w).
Definition set_errno (e : Z) (w : world) : world :=
  mk_world (connection w) (pbs_errno w) e (pbs_tcp_timeout w) (mom_service_port w) (trace w).
Definition set_pbs_tcp_timeout (t : Z) (w : world) : world :=
  mk_world (connection w) (pbs_errno w) (errno w) t (mom_service_port w) (trace w).
Definition set_mom_service_port (p : Z) (w : world) : world :=
  mk_world (connection w) (pbs_errno w) (errno w) (pbs_tcp_timeout w) p (trace w).
Definition log (e : event) (w : world) : world :=
  mk_world (connection w) (pbs_errno w) (errno w) (pbs_tcp_timeout w)
           (mom_service_port w) (trace w ++ [e]).

(** ** The state monad *)

Definition M (A : Type) : Type := world -> A * world.

Definition ret {A} (a : A) : M A := fun w => (a, w).
Definition bind {A B} (m : M A) (k : A -> M B) : M B :=
  fun w => let (a, w') := m w in k a w'.
Definition gets {A} (f : world -> A) : M A := fun w => (f w, w).
Definition modify (f : world -> world) : M unit := fun w => (tt, f w).

Declare Scope pbs_scope.
Delimit Scope pbs_scope with pbs.
Notation "x <- m ;; k" := (bind m (fun x => k))
  (at level 100, m at level 99, k at level 200, right associativity) : pbs_scope.
Notation "m ;;; k" := (bind m (fun _ => k))
  (at level 100, k at level 200, right associativity) : pbs_scope.

(** The slot [connection[c]]; an index outside the array reads as the
    all-zero handle. *)
Definition null_handle : connect_handle := mk_handle 0 0 0 None.
Definition slot (t : list connect_handle) (c : nat) : connect_handle :=
  default null_handle (t !! c).

Definition upd_slot (c : nat) (f : connect_handle -> connect_handle) : M unit :=
  modify (fun w => set_connection (<[c := f (slot (connection w) c)]> (connection w)) w).

Definition with_inuse (v : Z) (h : connect_handle) : connect_handle :=
  mk_handle v (ch_errno h) (ch_socket h) (ch_errtxt h).
Definition with_errno (v : Z) (h : connect_handle) : connect_handle :=
  mk_handle (ch_inuse h) v (ch_socket h) (ch_errtxt h).
Definition with_socket (v : Z) (h : connect_handle) : connect_handle :=
  mk_handle (ch_inuse h) (ch_errno h) v (ch_errtxt h).
Definition with_errtxt (v : option string) (h : connect_handle) : connect_handle :=
  mk_handle (ch_inuse h) (ch_errno h) (ch_socket h) v.

(** C truth of an int. *)
Definition nonzero (z : Z) : bool := negb (z =? 0).

Section Model.
Context `{Headers} `{Collaborators}.
Local Open Scope pbs_scope.

(** *** Collaborators *)

(** Ask the collaborator and log the call with its answer. *)
Definition ext (c : call) : M response :=
  fun w => let r := respond w c in (r, log (c, r) w).

(** Client thread layer: returns 0 on success; a failing routine may leave
    its own code in [pbs_errno]. *)
Definition thread_call (c : call) : M Z :=
  r <- ext c ;;
  (if nonzero (r_rc r) then modify (set_pbs_errno (r_errno r)) else ret tt) ;;;
  ret (r_rc r).

Definition pbs_client_thread_init_thread_context : M Z := thread_call C_init_thread_context.
Definition pbs_client_thread_lock_conntable : M Z := thread_call C_lock_conntable.
Definition pbs_client_thread_unlock_conntable : M Z := thread_call C_unlock_conntable.
Definition pbs_client_thread_init_connect_context (conn : nat) : M Z :=
  thread_call (C_init_connect_context conn).
Definition pbs_client_thread_lock_connection (c : nat) : M Z := thread_call (C_lock_connection c).
Definition pbs_client_thread_unlock_connection (c : nat) : M Z :=
  thread_call (C_unlock_connection c).

(** [pbs_loadconf] returns 0 on failure and fills [pbs_conf]. *)
Definition pbs_loadconf (reload : Z) : M Z :=
  r <- ext (C_loadconf reload) ;;
  modify (set_mom_service_port (r_port r)) ;;;
  ret (r_rc r).

(** libc: the call may change [errno]. *)
Definition libc_call (c : call) : M response :=
  r <- ext c ;;
  modify (set_errno (r_errno r)) ;;;
  ret r.

Definition getaddrinfo (node : string) (hints : addrinfo) : M (Z * list addrinfo) :=
  r <- libc_call (C_getaddrinfo node hints) ;; ret (r_rc r, r_addrs r).
Definition freeaddrinfo : M unit := _ <- ext C_freeaddrinfo ;; ret tt.
Definition socket (d : ai_family_t) (t : socktype_t) (p : Z) : M Z :=
  r <- libc_call (C_socket d t p) ;; ret (r_rc r).
Definition connect (sd : Z) (addr : sockaddr_in) : M Z :=
  r <- libc_call (C_connect sd addr) ;; ret (r_rc r).
Definition close (sd : Z) : M Z :=
  r <- libc_call (C_close sd) ;; ret (r_rc r).
(** [strdup]: a copy of [s], or the null pointer when the answer is 0. *)
Definition strdup (s : string) : M (option string) :=
  r <- ext (C_strdup s) ;; ret (if nonzero (r_rc r) then Some s else None).

(** DIS layer: the routines return a DIS code and leave [pbs_errno] alone. *)
Definition dis_call (c : call) : M Z := r <- ext c ;; ret (r_rc r).

Definition DIS_tcp_setup (sock : Z) : M unit := _ <- ext (C_DIS_tcp_setup sock) ;; ret tt.
Definition encode_DIS_ReqHdr (sock reqt : Z) (user : string) : M Z :=
  dis_call (C_encode_DIS_ReqHdr sock reqt user).
Definition diswui (sock v : Z) : M Z := dis_call (C_diswui sock v).
Definition diswsi (sock v : Z) : M Z := dis_call (C_diswsi sock v).
Definition diswst (sock : Z) (s : string) : M Z := dis_call (C_diswst sock s).
Definition encode_DIS_ReqExtend (sock : Z) (extend : option string) : M Z :=
  dis_call (C_encode_DIS_ReqExtend sock extend).
Definition DIS_tcp_wflush (sock : Z) : M Z := dis_call (C_DIS_tcp_wflush sock).

(** [PBSD_rdrpy(c)] reads the reply and records its code and text in the
    slot and its code in [pbs_errno]. *)
Definition PBSD_rdrpy (c : nat) : M unit :=
  r <- ext (C_PBSD_rdrpy c) ;;
  upd_slot c (fun h => with_errtxt (r_text r) (with_errno (r_rc r) h)) ;;;
  modify (set_pbs_errno (r_errno r)).
Definition PBSD_FreeReply : M unit := _ <- ext C_PBSD_FreeReply ;; ret tt.

(** *** cnt2mom.c *)

(** The scan [for (conn=1; conn<NCONNECTS; conn++) { if (inuse) continue; break; }]
    entered at [conn] with [n] indices left below [NCONNECTS]; the result is
    the value of [conn] after the loop. *)
Fixpoint scan_slots (t : list connect_handle) (conn n : nat) : nat :=
  match n with
  | O => conn
  | S n' => if nonzero (ch_inuse (slot t conn)) then scan_slots t (S conn) n' else conn
  end.

Definition find_slot (t : list connect_handle) : nat :=
  scan_slots t 1 (NCONNECTS - 1).

(** [for (aip = pai; aip != NULL; aip = aip->ai_next) if (aip->ai_family == AF_INET) break;] *)
Definition is_AF_INET (f : ai_family_t) : bool :=
  match f with AF_INET => true | _ => false end.

Fixpoint first_inet (pai : list addrinfo) : option addrinfo :=
  match pai with
  | [] => None
  | aip :: next => if is_AF_INET (ai_family aip) then Some aip else first_inet next
  end.

(** [hints] after [memset] and the three assignments. *)
Definition hints : addrinfo :=
  mk_addrinfo AF_UNSPEC SOCK_STREAM IPPROTO_TCP (mk_sockaddr 0 0).

(** Giving a slot back: [close(connection[conn].ch_socket);
    connection[conn].ch_inuse = 0;] *)
Definition release_slot (conn : nat) : M unit :=
  s <- gets (fun w => ch_socket (slot (connection w) conn)) ;;
  _ <- close s ;;
  upd_slot conn (with_inuse 0).

(** The label [err:]. *)
Definition err : M Z :=
  _ <- pbs_client_thread_unlock_conntable ;; ret (-1).

Definition default_host (momhost : option string) : string :=
  match momhost with
  | None => "localhost"
  | Some s => if (String.length s <=? 0)%nat then "localhost" else s
  end.

Definition pbs_connect2mom (momhost : option string) : M Z :=
  rc <- pbs_client_thread_init_thread_context ;;
  if nonzero rc then ret (-1) else
  rc <- pbs_loadconf 0 ;;
  if rc =? 0 then ret (-1) else
  rc <- pbs_client_thread_lock_conntable ;;
  if nonzero rc then ret (-1) else
  t <- gets connection ;;
  let conn := find_slot t in
  if (NCONNECTS <=? conn)%nat then
    modify (set_pbs_errno PBSE_NOCONNECTS) ;;; err
  else
  let momhost := default_host momhost in
  res <- getaddrinfo momhost hints ;;
  let (rc, pai) := res in
  if nonzero rc then
    modify (set_pbs_errno PBSE_BADHOST) ;;; err
  else
  match first_inet pai with
  | None => modify (set_pbs_errno PBSE_BADHOST) ;;; err
  | Some aip =>
    port <- gets mom_service_port ;;
    let inp := mk_sockaddr (sin_addr (ai_addr aip)) (htons port) in
    sd <- socket AF_INET SOCK_STREAM 0 ;;
    if sd <? 0 then
      modify (set_pbs_errno PBSE_PROTOCOL) ;;; err
    else
    rc <- connect sd inp ;;
    if rc <? 0 then
      _ <- close sd ;;
      e <- gets errno ;;
      modify (set_pbs_errno e) ;;;
      freeaddrinfo ;;;
      err
    else
    freeaddrinfo ;;;
    DIS_tcp_setup sd ;;;
    modify (set_pbs_tcp_timeout PBS_DIS_TCP_TIMEOUT_VLONG) ;;;
    upd_slot conn (with_inuse 1) ;;;
    upd_slot conn (with_errno 0) ;;;
    upd_slot conn (with_socket sd) ;;;
    upd_slot conn (with_errtxt None) ;;;
    rc <- pbs_client_thread_init_connect_context conn ;;
    if nonzero rc then
      release_slot conn ;;;
      err
    else
    rc <- pbs_client_thread_unlock_conntable ;;
    if nonzero rc then ret (-1) else
    ret (Z.of_nat conn)
  end.

Definition cnt2mom (momhost : option string) : M Z :=
  connect <- pbs_connect2mom momhost ;;
  ret connect.

(** *** pbsD_defschreply.c *)

(** The test "[p] is null or points at the terminator". *)
Definition null_or_empty (p : option string) : bool :=
  match p with
  | None => true
  | Some s => (String.length s =? 0)%nat
  end.

(** The value of a C comparison. *)
Definition b2z (b : bool) : Z := if b then 1 else 0.

(** An [int] argument passed where [unsigned] is expected. *)
Definition to_unsigned (v : Z) : Z := v mod 2 ^ 32.

(** The controlling expression of the first [if]: the four encoders joined
    by [||], each assigning [rc]; the result is [rc] after the evaluation.
    Since [!=] binds tighter than [=], the last three store the comparison. *)
Definition encode_head (sock cmd : Z) (id : string) (err : Z) : M Z :=
  rc <- encode_DIS_ReqHdr sock PBS_BATCH_DefSchReply pbs_current_user ;;
  if nonzero rc then ret rc else
  r <- diswui sock (to_unsigned cmd) ;;
  let rc := b2z (nonzero r) in
  if nonzero rc then ret rc else
  r <- diswst sock id ;;
  let rc := b2z (nonzero r) in
  if nonzero rc then ret rc else
  r <- diswui sock (to_unsigned err) ;;
  ret (b2z (nonzero r)).

(** The body shared, word for word, by the two encode-failure branches. *)
Definition encode_failed (c : nat) (rc : Z) : M Z :=
  m <- strdup (dis_emsg rc) ;;
  upd_slot c (with_errtxt m) ;;;
  e <- gets (fun w => ch_errtxt (slot (connection w) c)) ;;
  (match e with
   | None => modify (set_pbs_errno PBSE_SYSTEM)
   | Some _ => modify (set_pbs_errno PBSE_PROTOCOL)
   end) ;;;
  _ <- pbs_client_thread_unlock_connection c ;;
  gets pbs_errno.

Definition pbs_defschreply (c : nat) (cmd : Z) (id : option string) (err : Z)
    (txt extend : option string) : M Z :=
  if null_or_empty id then
    modify (set_pbs_errno PBSE_IVALREQ) ;;; ret PBSE_IVALREQ
  else
  let has_txt := if negb (null_or_empty txt) then 1 else 0 in
  sock <- gets (fun w => ch_socket (slot (connection w) c)) ;;
  rc <- pbs_client_thread_init_thread_context ;;
  if nonzero rc then gets pbs_errno else
  rc <- pbs_client_thread_lock_connection c ;;
  if nonzero rc then gets pbs_errno else
  DIS_tcp_setup sock ;;;
  rc <- encode_head sock cmd (default "" id) err ;;
  if nonzero rc then encode_failed c rc else
  rc <- diswsi sock has_txt ;;
  rc <- (if (has_txt =? 1) && (rc =? 0) then diswst sock (default "" txt) else ret rc) ;;
  rc <- (if rc =? 0 then encode_DIS_ReqExtend sock extend else ret rc) ;;
  if nonzero rc then encode_failed c rc else
  rc <- DIS_tcp_wflush sock ;;
  if nonzero rc then
    modify (set_pbs_errno PBSE_PROTOCOL) ;;;
    _ <- pbs_client_thread_unlock_connection c ;;
    gets pbs_errno
  else
  PBSD_rdrpy c ;;;
  rc <- gets (fun w => ch_errno (slot (connection w) c)) ;;
  PBSD_FreeReply ;;;
  u <- pbs_client_thread_unlock_connection c ;;
  if nonzero u then gets pbs_errno else
  ret rc.

(** *** parse_stage.c (the build without [WIN32]) *)

(** [isprint] and [isspace] of <ctype.h> in the C locale. *)
Definition isprint (x : ascii) : bool :=
  let n := nat_of_ascii x in ((32 <=? n) && (n <=? 126))%nat.
Definition isspace (x : ascii) : bool :=
  let n := nat_of_ascii x in ((n =? 32) || ((9 <=? n) && (n <=? 13)))%nat.

Definition ISNAMECHAR (x : ascii) : bool :=
  (isprint x || isspace x) && negb (Ascii.eqb x "@").
Definition ISNAMECHAR2 (x : ascii) : bool :=
  isprint x && negb (isspace x) && negb (Ascii.eqb x "@") && negb (Ascii.eqb x ":").

(** A [char *] walking a string is the list of characters from the cursor
    on; the cursor reads the terminator at the end of the list. *)
Definition NUL : ascii := Ascii.zero.
Definition deref (c : list ascii) : ascii :=
  match c with [] => NUL | x :: _ => x end.

(** [while (isspace( *c )) c++;] *)
Fixpoint skip_space (c : list ascii) : list ascii :=
  match c with
  | [] => []
  | x :: c' => if isspace x then skip_space c' else c
  end.

(** One copying loop,
    [while ( *c != 0) { if (NAMECHAR( *c )) { if (pos >= limit) return 1;
    buf[pos++] = *c; } else break; c++; }]:
    either the function returns 1 from inside the loop, or the loop ends
    with the cursor, the position and the buffer. *)
Inductive scan_result :=
| Overflow (buf : list ascii)
| Stopped (c : list ascii) (pos : nat) (buf : list ascii).

Fixpoint scan_part (namechar : ascii -> bool) (limit : nat)
    (c : list ascii) (pos : nat) (buf : list ascii) : scan_result :=
  match c with
  | [] => Stopped c pos buf
  | x :: c' =>
    if Ascii.eqb x NUL then Stopped c pos buf
    else if namechar x then
      if (limit <=? pos)%nat then Overflow buf
      else scan_part namechar limit c' (S pos) (<[pos := x]> buf)
    else Stopped c pos buf
  end.

(** The result: the returned int and the three caller-supplied arrays
    [local_name], [host_name], [remote_name] as the call leaves them. *)
Definition parse_stage_name (pair local_name host_name remote_name : list ascii)
    : Z * (list ascii * list ascii * list ascii) :=
  let h_pos := 0%nat in
  let r_pos := 0%nat in
  let c := skip_space pair in
  match scan_part ISNAMECHAR MAXPATHLEN c 0 local_name with
  | Overflow local_name => (1, (local_name, host_name, remote_name))
  | Stopped c l_pos local_name =>
    if (l_pos =? 0)%nat then (1, (local_name, host_name, remote_name)) else
    let after_host :=
      if Ascii.eqb (deref c) "@" then
        scan_part ISNAMECHAR2 PBS_MAXSERVERNAME (tail c) h_pos host_name
      else Stopped c h_pos host_name in
    match after_host with
    | Overflow host_name => (1, (local_name, host_name, remote_name))
    | Stopped c' h_pos host_name =>
      if Ascii.eqb (deref c) "@" && (h_pos =? 0)%nat
      then (1, (local_name, host_name, remote_name)) else
      let c := c' in
      let after_remote :=
        if Ascii.eqb (deref c) ":" then
          scan_part ISNAMECHAR MAXPATHLEN (tail c) r_pos remote_name
        else Stopped c r_pos remote_name in
      match after_remote with
      | Overflow remote_name => (1, (local_name, host_name, remote_name))
      | Stopped c r_pos remote_name =>
        if (r_pos =? 0)%nat then (1, (local_name, host_name, remote_name)) else
        if negb (Ascii.eqb (deref c) NUL) then (1, (local_name, host_name, remote_name)) else
        let local_name := <[l_pos := NUL]> local_name in
        let remote_name := <[r_pos := NUL]> remote_name in
        let host_name := <[h_pos := NUL]> host_name in
        (0, (local_name, host_name, remote_name))
      end
    end
  end.

End Model.

(** ** dec_JobCred.c *)

(** An [unsigned] stored in an [int]: the value of the same 32 bits, so
    that 2^31 and more come out negative. *)
Definition to_int (v : Z) : Z := (v + 2 ^ 31) mod 2 ^ 32 - 2 ^ 31.

(** [preq->rq_ind.rq_jobcred] (batch_request.h): [rq_type] is an [int];
    [rq_size] is written by [disrcs] itself, through the pointer it is
    handed, and holds the count as [disrcs] stored it. *)
Record rq_jobcred := mk_jobcred {
  rq_type : Z;
  rq_size : Z;
  rq_data : option (list Byte.byte);     (* [None] is the null pointer *)
}.

Section JobCred.
(** The DIS readers work on the state of the DIS layer; [decode_DIS_JobCred]
    is written over any such state and any pair of readers.
    [disrui sock] yields the value, an [unsigned], and [*retval];
    [disrcs sock] yields the buffer, [*nchars] and [*retval]. *)
Context {dis_state : Type}.
Variable disrui : Z -> dis_state -> (Z * Z) * dis_state.
Variable disrcs : Z -> dis_state -> (option (list Byte.byte) * Z * Z) * dis_state.

Definition decode_DIS_JobCred (sock : Z) (preq : rq_jobcred) (st : dis_state)
    : Z * rq_jobcred * dis_state :=
  let preq := mk_jobcred (rq_type preq) (rq_size preq) None in
  let '((v, rc), st) := disrui sock st in
  let preq := mk_jobcred (to_int v) (rq_size preq) (rq_data preq) in
  if nonzero rc then (rc, preq, st) else
  let '((d, n, rc), st) := disrcs sock st in
  let preq := mk_jobcred (rq_type preq) n d in
  (rc, preq, st).

End JobCred.

(** *** The wire codec the readers belong to *)

Class WireFormat := {
  uint_width : nat;          (* bytes of a fixed-width unsigned integer *)
  max_count : nat;           (* largest length prefix accepted *)
  Truncated : Z;             (* codec error: stream end *)
  Malformed : Z;             (* codec error: inconsistent length prefix *)
}.

Section Codec.
Context `{WireFormat}.

Definition byte_val (b : Byte.byte) : Z := Z.of_N (Byte.to_N b).

Definition be_value (bs : list Byte.byte) : Z :=
  fold_left (fun acc b => acc * 256 + byte_val b) bs 0.

(** Modelled from the spec: [disrui] (Libdis) is not among the sources.
    Section 4.1: "read_uint(stream): fixed-width or self-delimited unsigned
    integer; failure on I/O error or stream end signals Truncated"; section 6:
    "integers use a fixed encoding width agreed by both peers".  The stream
    is the list of bytes still to be read. *)
Definition read_uint (st : list Byte.byte) : (Z * Z) * list Byte.byte :=
  if (length st <? uint_width)%nat then ((0, Truncated), st)
  else ((be_value (take uint_width st), DIS_SUCCESS), drop uint_width st).

(** Modelled from the spec: [disrcs] (Libdis) is not among the sources.
    Section 4.1: a counted string is "a length prefix followed by raw bytes
    (length 0 and a null payload are distinct and both legal)"; "decoding
    allocates a buffer sized exactly to the prefix and fails with Malformed if
    the prefix is inconsistent with remaining stream length expectations
    (e.g., exceeds a sane maximum)".  A failed read yields the null pointer
    and a zero count. *)
Definition read_counted_string (st : list Byte.byte)
    : (option (list Byte.byte) * Z * Z) * list Byte.byte :=
  let '((n, rc), st1) := read_uint st in
  if nonzero rc then ((None, 0, rc), st1)
  else if (Z.of_nat max_count <? n) || (Z.of_nat (length st1) <? n)
  then ((None, 0, Malformed), st1)
  else ((Some (take (Z.to_nat n) st1), n, DIS_SUCCESS), drop (Z.to_nat n) st1).

Definition spec_disrui (sock : Z) := read_uint.
Definition spec_disrcs (sock : Z) := read_counted_string.

End Codec.

(** ** Weakest preconditions for the state monad *)

Definition wp {A} (m : M A) (Q : A -> world -> Prop) (w : world) : Prop :=
  let (a, w') := m w in Q a w'.

(** ** Sample instances, used to run the definitions *)

Definition sample_emsg (rc : Z) : string :=
  match rc with
  | 0 => "No error"
  | 1 => "Input value too large to convert to this type"
  | 7 => "Premature end of message"
  | 9 => "Supporting protocol failure"
  | _ => "Unknown DIS error"
  end.

Definition sample_headers (nconnects maxpathlen maxservername : nat) : Headers := {|
  NCONNECTS := nconnects;
  PBSE_IVALREQ := 15004;
  PBSE_BADHOST := 15008;
  PBSE_SYSTEM := 15010;
  PBSE_PROTOCOL := 15031;
  PBSE_NOCONNECTS := 15033;
  PBS_DIS_TCP_TIMEOUT_VLONG := 10800;
  PBS_BATCH_DefSchReply := 75;
  pbs_current_user := "pbsuser";
  dis_emsg := sample_emsg;
  htons := fun p => 256 * (p mod 256) + (p / 256) mod 256;
  MAXPATHLEN := maxpathlen;
  PBS_MAXSERVERNAME := maxservername;
|}.

(** An answer that carries only a return code. *)
Definition answer (rc : Z) : response := mk_response rc 0 0 [] None.

(** A call that returns [rc] and leaves [errno] as it found it. *)
Definition quiet (w : world) (rc : Z) : response :=
  mk_response rc (errno w) 0 [] None.

Definition loopback : addrinfo :=
  mk_addrinfo AF_INET SOCK_STREAM IPPROTO_TCP (mk_sockaddr 2130706433 0).
Definition loopback6 : addrinfo :=
  mk_addrinfo AF_INET6 SOCK_STREAM IPPROTO_TCP (mk_sockaddr 1 0).

(** Every collaborator succeeds; the resolver lists an IPv6 and an IPv4
    address, [socket] hands out descriptor 3. *)
Definition all_ok : Collaborators := fun w c =>
  match c with
  | C_loadconf _ => mk_response 1 (errno w) 15002 [] None
  | C_getaddrinfo _ _ => mk_response 0 (errno w) 0 [loopback6; loopback] None
  | C_socket _ _ _ => quiet w 3
  | C_strdup _ => quiet w 1
  | _ => quiet w 0
  end.

(** As [all_ok], except that the calls picked by [bad] are answered by [r]. *)
Definition failing (bad : call -> bool) (r : response) : Collaborators := fun w c =>
  if bad c then r else all_ok w c.

Definition empty_table (n : nat) : list connect_handle := replicate n null_handle.
Definition fresh_world (n : nat) : world := mk_world (empty_table n) 0 0 0 0 [].

(** ** Reading a trace *)

(** The calls a run added to the log. *)
Definition new_events (w w' : world) : list event :=
  drop (length (trace w)) (trace w').

Definition failed (e : event) : bool := nonzero (r_rc (snd e)).

Definition is_lock_connection (c : nat) (k : call) : bool :=
  match k with C_lock_connection c' => (c' =? c)%nat | _ => false end.
Definition is_unlock_connection (c : nat) (k : call) : bool :=
  match k with C_unlock_connection c' => (c' =? c)%nat | _ => false end.
Definition is_diswsi (k : call) : bool :=
  match k with C_diswsi _ _ => true | _ => false end.
Definition is_wflush (k : call) : bool :=
  match k with C_DIS_tcp_wflush _ => true | _ => false end.

Definition count_calls (p : call -> bool) (evs : list event) : nat :=
  length (List.filter (fun e => p (fst e)) evs).

Definition called (p : call -> bool) (evs : list event) : bool :=
  existsb (fun e => p (fst e)) evs.

(** The calls after the first successful [pbs_client_thread_lock_connection(c)]. *)
Fixpoint after_lock (c : nat) (evs : list event) : option (list event) :=
  match evs with
  | [] => None
  | e :: evs' =>
    if is_lock_connection c (fst e) && negb (failed e) then Some evs'
    else after_lock c evs'
  end.

(** Calls that hand bytes to the connection: the DIS encoders and the flush. *)
Definition writes_bytes (k : call) : bool :=
  match k with
  | C_encode_DIS_ReqHdr _ _ _ | C_diswui _ _ | C_diswsi _ _ | C_diswst _ _
  | C_encode_DIS_ReqExtend _ _ | C_DIS_tcp_wflush _ => true
  | _ => false
  end.

(** The encoders whose DIS code reaches [rc] unchanged: the request header,
    the text flag, the extension, and the text (the [diswst] that comes after
    the text flag). *)
Definition keeps_code (evs : list event) (k : call) : bool :=
  match k with
  | C_encode_DIS_ReqHdr _ _ _ | C_diswsi _ _ | C_encode_DIS_ReqExtend _ _ => true
  | C_diswst _ _ => called is_diswsi evs
  | _ => false
  end.

(** What the specification promises of a run of [pbs_defschreply] on
    connection [c] in which an encoder or the flush failed: the message of
    that very DIS code is attached to the slot, the slot is unlocked, and
    [PBSE_PROTOCOL] is returned. *)
Definition reports_codec_error `{Headers} (c : nat) (w : world) (r : Z) (w' : world) : Prop :=
  let evs := new_events w w' in
  forall k a, In (k, a) evs -> writes_bytes k = true -> r_rc a <> 0 ->
    ch_errtxt (slot (connection w') c) = Some (dis_emsg (r_rc a)) /\
    count_calls (is_unlock_connection c) evs = 1%nat /\
    r = PBSE_PROTOCOL.

Definition is_diswui (k : call) : bool :=
  match k with C_diswui _ _ => true | _ => false end.
Definition is_ReqHdr (k : call) : bool :=
  match k with C_encode_DIS_ReqHdr _ _ _ => true | _ => false end.

(** The header encoder fails with code 7 and the message cannot be copied. *)
Definition header_fails_no_memory : Collaborators := fun w c =>
  match c with
  | C_encode_DIS_ReqHdr _ _ _ => answer 7
  | C_strdup _ => answer 0
  | _ => all_ok w c
  end.

(** *** The connector *)

(** Slots of the table whose in-use flag is clear. *)
Fixpoint free_slots (t : list connect_handle) : nat :=
  match t with
  | [] => 0
  | h :: t' => (if nonzero (ch_inuse h) then 0 else 1) + free_slots t'
  end.

Definition is_lock_conntable (k : call) : bool :=
  match k with C_lock_conntable => true | _ => false end.
Definition is_unlock_conntable (k : call) : bool :=
  match k with C_unlock_conntable => true | _ => false end.
Definition is_getaddrinfo (k : call) : bool :=
  match k with C_getaddrinfo _ _ => true | _ => false end.
Definition is_connect (k : call) : bool :=
  match k with C_connect _ _ => true | _ => false end.


(** The run took the table lock. *)
Definition lock_acquired (evs : list event) : bool :=
  existsb (fun e => is_lock_conntable (fst e) && negb (failed e)) evs.

(** One of the steps between slot selection and the end of binding failed:
    the resolver failed or listed no IPv4 address, [socket] or [connect]
    returned a negative value, or the connection context could not be set up. *)
Definition step_failed (e : event) : bool :=
  match fst e with
  | C_getaddrinfo _ _ =>
      nonzero (r_rc (snd e)) ||
      match first_inet (r_addrs (snd e)) with None => true | Some _ => false end
  | C_socket _ _ _ => r_rc (snd e) <? 0
  | C_connect _ _ => r_rc (snd e) <? 0
  | C_init_connect_context _ => nonzero (r_rc (snd e))
  | _ => false
  end.

Definition failed_after_selection (evs : list event) : bool :=
  existsb step_failed evs.







(** [connect] is refused, with [errno] 111. *)
Definition connect_refused : Collaborators :=
  failing is_connect (mk_response (-1) 111 0 [] None).

(** The resolver lists an IPv6 address and nothing else. *)
Definition ipv6_only : Collaborators :=
  failing is_getaddrinfo (mk_response 0 0 0 [loopback6] None).

(** The resolver fails, and so does every unlock of the table, which leaves
    code 15010 behind. *)
Definition resolver_and_unlock_fail : Collaborators := fun w c =>
  match c with
  | C_getaddrinfo _ _ => mk_response (-2) 0 0 [] None
  | C_unlock_conntable => mk_response 1 15010 0 [] None
  | _ => all_ok w c
  end.

(** *** Stage names and credentials *)

(** The C string held in a character array: the characters before the
    first terminator. *)
Fixpoint c_str (buf : list ascii) : list ascii :=
  match buf with
  | [] => []
  | x :: b => if Ascii.eqb x NUL then [] else x :: c_str b
  end.

(** [buf] after [buf[pos] = l[0]; buf[pos+1] = l[1]; ...]. *)
Fixpoint write_at (pos : nat) (l buf : list ascii) : list ascii :=
  match l with
  | [] => buf
  | x :: l' => write_at (S pos) l' (<[pos := x]> buf)
  end.

(** Characters a copying loop takes: accepted by its test and not the
    terminator. *)
Definition taken (p : ascii -> bool) (x : ascii) : Prop :=
  p x = true /\ x <> NUL.

(** A copying loop stops in front of [c]. *)
Definition stops (p : ascii -> bool) (c : list ascii) : Prop :=
  deref c = NUL \/ p (deref c) = false.

Definition chars (s : string) : list ascii := list_ascii_of_string s.

(** Four-byte integers, counts up to 4096, and two codec error codes. *)
Definition sample_wire : WireFormat := {|
  uint_width := 4;
  max_count := 4096;
  Truncated := 7;
  Malformed := 9;
|}.

(** *** More calls to look for *)

Definition is_loadconf (k : call) : bool :=
  match k with C_loadconf _ => true | _ => false end.
Definition is_socket (k : call) : bool :=
  match k with C_socket _ _ _ => true | _ => false end.
Definition is_close (sd : Z) (k : call) : bool :=
  match k with C_close sd' => sd' =? sd | _ => false end.
Definition is_freeaddrinfo (k : call) : bool :=
  match k with C_freeaddrinfo => true | _ => false end.
Definition is_tcp_setup (sd : Z) (k : call) : bool :=
  match k with C_DIS_tcp_setup sd' => sd' =? sd | _ => false end.
Definition is_rdrpy (k : call) : bool :=
  match k with C_PBSD_rdrpy _ => true | _ => false end.
Definition is_FreeReply (k : call) : bool :=
  match k with C_PBSD_FreeReply => true | _ => false end.
Definition is_strdup (k : call) : bool :=
  match k with C_strdup _ => true | _ => false end.

(** The DIS write calls of a run, in order. *)
Definition writes (evs : list event) : list event :=
  List.filter (fun e => writes_bytes (fst e)) evs.

(** The deferred-reply request as [pbs_defschreply] puts it on the wire:
    header, command, job id, error number, text flag, the text when there is
    one, extension, flush. *)
Definition request_calls `{Headers} (sock cmd : Z) (id : string) (err : Z)
    (txt extend : option string) : list call :=
  [ C_encode_DIS_ReqHdr sock PBS_BATCH_DefSchReply pbs_current_user;
    C_diswui sock (to_unsigned cmd); C_diswst sock id;
    C_diswui sock (to_unsigned err) ] ++
  (if null_or_empty txt then [C_diswsi sock 0]
   else [C_diswsi sock 1; C_diswst sock (default "" txt)]) ++
  [ C_encode_DIS_ReqExtend sock extend; C_DIS_tcp_wflush sock ].

(** [socket] fails with [errno] 24; the last unlock of the table fails with
    code 15031; [pbs_loadconf] fails; the lock of connection 1 fails with
    code 15014. *)
Definition socket_fails : Collaborators :=
  failing is_socket (mk_response (-1) 24 0 [] None).
Definition unlock_fails : Collaborators :=
  failing is_unlock_conntable (mk_response 1 15031 0 [] None).
Definition loadconf_fails : Collaborators := failing is_loadconf (answer 0).
Definition lock_fails : Collaborators :=
  failing (is_lock_connection 1) (mk_response 1 15014 0 [] None).

(** *** parse_stage.c: the list of stage pairs *)

(** What a call comes to: it returns, or it reads or writes outside an
    array (the C standard then leaves the behaviour undefined), or the
    rounds granted to its loop did not suffice. *)
Inductive outcome :=
| Returned (rc : Z)
| Undefined
| Unfinished.

(** [strlen] of an array: the index of its first terminator.  An array that
    holds none is read past its end. *)
Fixpoint strlen (buf : list ascii) : option nat :=
  match buf with
  | [] => None
  | x :: b => if Ascii.eqb x NUL then Some 0%nat else option_map S (strlen b)
  end.

(** A [char *] that also moves backwards is a pair: the characters in front
    of it, nearest first, and the characters from it on.  The copy [l] ends
    with its terminator, which is the end of the second list; nothing lies
    in front of [l[0]]. *)

(** [while (isspace((int) *c)) c++;] *)
Fixpoint drop_leading (before c : list ascii) : list ascii * list ascii :=
  match c with
  | [] => (before, c)
  | x :: c' => if isspace x then drop_leading (x :: before) c' else (before, c)
  end.

(** [while ( *c != 0) { if ( *c == ',' && (s != c) && *(c - 1) != '\\') break; c++; }]
    with [item] the characters from [s] to [c], nearest first: [s != c] says
    that [item] is not empty, and [*(c - 1)] is then its head. *)
Fixpoint find_comma (item c : list ascii) : list ascii * list ascii :=
  match c with
  | [] => (item, c)
  | x :: c' =>
    if Ascii.eqb x NUL then (item, c)
    else if Ascii.eqb x "," &&
            match item with [] => false | p :: _ => negb (Ascii.eqb p "\") end
    then (item, c)
    else find_comma (x :: item) c'
  end.

(** [b = c - 1; while (isspace((int) *b)) *b-- = 0;] on the characters in
    front of [c]: the result is these characters after the loop, or [None]
    when the loop reads in front of [l[0]]. *)
Fixpoint drop_trailing (before : list ascii) : option (list ascii) :=
  match before with
  | [] => None
  | x :: before' =>
    if isspace x then option_map (cons NUL) (drop_trailing before')
    else Some before
  end.

Section StageList.
Context `{Headers}.

(** The loop [while ( *c != 0) { ... }] of [parse_stage_list] and the
    statements after it, entered with at most [rounds] rounds to go.
    [parse_stage_name] stores outside an array of [parse_stage_list] in one
    case only, the terminator of a host name that fills [host]; [host] then
    holds no terminator, and the run is reported undefined at the
    [strlen(host)] that follows.  The calls of [free] are left out. *)
Fixpoint stage_items (rounds : nat) (before c : list ascii) (comma : bool)
    (local host remote : list ascii) : outcome :=
  match rounds with
  | O => Unfinished
  | S rounds =>
    if Ascii.eqb (deref c) NUL then Returned (if comma then 1 else 0) else
    let '(before, c) := drop_leading before c in
    let '(item, c) := find_comma [] c in
    let comma := Ascii.eqb (deref c) "," in
    (* *c = 0 *)
    let c := match c with [] => [] | _ :: c' => NUL :: c' end in
    match drop_trailing (item ++ before) with
    | None => Undefined
    | Some before =>
      (* the string that starts at [s] *)
      let s := rev (take (length item) before) ++ c in
      let '(rc, (local, host, remote)) := parse_stage_name s local host remote in
      if nonzero rc then Returned 1 else
      match strlen local with
      | None => Undefined
      | Some n =>
        if (n =? 0)%nat then Returned 1 else
        match strlen host with
        | None => Undefined
        | Some n =>
          if (n =? 0)%nat then Returned 1 else
          match strlen remote with
          | None => Undefined
          | Some n =>
            if (n =? 0)%nat then Returned 1 else
            (* if (comma) c++; *)
            let '(before, c) :=
              if comma then (deref c :: before, tail c) else (before, c) in
            stage_items rounds before c comma local host remote
          end
        end
      end
    end
  end.

(** [enough_memory] tells whether [malloc] returns a block (the message
    printed when it does not is left out).  The copy [l] holds the
    characters of [list] up to its terminator; the loop advances [c] by at
    least one character a round, so one round more than [l] has characters
    is the most it can take. *)
Definition parse_stage_list (enough_memory : bool) (list : list ascii) : outcome :=
  let comma := false in
  let local := replicate (MAXPATHLEN + 1) NUL in
  let host := replicate PBS_MAXSERVERNAME NUL in
  let remote := replicate (MAXPATHLEN + 1) NUL in
  if (length (c_str list) =? 0)%nat then Returned 1 else
  if negb enough_memory then Returned 1 else
  let l := c_str list in
  stage_items (S (length l)) [] l comma local host remote.

End StageList.

(** *** Lists of stage pairs, as text *)

(** A stage pair as it is written in a list: blanks, the local name, [@],
    the host, [:], the remote name, blanks. *)
Record pair_text := mk_pair_text {
  lead : list ascii;
  local_part : list ascii;
  host_part : list ascii;
  remote_part : list ascii;
  trail : list ascii;
}.

Definition body (p : pair_text) : list ascii :=
  local_part p ++ "@"%char :: host_part p ++ ":"%char :: remote_part p.
Definition text (p : pair_text) : list ascii := lead p ++ body p ++ trail p.

(** Every comma of [s] is its first character or follows a backslash. *)
Definition commas_escaped (s : list ascii) : Prop :=
  forall i, s !! S i = Some ","%char -> s !! i = Some "\"%char.

(** The pair is written as the parser reads it: the blanks around it are
    blanks, the names are made of the characters their loops take, the local
    name does not begin and the remote name does not end with a blank, and
    no comma inside it separates: the ones it has are escaped, and it does
    not end with a backslash. *)
Definition well_shaped (p : pair_text) : Prop :=
  Forall (fun x => isspace x = true) (lead p) /\
  Forall (fun x => isspace x = true) (trail p) /\
  local_part p <> [] /\ isspace (deref (local_part p)) = false /\
  Forall (taken ISNAMECHAR) (local_part p) /\
  Forall (taken ISNAMECHAR2) (host_part p) /\
  Forall (taken ISNAMECHAR) (remote_part p) /\
  (forall x, last (remote_part p) = Some x -> isspace x = false) /\
  commas_escaped (body p) /\
  last (body p) <> Some "\"%char.

(** The names fit the arrays of [parse_stage_list], terminator included. *)
Definition within_limits `{Headers} (p : pair_text) : Prop :=
  (length (local_part p) <= MAXPATHLEN)%nat /\
  host_part p <> [] /\ (length (host_part p) < PBS_MAXSERVERNAME)%nat /\
  remote_part p <> [] /\ (length (remote_part p) <= MAXPATHLEN)%nat.

(** The test the lengths pass when [parse_stage_name] accepts the pair. *)
Definition fits `{Headers} (p : pair_text) : bool :=
  (length (local_part p) <=? MAXPATHLEN)%nat &&
  negb (length (host_part p) =? 0)%nat &&
  (length (host_part p) <=? PBS_MAXSERVERNAME)%nat &&
  negb (length (remote_part p) =? 0)%nat &&
  (length (remote_part p) <=? MAXPATHLEN)%nat.

(** What the pairs of a list come to, one after the other: a pair that
    does not pass the test ends the run with 1, a host name that fills its
    array ends it undefined, and the end of the list is reached otherwise. *)
Fixpoint verdict `{Headers} (ps : list pair_text) (trailing : bool) : outcome :=
  match ps with
  | [] => Returned (if trailing then 1 else 0)
  | p :: more =>
    if fits p then
      if (length (host_part p) <? PBS_MAXSERVERNAME)%nat then verdict more trailing
      else Undefined
    else Returned 1
  end.

(** The texts, with a comma between one and the next. *)
Fixpoint separated (texts : list (list ascii)) : list ascii :=
  match texts with
  | [] => []
  | [t] => t
  | t :: more => t ++ ","%char :: separated more
  end.

(** ** qdisable.c *)

Module Qdisable.

(** Constants and the macro [notNULL] of headers outside the translated
    file. *)
Class Headers := {
  MGR_CMD_SET : Z;
  MGR_OBJ_QUEUE : Z;
  SET : Z;
  CS_SUCCESS : Z;
  notNULL : option string -> bool;
}.

(** [struct attropl]; the list linked by [next] is a Rocq list. *)
Record attropl := mk_attropl {
  name : string;
  resource : option string;
  value : string;
  op : Z;
}.

(** An argument of [fprintf] after the format. *)
Inductive arg :=
| Str (s : option string)
| Int (n : Z).

(** The routines and macros the file uses and does not define. *)
Inductive call :=
| C_PRINT_VERSION_AND_EXIT (argc : Z) (argv : list string)
| C_CS_client_init
| C_CS_close_app
| C_parse_destination_id (dest : string)
| C_cnt2server (server : option string)
| C_pbs_manager (ct cmd obj : Z) (object : option string)
    (attrs : list attropl) (extend : option string)
| C_pbs_geterrmsg (ct : Z)
| C_pbs_disconnect (ct : Z)
| C_fprintf_stderr (format : string) (args : list arg).

(** An answer: the value returned, [pbs_errno] as the routine leaves it,
    the strings handed back ([*queue] and [*server] of
    [parse_destination_id], the message of [pbs_geterrmsg]), and for
    [PRINT_VERSION_AND_EXIT] the status it exits with, if it does. *)
Record response := mk_response {
  r_rc : Z;
  r_errno : Z;
  r_queue : option string;
  r_server : option string;
  r_msg : option string;
  r_exit : option Z;
}.

Definition event : Type := call * response.

(** The file-scope [exitstatus], the library's [pbs_errno], and the calls
    made so far, oldest first. *)
Record process := mk_process {
  exitstatus : Z;
  pbs_errno : Z;
  trace : list event;
}.

Definition set_exitstatus (v : Z) (w : process) : process :=
  mk_process v (pbs_errno w) (trace w).
Definition set_pbs_errno (v : Z) (w : process) : process :=
  mk_process (exitstatus w) v (trace w).
Definition log (e : event) (w : process) : process :=
  mk_process (exitstatus w) (pbs_errno w) (trace w ++ [e]).

Class Collaborators := respond : process -> call -> response.

Definition M (A : Type) : Type := process -> A * process.
Definition ret {A} (a : A) : M A := fun w => (a, w).
Definition bind {A B} (m : M A) (k : A -> M B) : M B :=
  fun w => let (a, w') := m w in k a w'.
Definition gets {A} (f : process -> A) : M A := fun w => (f w, w).
Definition modify (f : process -> process) : M unit := fun w => (tt, f w).

Declare Scope qdisable_scope.
Notation "x <- m ;; k" := (bind m (fun x => k))
  (at level 100, m at level 99, k at level 200, right associativity) : qdisable_scope.
Notation "m ;;; k" := (bind m (fun _ => k))
  (at level 100, k at level 200, right associativity) : qdisable_scope.

(** The newline of a C format. *)
Definition nl : string := String (ascii_of_nat 10) EmptyString.

Section Command.
Context `{Headers} `{Collaborators}.
Local Open Scope qdisable_scope.

Definition ext (c : call) : M response :=
  fun w => let r := respond w c in (r, log (c, r) w).

(** A routine of the client library: it may change [pbs_errno]. *)
Definition ifl_call (c : call) : M response :=
  r <- ext c ;;
  modify (set_pbs_errno (r_errno r)) ;;;
  ret r.

Definition cnt2server (server : option string) : M Z :=
  r <- ifl_call (C_cnt2server server) ;; ret (r_rc r).
Definition pbs_manager (ct cmd obj : Z) (object : option string)
    (attrs : list attropl) (extend : option string) : M Z :=
  r <- ifl_call (C_pbs_manager ct cmd obj object attrs extend) ;; ret (r_rc r).
Definition pbs_geterrmsg (ct : Z) : M (option string) :=
  r <- ifl_call (C_pbs_geterrmsg ct) ;; ret (r_msg r).
Definition pbs_disconnect (ct : Z) : M unit :=
  _ <- ifl_call (C_pbs_disconnect ct) ;; ret tt.
Definition fprintf_stderr (format : string) (args : list arg) : M unit :=
  _ <- ext (C_fprintf_stderr format args) ;; ret tt.

(** [static struct attropl attr = {NULL, "enabled", NULL, "FALSE", SET};] *)
Definition attr : attropl := mk_attropl "enabled" None "FALSE" SET.

Definition execute (queue server : option string) : M unit :=
  ct <- cnt2server server ;;
  if 0 <? ct then
    merr <- pbs_manager ct MGR_CMD_SET MGR_OBJ_QUEUE queue [attr] None ;;
    (if nonzero merr then
       errmsg <- pbs_geterrmsg ct ;;
       (match errmsg with
        | Some m => fprintf_stderr "qdisable: %s " [Str (Some m)]
        | None =>
          e <- gets pbs_errno ;;
          fprintf_stderr "qdisable: Error (%d) disabling queue " [Int e]
        end) ;;;
       (if notNULL queue then fprintf_stderr "%s" [Str queue] else ret tt) ;;;
       (if notNULL server then fprintf_stderr "@%s" [Str server] else ret tt) ;;;
       fprintf_stderr nl [] ;;;
       modify (set_exitstatus 2)
     else ret tt) ;;;
    pbs_disconnect ct
  else
    e <- gets pbs_errno ;;
    fprintf_stderr ("qdisable: could not connect to server %s (%d)" ++ nl)
      [Str server; Int e] ;;;
    modify (set_exitstatus 2).

(** The loop [for (dest=1; dest<argc; dest++)] over the arguments left. *)
Fixpoint destinations (argv : list string) : M unit :=
  match argv with
  | [] => ret tt
  | dest :: argv' =>
    r <- ext (C_parse_destination_id dest) ;;
    (if r_rc r =? 0 then execute (r_queue r) (r_server r)
     else
       fprintf_stderr ("qdisable: illegally formed destination: %s" ++ nl)
         [Str (Some dest)] ;;;
       modify (set_exitstatus 1)) ;;;
    destinations argv'
  end.

(** [main]; the result is the status the process exits with. *)
Definition main (argv : list string) : M Z :=
  let argc := Z.of_nat (length argv) in
  v <- ext (C_PRINT_VERSION_AND_EXIT argc argv) ;;
  match r_exit v with
  | Some status => ret status
  | None =>
    if argc =? 1 then
      fprintf_stderr ("Usage: qdisable [queue][@server] ..." ++ nl) [] ;;;
      fprintf_stderr ("       qdisable --version" ++ nl) [] ;;;
      ret 1
    else
    r <- ext C_CS_client_init ;;
    if negb (r_rc r =? CS_SUCCESS) then
      fprintf_stderr ("qdisable.c: unable to initialize security library." ++ nl) [] ;;;
      ret 1
    else
    destinations (tail argv) ;;;
    _ <- ext C_CS_close_app ;;
    gets exitstatus
  end.

End Command.

(** *** Reading a trace of the command *)

Definition wp {A} (m : M A) (Q : A -> process -> Prop) (w : process) : Prop :=
  let (a, w') := m w in Q a w'.

Definition new_events (w w' : process) : list event :=
  drop (length (trace w)) (trace w').

(** The status a call sets when it fails: 1 for a destination that cannot
    be parsed, 2 for a server that cannot be reached or a request that is
    refused. *)
Definition failure_status (e : event) : option Z :=
  match fst e with
  | C_parse_destination_id _ => if r_rc (snd e) =? 0 then None else Some 1
  | C_cnt2server _ => if 0 <? r_rc (snd e) then None else Some 2
  | C_pbs_manager _ _ _ _ _ _ => if r_rc (snd e) =? 0 then None else Some 2
  | _ => None
  end.

(** The status after the calls [evs], starting from [status]: each failure
    overwrites it. *)
Fixpoint status_after (status : Z) (evs : list event) : Z :=
  match evs with
  | [] => status
  | e :: evs' => status_after (default status (failure_status e)) evs'
  end.

(** The destinations handed to [parse_destination_id], in order. *)
Fixpoint parsed (evs : list event) : list string :=
  match evs with
  | [] => []
  | (C_parse_destination_id dest, _) :: evs' => dest :: parsed evs'
  | _ :: evs' => parsed evs'
  end.

(** The connection that is open after the calls [evs], if [open] was open
    before them; [None] when a call is out of place: a connect or the next
    destination while a connection is open, a request or a disconnect on a
    handle that is not the open one. *)
Fixpoint sessions (open : option Z) (evs : list event) : option (option Z) :=
  match evs with
  | [] => Some open
  | e :: evs' =>
    match fst e, open with
    | C_cnt2server _, None =>
        sessions (if 0 <? r_rc (snd e) then Some (r_rc (snd e)) else None) evs'
    | C_pbs_manager ct _ _ _ _ _, Some o
    | C_pbs_geterrmsg ct, Some o => if ct =? o then sessions open evs' else None
    | C_pbs_disconnect ct, Some o => if ct =? o then sessions None evs' else None
    | C_parse_destination_id _, None | C_CS_client_init, None
    | C_CS_close_app, None => sessions open evs'
    | C_PRINT_VERSION_AND_EXIT _ _, _ | C_fprintf_stderr _ _, _ => sessions open evs'
    | _, _ => None
    end
  end.

Definition is_cnt2server (k : call) : bool :=
  match k with C_cnt2server _ => true | _ => false end.
Definition is_pbs_manager (k : call) : bool :=
  match k with C_pbs_manager _ _ _ _ _ _ => true | _ => false end.
Definition is_pbs_disconnect (k : call) : bool :=
  match k with C_pbs_disconnect _ => true | _ => false end.
Definition is_CS_client_init (k : call) : bool :=
  match k with C_CS_client_init => true | _ => false end.

Definition count_calls (p : call -> bool) (evs : list event) : nat :=
  length (List.filter (fun e => p (fst e)) evs).

(** Sample instances: the macro as cmds.h has it, and a server "down" that
    cannot be reached while every other one accepts the request. *)
Definition sample_headers : Headers := {|
  MGR_CMD_SET := 2;
  MGR_OBJ_QUEUE := 1;
  SET := 0;
  CS_SUCCESS := 0;
  notNULL := fun p => match p with None => false | Some s => negb (String.eqb s "") end;
|}.

Definition answer (rc : Z) : response := mk_response rc 0 None None None None.

Definition one_server_down : Collaborators := fun w c =>
  match c with
  | C_parse_destination_id dest =>
      if String.eqb dest "bad@" then answer 1
      else mk_response 0 0 (Some "workq") (Some dest) None None
  | C_cnt2server (Some "down") => mk_response (-1) 15010 None None None None
  | C_cnt2server _ => answer 5
  | _ => answer 0
  end.

Definition start : process := mk_process 0 0 [].

End Qdisable.

(** * Properties *)

Lemma nonzero_false z : nonzero z = false -> z = 0.
Proof. unfold nonzero. intros E. apply negb_false_iff in E. lia. Qed.


Lemma nonzero_b2z b : nonzero (b2z b) = b.
Proof. by destruct b. Qed.

Lemma slot_insert_eq t c h : (c < length t)%nat -> slot (<[c:=h]> t) c = h.
Proof. intros Hc. unfold slot. by rewrite list_lookup_insert_eq. Qed.


Lemma slot_lookup t i : (i < length t)%nat -> t !! i = Some (slot t i).
Proof.
  intros Hi. unfold slot. by destruct (lookup_lt_is_Some_2 t i Hi) as [h ->].
Qed.

(** Overwriting a slot changes the number of free slots by the difference
    between the old and the new flag. *)
Lemma free_slots_insert t i h h0 :
  t !! i = Some h0 ->
  (free_slots (<[i:=h]> t) + (if nonzero (ch_inuse h0) then 0 else 1) =
   free_slots t + (if nonzero (ch_inuse h) then 0 else 1))%nat.
Proof.
  revert i. induction t as [|x t IH]; intros [|i] Hi; try done.
  - cbn -[nonzero] in *. simplify_eq. lia.
  - change (<[S i:=h]> (x :: t)) with (x :: <[i:=h]> t).
    change ((x :: t) !! S i) with (t !! i) in Hi.
    cbn [free_slots]. specialize (IH i Hi). lia.
Qed.


Lemma first_inet_Some l a :
  first_inet l = Some a ->
  exists pre post, l = pre ++ a :: post /\ ai_family a = AF_INET /\
    Forall (fun x => ai_family x <> AF_INET) pre.
Proof.
  induction l as [|x l IH]; [done|]. cbn.
  destruct (is_AF_INET (ai_family x)) eqn:E.
  - intros [= ->]. exists [], l. repeat split; [|constructor].
    by destruct (ai_family a).
  - intros Hl. destruct (IH Hl) as (pre & post & -> & Ha & Hpre).
    exists (x :: pre), post. repeat split; [done|].
    constructor; [|done]. intros Hx. by rewrite Hx in E.
Qed.

Lemma first_inet_None l :
  first_inet l = None -> Forall (fun x => ai_family x <> AF_INET) l.
Proof.
  induction l as [|x l IH]; [constructor|]. cbn.
  destruct (is_AF_INET (ai_family x)) eqn:E; [done|].
  intros Hl. constructor; [|by apply IH]. intros Hx. by rewrite Hx in E.
Qed.

Lemma first_inet_app pre aip post :
  Forall (fun x => ai_family x <> AF_INET) pre -> ai_family aip = AF_INET ->
  first_inet (pre ++ aip :: post) = Some aip.
Proof.
  intros Hpre Ha. induction Hpre as [|x pre Hx _ IH]; cbn.
  - by rewrite Ha.
  - destruct (ai_family x); done.
Qed.

Lemma first_inet_none l :
  Forall (fun x => ai_family x <> AF_INET) l -> first_inet l = None.
Proof.
  induction 1 as [|x l Hx _ IH]; [done|]. cbn. destruct (ai_family x); done.
Qed.

(** [momhost] after the two tests that replace a null or an empty name. *)
Lemma default_host_named (momhost : option string) :
  default_host momhost =
    match momhost with Some (String c s) => String c s | _ => "localhost" end.
Proof. by destruct momhost as [[|c s]|]. Qed.

(** ** Rules of the calculus *)

Lemma wp_ret {A} (a : A) Q w : Q a w -> wp (ret a) Q w.
Proof. exact id. Qed.

Lemma wp_bind {A B} (m : M A) (k : A -> M B) Q w :
  wp m (fun a w' => wp (k a) Q w') w -> wp (bind m k) Q w.
Proof. unfold wp, bind. destruct (m w). exact id. Qed.

Lemma wp_gets {A} (f : world -> A) Q w : Q (f w) w -> wp (gets f) Q w.
Proof. exact id. Qed.

Lemma wp_modify f Q w : Q tt (f w) -> wp (modify f) Q w.
Proof. exact id. Qed.

Lemma wp_ext `{Collaborators} c Q w :
  (forall r, Q r (log (c, r) w)) -> wp (ext c) Q w.
Proof. intros HQ. unfold wp, ext. apply HQ. Qed.

Lemma wp_elim {A} (m : M A) Q w : wp m Q w -> let '(a, w') := m w in Q a w'.
Proof. exact id. Qed.


(** Symbolic execution: one step of the program in the goal.  Each answer
    of a collaborator becomes a fresh record of variables. *)
Ltac wp_simpl :=
  cbv beta iota zeta delta
    [log set_connection set_pbs_errno set_errno set_pbs_tcp_timeout
     set_mom_service_port with_inuse with_errno with_socket with_errtxt];
  cbn [connection pbs_errno errno pbs_tcp_timeout mom_service_port trace
       r_rc r_errno r_port r_addrs r_text fst snd
       ch_inuse ch_errno ch_socket ch_errtxt].

Ltac wp_case b :=
  lazymatch b with
  | (if ?b' then _ else _) => wp_case b'
  | _ => first [ match goal with Hb : b = _ |- _ => rewrite Hb end
               | destruct b eqn:? ]
  end.

Ltac wp_step :=
  lazymatch goal with
  | |- wp (bind _ _) _ _ => apply wp_bind
  | |- wp (ret _) _ _ => apply wp_ret
  | |- wp (gets _) _ _ => apply wp_gets
  | |- wp (modify _) _ _ => apply wp_modify
  | |- wp (ext _) _ _ =>
      let r := fresh "r" in
      let rc := fresh "rc" in
      let en := fresh "en" in
      let pt := fresh "pt" in
      let ad := fresh "ad" in
      let tx := fresh "tx" in
      apply wp_ext; intros r; destruct r as [rc en pt ad tx]
  | |- wp (if ?b then _ else _) _ _ => wp_case b
  | |- wp (match ?x with Some a => @?f a | None => _ end) _ _ => wp_case x
  end;
  wp_simpl.

Ltac unfold_calls :=
  unfold pbs_client_thread_init_thread_context, pbs_client_thread_lock_conntable,
    pbs_client_thread_unlock_conntable, pbs_client_thread_init_connect_context,
    pbs_client_thread_lock_connection, pbs_client_thread_unlock_connection,
    pbs_loadconf, getaddrinfo, freeaddrinfo, socket, connect, close, strdup,
    DIS_tcp_setup, encode_DIS_ReqHdr, diswui, diswsi, diswst,
    encode_DIS_ReqExtend, DIS_tcp_wflush, PBSD_rdrpy, PBSD_FreeReply,
    thread_call, dis_call, libc_call, upd_slot.

(** The trace at the end of a path, as the list of calls the run added. *)
Ltac read_trace :=
  cbv beta iota zeta delta [new_events]; cbn [trace];
  rewrite <- ?app_assoc; rewrite ?drop_all, ?drop_app_length; cbn [app].

(** Turn the tests passed on the path into equations on the return codes. *)
Ltac read_tests :=
  repeat match goal with
  | Hz : nonzero (b2z _) = _ |- _ => rewrite nonzero_b2z in Hz
  | Hz : nonzero ?z = false |- _ => apply nonzero_false in Hz; try subst z
  | Hz : nonzero ?z = true |- _ => unfold nonzero in Hz; apply negb_true_iff in Hz
  | Hz : _ && _ = true |- _ => apply andb_true_iff in Hz; destruct Hz
  | Hz : (?z =? 0) = true |- _ => apply Z.eqb_eq in Hz; try subst z
  end.

(** Rewrite the goal with the tests passed on the path. *)
Ltac use_tests :=
  repeat match goal with
  | Hz : ?b = _ |- context [?b] => rewrite Hz
  end.

(** ** The deferred scheduler reply *)

Example defschreply_exchange :
  let '(r, w') := @pbs_defschreply (sample_headers 4 1024 255) all_ok
                    1 2 (Some "12.svr") 0 (Some "ok") None (fresh_world 4) in
  r = 0 /\
  map fst (trace w') =
    [ C_init_thread_context; C_lock_connection 1; C_DIS_tcp_setup 0;
      C_encode_DIS_ReqHdr 0 75 "pbsuser"; C_diswui 0 2; C_diswst 0 "12.svr";
      C_diswui 0 0; C_diswsi 0 1; C_diswst 0 "ok";
      C_encode_DIS_ReqExtend 0 None; C_DIS_tcp_wflush 0; C_PBSD_rdrpy 1;
      C_PBSD_FreeReply; C_unlock_connection 1 ].
Proof. vm_compute. done. Qed.

Section DefSchReply_facts.
Context `{Headers} `{Collaborators}.

Ltac run_defschreply :=
  unfold pbs_defschreply, encode_head, encode_failed; unfold_calls;
  repeat (wp_step; rewrite ?slot_insert_eq by assumption; wp_simpl).

(** C1.  [pbs_defschreply] called with a job id that is null or empty
    returns [PBSE_IVALREQ] (also left in [pbs_errno]) without having made a
    single call: nothing is written, no lock is taken, and the connection
    table is as it was. *)
Theorem defschreply_rejects_missing_id (c : nat) (cmd : Z) (id : option string)
    (err : Z) (txt extend : option string) (w : world) :
  id = None \/ id = Some "" ->
  let '(r, w') := pbs_defschreply c cmd id err txt extend w in
  r = PBSE_IVALREQ /\
  pbs_errno w' = PBSE_IVALREQ /\
  new_events w w' = [] /\
  count_calls writes_bytes (new_events w w') = 0%nat /\
  connection w' = connection w.
Proof.
  intros Hid.
  assert (Hne : null_or_empty id = true) by (destruct Hid; subst; reflexivity).
  unfold pbs_defschreply. rewrite Hne.
  cbn. unfold new_events. rewrite drop_all. auto.
Qed.

(** C8.  Once [pbs_client_thread_lock_connection(c)] has succeeded, every
    path of [pbs_defschreply] calls [pbs_client_thread_unlock_connection(c)]
    exactly once, after the lock and as its last call before returning; the
    lock is taken once.  A run that does not get the lock never unlocks. *)
Theorem defschreply_unlocks_once (c : nat) (cmd : Z) (id : option string)
    (err : Z) (txt extend : option string) (w : world) :
  let '(r, w') := pbs_defschreply c cmd id err txt extend w in
  let evs := new_events w w' in
  match after_lock c evs with
  | Some rest =>
      count_calls (is_lock_connection c) evs = 1%nat /\
      count_calls (is_unlock_connection c) evs = 1%nat /\
      count_calls (is_unlock_connection c) rest = 1%nat /\
      exists u, last rest = Some (C_unlock_connection c, u)
  | None => count_calls (is_unlock_connection c) evs = 0%nat
  end.
Proof.
  apply wp_elim. destruct w as [t pe e tmo port tr].
  run_defschreply.
  all: read_trace; read_tests.
  all: cbn; rewrite ?Nat.eqb_refl; cbn.
  all: unfold failed, nonzero; cbn [snd r_rc];
       repeat match goal with Hz : (_ =? 0) = false |- _ => rewrite Hz end;
       cbn; rewrite ?Nat.eqb_refl; cbn.
  all: try (repeat split; eauto; fail).
Qed.

(** C3, as the code has it.  Take a run of [pbs_defschreply] on a valid
    handle in which a DIS write call (an encoder or the flush) returned a
    nonzero code.  The slot is unlocked exactly once, by the last call of the
    run.  If that unlock succeeds, then
    - after a failed flush the function returns [PBSE_PROTOCOL] and the
      slot's error text is what it was before the call: no message is attached;
    - after a failed encoder the function has asked [strdup] for a copy of a
      [dis_emsg] entry; for the request header, the text flag, the text and
      the extension that entry is the one of the encoder's own DIS code.  If
      the copy was made it is the slot's error text and [PBSE_PROTOCOL] is
      returned; if not, the error text is null and [PBSE_SYSTEM] is returned. *)
Theorem defschreply_encode_or_flush_failure (c : nat) (cmd : Z) (id : option string)
    (err : Z) (txt extend : option string) (w : world) :
  (c < length (connection w))%nat ->
  let '(r, w') := pbs_defschreply c cmd id err txt extend w in
  let evs := new_events w w' in
  forall k a, In (k, a) evs -> writes_bytes k = true -> r_rc a <> 0 ->
    count_calls (is_unlock_connection c) evs = 1%nat /\
    exists u, last evs = Some (C_unlock_connection c, u) /\
      (r_rc u = 0 ->
       if is_wflush k then
         r = PBSE_PROTOCOL /\
         ch_errtxt (slot (connection w') c) = ch_errtxt (slot (connection w) c)
       else
         exists s m, In (C_strdup s, m) evs /\
           (keeps_code evs k = true -> s = dis_emsg (r_rc a)) /\
           if nonzero (r_rc m)
           then r = PBSE_PROTOCOL /\ ch_errtxt (slot (connection w') c) = Some s
           else r = PBSE_SYSTEM /\ ch_errtxt (slot (connection w') c) = None).
Proof.
  intros Hc. apply wp_elim. destruct w as [t pe e tmo port tr].
  cbn [connection] in Hc.
  run_defschreply.
  all: read_trace; read_tests.
  all: intros k a Hin Hw Hrc; cbn [In] in Hin.
  all: repeat (destruct Hin as [Hin|Hin]); try done; simplify_eq; try done.
  all: cbn [r_rc] in *; try done.
  all: (split; [cbn; rewrite ?Nat.eqb_refl; reflexivity
               | eexists; split; [reflexivity|]]).
  all: cbn [r_rc is_wflush]; intros Hu; subst; try done.
  all: try (eexists _, _; split;
            [cbn [In]; repeat first [left; reflexivity | right] | ]).
  all: try (split;
            [ try (intros _; reflexivity)
            | unfold nonzero; cbn [r_rc];
              repeat match goal with Hz : (_ =? 0) = false |- _ => rewrite Hz end;
              cbn; rewrite ?slot_insert_eq by assumption; try done ]).
  all: cbn; done.
Qed.

End DefSchReply_facts.

Lemma defschreply_rejects_missing_id_witness :
  let '(r, w') := @pbs_defschreply (sample_headers 4 1024 255) all_ok
                    1 2 (Some "") 0 None None (fresh_world 4) in
  r = 15004 /\ pbs_errno w' = 15004 /\ new_events (fresh_world 4) w' = [] /\
  count_calls writes_bytes (new_events (fresh_world 4) w') = 0%nat /\
  connection w' = connection (fresh_world 4).
Proof.
  apply (@defschreply_rejects_missing_id (sample_headers 4 1024 255) all_ok
           1 2 (Some "") 0 None None (fresh_world 4)).
  right. reflexivity.
Defined.

Lemma defschreply_encode_or_flush_failure_witness :
  let w := fresh_world 4 in
  let '(r, w') := @pbs_defschreply (sample_headers 4 1024 255)
                    (failing is_ReqHdr (answer 7))
                    1 2 (Some "12.svr") 0 None None w in
  (1 < length (connection w))%nat /\
  In (C_encode_DIS_ReqHdr 0 75 "pbsuser", answer 7) (new_events w w') /\
  count_calls (is_unlock_connection 1) (new_events w w') = 1%nat /\
  r = 15031 /\
  ch_errtxt (slot (connection w') 1) = Some "Premature end of message".
Proof.
  assert (Hc : (1 < length (connection (fresh_world 4)))%nat) by (cbn; lia).
  pose proof (@defschreply_encode_or_flush_failure (sample_headers 4 1024 255)
                (failing is_ReqHdr (answer 7)) 1 2 (Some "12.svr") 0 None None
                (fresh_world 4) Hc) as T.
  cbv zeta.
  destruct (@pbs_defschreply (sample_headers 4 1024 255)
              (failing is_ReqHdr (answer 7)) 1 2 (Some "12.svr") 0 None None
              (fresh_world 4)) as [r w'] eqn:E.
  vm_compute in E. injection E as <- <-.
  assert (Hin : In (C_encode_DIS_ReqHdr 0 75 "pbsuser", answer 7)
                  (new_events (fresh_world 4)
                     (mk_world
                        [null_handle;
                         mk_handle 0 0 0 (Some "Premature end of message");
                         null_handle; null_handle] 15031 0 0 0
                        [(C_init_thread_context, answer 0);
                         (C_lock_connection 1, answer 0);
                         (C_DIS_tcp_setup 0, answer 0);
                         (C_encode_DIS_ReqHdr 0 75 "pbsuser", answer 7);
                         (C_strdup "Premature end of message", answer 1);
                         (C_unlock_connection 1, answer 0)])))
    by (vm_compute; tauto).
  destruct (T _ _ Hin eq_refl ltac:(discriminate)) as (Hcount & _).
  split; [exact Hc|]. split; [exact Hin|]. split; [exact Hcount|].
  split; reflexivity.
Defined.

(** C3, as the specification words it, fails on the code.
    (1) When the flush fails, no message is attached.
    (2) When the message cannot be copied, [PBSE_SYSTEM] is returned.
    (3) When [diswui] fails with code 7, the message attached is that of
        code 1, the value of the comparison. *)
Lemma defschreply_failure_reporting_counterexample :
  let H := sample_headers 4 1024 255 in
  let w := fresh_world 4 in
  (let '(r, w') := @pbs_defschreply H (failing is_wflush (answer (-1)))
                     1 2 (Some "12.svr") 0 None None w in
   r = 15031 /\ ch_errtxt (slot (connection w') 1) = None /\
   ~ @reports_codec_error H 1 w r w') /\
  (let '(r, w') := @pbs_defschreply H header_fails_no_memory
                     1 2 (Some "12.svr") 0 None None w in
   r = 15010 /\ ~ @reports_codec_error H 1 w r w') /\
  (let '(r, w') := @pbs_defschreply H (failing is_diswui (answer 7))
                     1 2 (Some "12.svr") 0 None None w in
   ch_errtxt (slot (connection w') 1) = Some (sample_emsg 1) /\
   ~ @reports_codec_error H 1 w r w').
Proof.
  cbv zeta. split; [|split].
  - destruct (@pbs_defschreply (sample_headers 4 1024 255)
                (failing is_wflush (answer (-1))) 1 2 (Some "12.svr") 0 None None
                (fresh_world 4)) as [r w'] eqn:E.
    vm_compute in E. injection E as <- <-.
    split; [reflexivity|]. split; [reflexivity|]. intros Hc.
    destruct (Hc (C_DIS_tcp_wflush 0) (answer (-1))) as [Hm _];
      [vm_compute; tauto | reflexivity | discriminate | discriminate Hm].
  - destruct (@pbs_defschreply (sample_headers 4 1024 255)
                header_fails_no_memory 1 2 (Some "12.svr") 0 None None
                (fresh_world 4)) as [r w'] eqn:E.
    vm_compute in E. injection E as <- <-.
    split; [reflexivity|]. intros Hc.
    destruct (Hc (C_encode_DIS_ReqHdr 0 75 "pbsuser") (answer 7)) as [Hm _];
      [vm_compute; tauto | reflexivity | discriminate | discriminate Hm].
  - destruct (@pbs_defschreply (sample_headers 4 1024 255)
                (failing is_diswui (answer 7)) 1 2 (Some "12.svr") 0 None None
                (fresh_world 4)) as [r w'] eqn:E.
    vm_compute in E. injection E as <- <-.
    split; [reflexivity|]. intros Hc.
    destruct (Hc (C_diswui 0 2) (answer 7)) as [Hm _];
      [vm_compute; tauto | reflexivity | discriminate | discriminate Hm].
Qed.

(** ** The connector *)

Example find_slot_skips_slot_0 :
  @find_slot (sample_headers 4 1024 255) (empty_table 4) = 1%nat.
Proof. reflexivity. Qed.

Example find_slot_first_free :
  @find_slot (sample_headers 4 1024 255)
    [null_handle; mk_handle 1 0 3 None; null_handle; null_handle] = 2%nat.
Proof. reflexivity. Qed.

Example find_slot_full :
  @find_slot (sample_headers 3 1024 255)
    [null_handle; mk_handle 1 0 3 None; mk_handle 1 0 4 None] = 3%nat.
Proof. reflexivity. Qed.

Example first_inet_skips_ipv6 : first_inet [loopback6; loopback] = Some loopback.
Proof. reflexivity. Qed.

Example connect_localhost :
  let '(r, w') := @pbs_connect2mom (sample_headers 4 1024 255) all_ok None
                    (fresh_world 4) in
  r = 1 /\ slot (connection w') 1 = mk_handle 1 0 3 None /\
  pbs_tcp_timeout w' = 10800.
Proof. vm_compute. done. Qed.

Example connect_refused_returns_errno :
  let '(r, w') := @pbs_connect2mom (sample_headers 4 1024 255) connect_refused
                    (Some "node1") (fresh_world 4) in
  r = -1 /\ pbs_errno w' = 111 /\ connection w' = empty_table 4.
Proof. vm_compute. done. Qed.

Section Connector_facts.
Context `{Headers} `{Collaborators}.

(** The scan stops at the first index, from [conn] on, whose flag is clear,
    or at [conn + n] when there is none. *)
Lemma scan_slots_spec t n : forall conn,
  let r := scan_slots t conn n in
  (conn <= r <= conn + n)%nat /\
  (forall j, (conn <= j < r)%nat -> nonzero (ch_inuse (slot t j)) = true) /\
  ((r < conn + n)%nat -> nonzero (ch_inuse (slot t r)) = false).
Proof.
  induction n as [|n IH]; intros conn; cbn -[nonzero].
  - repeat split; intros; lia.
  - destruct (nonzero (ch_inuse (slot t conn))) eqn:E.
    + destruct (IH (S conn)) as (Hr & Hin & Hfree). repeat split; try lia.
      * intros j Hj. destruct (decide (j = conn)) as [->|Hne]; [done|].
        apply Hin. lia.
      * intros Hlt. apply Hfree. lia.
    + repeat split; intros; try lia; done.
Qed.

Ltac run_connect :=
  unfold pbs_connect2mom, err, release_slot; unfold_calls;
  repeat (wp_step;
          repeat match goal with
          | Hz : (_ <=? _)%nat = false |- _ => apply Nat.leb_gt in Hz
          | Hz : (_ <=? _)%nat = true |- _ => apply Nat.leb_le in Hz
          end;
          rewrite ?slot_insert_eq by (rewrite ?length_insert; lia); wp_simpl).

(** C2.  When [pbs_connect2mom] has selected a free slot and then fails in
    address resolution (the resolver fails or lists no IPv4 address), in
    [socket], in [connect] or in the set-up of the connection context, it
    returns -1 and the table has as many free slots after the call as
    before it. *)
Theorem connect_failure_keeps_free_slots (momhost : option string) (w : world) :
  length (connection w) = NCONNECTS ->
  let '(r, w') := pbs_connect2mom momhost w in
  failed_after_selection (new_events w w') = true ->
  r = -1 /\ free_slots (connection w') = free_slots (connection w).
Proof.
  intros Hlen. apply wp_elim. destruct w as [t pe e tmo port tr].
  cbn [connection] in Hlen.
  pose proof (scan_slots_spec t (NCONNECTS - 1) 1) as Hscan. cbv zeta in Hscan.
  fold (find_slot t) in Hscan.
  run_connect.
  all: read_trace; read_tests.
  all: cbn -[nonzero]; use_tests; cbn -[nonzero]; intros Hf; try done.
  all: split; [done|].
  all: rewrite !list_insert_insert_eq.
  all: destruct Hscan as (_ & _ & Hfree).
  all: match goal with |- free_slots (<[?i := ?h]> ?tt) = _ =>
         pose proof (free_slots_insert tt i h _
                       (slot_lookup tt i ltac:(lia))) as Hins
       end.
  all: rewrite Hfree in Hins by lia; cbn in Hins; lia.
Qed.


(** C6, as the code has it.  [pbs_connect2mom] resolves the host if and
    only if it got the table lock and found a free slot.  It then asks the
    resolver once, for the host it was given (["localhost"] for a null or
    empty name), with hints of unspecified family, as its fourth call.
    If the resolver fails or lists no IPv4 address, the only call that
    follows is the unlock of the table, -1 is returned, and [pbs_errno] holds
    [PBSE_BADHOST] unless that unlock failed and left its own code.
    If the resolver succeeds, the first listed entry of family [AF_INET] is
    the one selected: [socket(AF_INET, SOCK_STREAM, 0)] is the next call, and
    when it yields a descriptor the call after it connects that descriptor
    to the address of that entry, with the MoM service port. *)
Theorem connect_resolves_ipv4_first (momhost : option string) (w : world) :
  let '(r, w') := pbs_connect2mom momhost w in
  let evs := new_events w w' in
  let node :=
    match momhost with Some (String c s) => String c s | _ => "localhost" end in
  (called is_getaddrinfo evs = true <->
     lock_acquired evs = true /\ (find_slot (connection w) < NCONNECTS)%nat) /\
  (lock_acquired evs = true -> (find_slot (connection w) < NCONNECTS)%nat ->
   exists i l k a rest,
     evs = [(C_init_thread_context, i); (C_loadconf 0, l); (C_lock_conntable, k);
            (C_getaddrinfo node hints, a)] ++ rest /\
     ai_family hints = AF_UNSPEC /\
     called is_getaddrinfo rest = false /\
     (r_rc a <> 0 \/ Forall (fun x => ai_family x <> AF_INET) (r_addrs a) ->
        exists u, rest = [(C_unlock_conntable, u)] /\ r = -1 /\
          pbs_errno w' = if nonzero (r_rc u) then r_errno u else PBSE_BADHOST) /\
     (forall pre aip post,
        r_rc a = 0 -> r_addrs a = pre ++ aip :: post ->
        Forall (fun x => ai_family x <> AF_INET) pre -> ai_family aip = AF_INET ->
        exists s rest',
          rest = (C_socket AF_INET SOCK_STREAM 0, s) :: rest' /\
          (0 <= r_rc s ->
           exists x rest'',
             rest' = (C_connect (r_rc s)
                        (mk_sockaddr (sin_addr (ai_addr aip))
                                     (htons (mom_service_port w'))), x) :: rest''))).
Proof.
  rewrite <- default_host_named.
  apply wp_elim. destruct w as [t pe e tmo port tr]. cbn [connection].
  run_connect.
  all: read_trace; cbn [mom_service_port pbs_errno].
  all: unfold lock_acquired, failed; cbn -[nonzero]; use_tests; cbn -[nonzero].
  all: (split; [split; [first [done | intros _; split; [done|lia]]
                       | intros [? ?]; first [done | lia]]|]).
  all: intros Hl Hfs; try done; try lia.
  all: eexists _, _, _, _, _; (split; [reflexivity|]); (split; [done|]);
       (split; [done|]); cbn [r_rc r_addrs r_errno]; split.
  all: try (intros [Hrc|Hall];
            [ try (match goal with Hz : nonzero ?z = false |- _ =>
                     apply nonzero_false in Hz; done end)
            | try (apply first_inet_none in Hall; congruence) ]).
  all: try (eexists; split; [reflexivity|]; split; [done|]; cbn [r_rc r_errno];
            by use_tests).
  all: intros pre aip post Hrc Had Hpre Ha.
  all: try (match goal with Hz : nonzero _ = true |- _ =>
              rewrite Hrc in Hz; done end).
  all: rewrite Had, (first_inet_app pre aip post Hpre Ha) in *; simplify_eq.
  all: eexists _, _; (split; [reflexivity|]); cbn [r_rc]; intros Hsd.
  all: try (match goal with Hz : (_ <? 0) = true |- _ =>
              apply Z.ltb_lt in Hz; lia end).
  all: eexists _, _; reflexivity.
Qed.

(** *** Slot accounting *)







End Connector_facts.

Lemma connect_failure_keeps_free_slots_witness :
  let w := fresh_world 4 in
  let '(r, w') := @pbs_connect2mom (sample_headers 4 1024 255) connect_refused None w in
  length (connection w) = 4%nat /\
  failed_after_selection (new_events w w') = true /\
  r = -1 /\ free_slots (connection w') = free_slots (connection w).
Proof.
  pose proof (@connect_failure_keeps_free_slots (sample_headers 4 1024 255)
                connect_refused None (fresh_world 4) eq_refl) as T.
  cbv zeta.
  destruct (@pbs_connect2mom (sample_headers 4 1024 255) connect_refused None
              (fresh_world 4)) as [r w'] eqn:E.
  assert (Hf : failed_after_selection (new_events (fresh_world 4) w') = true).
  { vm_compute in E. injection E as <- <-. reflexivity. }
  split; [reflexivity|]. split; [exact Hf|]. exact (T Hf).
Defined.


(** C6, as the specification words it, fails on the code.  (1) In a table
    whose slots from 1 on are all in use the host is not resolved at all, and
    the call fails with [PBSE_NOCONNECTS], although the resolver has no IPv4
    address for the host.  (2) When the resolver fails, [pbs_errno] at the
    return is what the unlock at [err:] left in it, if that unlock failed
    (the thread layer sets [pbs_errno], as the comment on
    [pbs_client_thread_init_connect_context] in [pbs_connect2mom] says). *)
Lemma connect_resolution_counterexample :
  let H := sample_headers 2 1024 255 in
  (let w := mk_world [null_handle; mk_handle 1 0 5 None] 0 0 0 0 [] in
   let '(r, w') := @pbs_connect2mom H ipv6_only (Some "node1") w in
   r_addrs (ipv6_only w (C_getaddrinfo "node1" hints)) = [loopback6] /\
   r = -1 /\
   called is_getaddrinfo (new_events w w') = false /\
   pbs_errno w' = @PBSE_NOCONNECTS H /\
   pbs_errno w' <> @PBSE_BADHOST H) /\
  (let w := fresh_world 2 in
   let '(r, w') := @pbs_connect2mom H resolver_and_unlock_fail (Some "node1") w in
   r = -1 /\
   map fst (new_events w w') =
     [ C_init_thread_context; C_loadconf 0; C_lock_conntable;
       C_getaddrinfo "node1" hints; C_unlock_conntable ] /\
   pbs_errno w' = 15010 /\
   pbs_errno w' <> @PBSE_BADHOST H).
Proof. vm_compute. repeat split; discriminate. Qed.

Lemma connect_resolves_ipv4_first_witness :
  let w := fresh_world 4 in
  let '(r, w') := @pbs_connect2mom (sample_headers 4 1024 255) all_ok
                    (Some "node1") w in
  let evs := new_events w w' in
  lock_acquired evs = true /\
  (@find_slot (sample_headers 4 1024 255) (connection w) < 4)%nat /\
  exists i l k a s x rest,
    evs = [(C_init_thread_context, i); (C_loadconf 0, l); (C_lock_conntable, k);
           (C_getaddrinfo "node1" hints, a);
           (C_socket AF_INET SOCK_STREAM 0, s);
           (C_connect (r_rc s) (mk_sockaddr 2130706433 39482), x)] ++ rest /\
    r_addrs a = [loopback6; loopback].
Proof.
  pose proof (@connect_resolves_ipv4_first (sample_headers 4 1024 255) all_ok
                (Some "node1") (fresh_world 4)) as T.
  cbv zeta.
  destruct (@pbs_connect2mom (sample_headers 4 1024 255) all_ok (Some "node1")
              (fresh_world 4)) as [r w'] eqn:E.
  vm_compute in E. injection E as <- <-.
  assert (Hs : (@find_slot (sample_headers 4 1024 255)
                  (connection (fresh_world 4)) < 4)%nat) by (vm_compute; lia).
  destruct T as [_ T].
  destruct (T eq_refl Hs) as (i & l & k & a & rest & Hevs & _ & _ & _ & Hsel).
  assert (Ha : a = mk_response 0 0 0 [loopback6; loopback] None).
  { vm_compute in Hevs. by simplify_eq. }
  destruct (Hsel [loopback6] loopback [] ltac:(by rewrite Ha) ltac:(by rewrite Ha)
              ltac:(constructor; [discriminate|constructor]) eq_refl)
    as (s & rest' & Hrest & Hconn).
  assert (Hsd : s = mk_response 3 0 0 [] None).
  { rewrite Hrest in Hevs. vm_compute in Hevs. by simplify_eq. }
  destruct (Hconn ltac:(rewrite Hsd; cbn; lia)) as (x & rest'' & Hrest').
  split; [reflexivity|]. split; [exact Hs|].
  exists i, l, k, a, s, x, rest''. split; [|by rewrite Ha].
  rewrite Hevs, Hrest, Hrest'. reflexivity.
Defined.



(** ** Job credentials *)

Example decode_JobCred_payload :
  decode_DIS_JobCred (@spec_disrui sample_wire) (@spec_disrcs sample_wire)
    5 (mk_jobcred 0 0 None)
    [Byte.x00; Byte.x00; Byte.x00; Byte.x02;
     Byte.x00; Byte.x00; Byte.x00; Byte.x03; Byte.x41; Byte.x42; Byte.x43;
     Byte.xff] =
  (DIS_SUCCESS, mk_jobcred 2 3 (Some [Byte.x41; Byte.x42; Byte.x43]), [Byte.xff]).
Proof. reflexivity. Qed.

Example decode_JobCred_short_payload :
  decode_DIS_JobCred (@spec_disrui sample_wire) (@spec_disrcs sample_wire)
    5 (mk_jobcred 0 0 None)
    [Byte.x00; Byte.x00; Byte.x00; Byte.x02;
     Byte.x00; Byte.x00; Byte.x00; Byte.x03; Byte.x41] =
  (9, mk_jobcred 2 0 None, [Byte.x41]).
Proof. reflexivity. Qed.

(** A type of 2^31 or more does not fit the [int] it is stored in. *)
Example decode_JobCred_type_wraps :
  decode_DIS_JobCred (@spec_disrui sample_wire) (@spec_disrcs sample_wire)
    5 (mk_jobcred 0 0 None)
    [Byte.xff; Byte.xff; Byte.xff; Byte.xff;
     Byte.x00; Byte.x00; Byte.x00; Byte.x01; Byte.x41] =
  (DIS_SUCCESS, mk_jobcred (-1) 1 (Some [Byte.x41]), []).
Proof. reflexivity. Qed.

(** C9.  [decode_DIS_JobCred] clears [rq_data] before it reads anything:
    whatever the readers are, when reading the credential type fails the
    function returns that nonzero code with [rq_data] null, and nothing
    further has been read. *)
Theorem decode_JobCred_type_failure {dis_state : Type}
    (disrui : Z -> dis_state -> (Z * Z) * dis_state)
    (disrcs : Z -> dis_state -> (option (list Byte.byte) * Z * Z) * dis_state)
    (sock : Z) (preq : rq_jobcred) (st st1 : dis_state) (v rc : Z) :
  disrui sock st = ((v, rc), st1) ->
  rc <> 0 ->
  let '(ret, preq', st') := decode_DIS_JobCred disrui disrcs sock preq st in
  ret = rc /\ ret <> 0 /\ rq_data preq' = None /\ st' = st1.
Proof.
  intros Hr Hrc. unfold decode_DIS_JobCred. rewrite Hr.
  replace (nonzero rc) with true
    by (symmetry; unfold nonzero; by apply negb_true_iff, Z.eqb_neq).
  done.
Qed.

Lemma decode_JobCred_type_failure_witness :
  let '(ret, preq', st') :=
    decode_DIS_JobCred (@spec_disrui sample_wire) (@spec_disrcs sample_wire)
      5 (mk_jobcred 1 3 (Some [Byte.x41; Byte.x42; Byte.x43])) [Byte.x00; Byte.x01] in
  ret = 7 /\ ret <> 0 /\ rq_data preq' = None /\ st' = [Byte.x00; Byte.x01].
Proof.
  apply (decode_JobCred_type_failure (@spec_disrui sample_wire)
           (@spec_disrcs sample_wire) 5
           (mk_jobcred 1 3 (Some [Byte.x41; Byte.x42; Byte.x43]))
           [Byte.x00; Byte.x01] [Byte.x00; Byte.x01] 0 7).
  - reflexivity.
  - discriminate.
Defined.

Section Codec_facts.
Context `{WireFormat}.

(** C7.  Over the codec of the specification, [decode_DIS_JobCred] reads
    the credential type and then one counted string from what follows it, and
    nothing else: its result is the result of that second read, and the type
    it stores is the unsigned integer read, as an [int].  When the counted
    string declares a length of 0 the decode succeeds, the payload is an
    empty buffer (not the null pointer) of size 0, and the stream is left
    right after the length prefix. *)
Theorem decode_JobCred_zero_length (sock : Z) (preq : rq_jobcred)
    (st st1 : list Byte.byte) (ty : Z) :
  read_uint st = ((ty, DIS_SUCCESS), st1) ->
  (forall d n rc st2,
     read_counted_string st1 = ((d, n, rc), st2) ->
     decode_DIS_JobCred spec_disrui spec_disrcs sock preq st =
       (rc, mk_jobcred (to_int ty) n d, st2)) /\
  (forall st2,
     read_uint st1 = ((0, DIS_SUCCESS), st2) ->
     decode_DIS_JobCred spec_disrui spec_disrcs sock preq st =
       (DIS_SUCCESS, mk_jobcred (to_int ty) 0 (Some []), st2)).
Proof.
  intros Hty.
  assert (Hseq : forall d n rc st2,
     read_counted_string st1 = ((d, n, rc), st2) ->
     decode_DIS_JobCred spec_disrui spec_disrcs sock preq st =
       (rc, mk_jobcred (to_int ty) n d, st2)).
  { intros d n rc st2 Hcs. unfold decode_DIS_JobCred, spec_disrui, spec_disrcs.
    rewrite Hty. change (nonzero DIS_SUCCESS) with false. cbv iota.
    by rewrite Hcs. }
  split; [exact Hseq|].
  intros st2 Hlen. apply Hseq. unfold read_counted_string. rewrite Hlen.
  change (nonzero DIS_SUCCESS) with false. cbv iota.
  replace (Z.of_nat max_count <? 0) with false by (symmetry; apply Z.ltb_ge; lia).
  replace (Z.of_nat (length st2) <? 0) with false
    by (symmetry; apply Z.ltb_ge; lia).
  cbn [orb]. change (Z.to_nat 0) with 0%nat. by rewrite take_0, drop_0.
Qed.

End Codec_facts.

Lemma decode_JobCred_zero_length_witness :
  let st := [Byte.x00; Byte.x00; Byte.x00; Byte.x02;
             Byte.x00; Byte.x00; Byte.x00; Byte.x00; Byte.x2a] in
  @read_uint sample_wire st =
    ((2, DIS_SUCCESS), [Byte.x00; Byte.x00; Byte.x00; Byte.x00; Byte.x2a]) /\
  decode_DIS_JobCred (@spec_disrui sample_wire) (@spec_disrcs sample_wire)
    5 (mk_jobcred 0 0 None) st =
    (DIS_SUCCESS, mk_jobcred 2 0 (Some []), [Byte.x2a]).
Proof.
  split; [reflexivity|].
  apply (proj2 (@decode_JobCred_zero_length sample_wire 5 (mk_jobcred 0 0 None)
                  [Byte.x00; Byte.x00; Byte.x00; Byte.x02;
                   Byte.x00; Byte.x00; Byte.x00; Byte.x00; Byte.x2a]
                  [Byte.x00; Byte.x00; Byte.x00; Byte.x00; Byte.x2a]
                  2 eq_refl)).
  reflexivity.
Defined.

(** ** Stage names *)

Lemma scan_part_Stopped p limit c : forall pos buf c' pos' buf',
  scan_part p limit c pos buf = Stopped c' pos' buf' ->
  exists pre, c = pre ++ c' /\ Forall (taken p) pre /\
    pos' = (pos + length pre)%nat /\ buf' = write_at pos pre buf /\
    (pre = [] \/ (pos' <= limit)%nat) /\ stops p c'.
Proof.
  induction c as [|x c IH]; intros pos buf c' pos' buf' Hs; cbn in Hs.
  - simplify_eq. exists []. rewrite Nat.add_0_r. repeat split; auto. by left.
  - destruct (Ascii.eqb x NUL) eqn:Ex.
    { simplify_eq. exists []. rewrite Nat.add_0_r. repeat split; auto.
      left. by apply Ascii.eqb_eq. }
    destruct (p x) eqn:Ep.
    + destruct (limit <=? pos)%nat eqn:El; [done|]. apply Nat.leb_gt in El.
      destruct (IH _ _ _ _ _ Hs) as (pre & -> & Hpre & -> & -> & Hle & Hst).
      exists (x :: pre). cbn [length app write_at].
      split; [done|]. split.
      { constructor; [|done]. split; [done|]. by apply Ascii.eqb_neq. }
      split; [lia|]. split; [done|]. split; [|done].
      right. destruct Hle as [->|Hle]; cbn [length] in *; lia.
    + simplify_eq. exists []. rewrite Nat.add_0_r. repeat split; auto. by right.
Qed.

Lemma scan_part_app p limit pre rest : forall pos buf,
  Forall (taken p) pre -> stops p rest -> (pos <= limit)%nat ->
  scan_part p limit (pre ++ rest) pos buf =
    if (pos + length pre <=? limit)%nat
    then Stopped rest (pos + length pre) (write_at pos pre buf)
    else Overflow (write_at pos (take (limit - pos) pre) buf).
Proof.
  induction pre as [|x pre IH]; intros pos buf Hpre Hst Hpos.
  - cbn [app length]. rewrite Nat.add_0_r.
    replace (pos <=? limit)%nat with true by (symmetry; by apply Nat.leb_le).
    cbn [write_at]. destruct rest as [|y rest]; [done|]. cbn [scan_part].
    destruct Hst as [Hy|Hy]; cbn [deref] in Hy.
    + subst y. by rewrite Ascii.eqb_refl.
    + rewrite Hy. by destruct (Ascii.eqb y NUL).
  - inversion Hpre as [|? ? [Hp Hx] Hpre']; subst. cbn [app scan_part length].
    apply Ascii.eqb_neq in Hx. rewrite Hx, Hp.
    destruct (limit <=? pos)%nat eqn:El.
    + apply Nat.leb_le in El.
      replace (pos + S (length pre) <=? limit)%nat with false
        by (symmetry; apply Nat.leb_gt; lia).
      replace (limit - pos)%nat with 0%nat by lia. done.
    + apply Nat.leb_gt in El. rewrite IH by (done || lia).
      replace (S pos + length pre)%nat with (pos + S (length pre))%nat by lia.
      replace (limit - pos)%nat with (S (limit - S pos)) by lia. done.
Qed.

Lemma write_at_app l : forall a b,
  (length l <= length b)%nat ->
  write_at (length a) l (a ++ b) = a ++ l ++ drop (length l) b.
Proof.
  induction l as [|x l IH]; intros a b Hl; [done|].
  destruct b as [|y b]; cbn [length] in Hl; [lia|].
  cbn [write_at]. rewrite insert_app_r_alt by lia.
  rewrite Nat.sub_diag. cbn [insert list_insert].
  change (a ++ x :: b) with (a ++ [x] ++ b). rewrite app_assoc.
  replace (S (length a)) with (length (a ++ [x])) by (rewrite length_app; cbn; lia).
  rewrite IH by lia. by rewrite <- app_assoc.
Qed.

Lemma c_str_app l b :
  Forall (fun x => x <> NUL) l -> c_str (l ++ NUL :: b) = l.
Proof.
  induction 1 as [|x l Hx Hl IH]; cbn.
  - done.
  - apply Ascii.eqb_neq in Hx. rewrite Hx. by rewrite IH.
Qed.

(** The array after the copy and the terminator, when it has room for both. *)
Lemma terminated_copy p l buf :
  Forall (taken p) l -> (length l < length buf)%nat ->
  let buf' := <[length l := NUL]> (write_at 0 l buf) in
  buf' !! length l = Some NUL /\ c_str buf' = l.
Proof.
  intros Hl Hlen.
  pose proof (write_at_app l [] buf ltac:(lia)) as Hw. cbn in Hw.
  assert (He : <[length l := NUL]> (write_at 0 l buf)
               = l ++ NUL :: drop (S (length l)) buf).
  { rewrite Hw.
    replace (length l) with (length l + 0)%nat at 1 by lia.
    rewrite insert_app_r.
    destruct (drop (length l) buf) as [|y d] eqn:Ed.
    { apply (f_equal length) in Ed. rewrite length_drop in Ed. cbn in Ed. lia. }
    cbn [insert list_insert].
    assert (d = drop (S (length l)) buf) as ->; [|done].
    rewrite <- Nat.add_1_r, <- drop_drop, Ed. done. }
  cbv zeta. rewrite He. split.
  - by rewrite list_lookup_middle.
  - apply c_str_app. eapply Forall_impl; [exact Hl|]. by intros x [_ Hx].
Qed.

Lemma skip_space_spec c :
  exists ws, c = ws ++ skip_space c /\ Forall (fun x => isspace x = true) ws /\
    isspace (deref (skip_space c)) = false.
Proof.
  induction c as [|x c (ws & Hc & Hws & Hd)].
  - exists []. by repeat split.
  - cbn [skip_space]. destruct (isspace x) eqn:Ex.
    + exists (x :: ws). repeat split; [by rewrite Hc at 1|by constructor|done].
    + exists []. by repeat split.
Qed.

Lemma skip_space_app ws c :
  Forall (fun x => isspace x = true) ws -> isspace (deref c) = false ->
  skip_space (ws ++ c) = c.
Proof.
  induction 1 as [|x ws Hx Hws IH]; intros Hc.
  - destruct c as [|y c]; [done|]. cbn in *. by rewrite Hc.
  - cbn. rewrite Hx. by apply IH.
Qed.

Lemma deref_cons c x : deref c = x -> x <> NUL -> c = x :: tail c.
Proof. destruct c; cbn; intros; by subst. Qed.

Example parse_stage_name_plain :
  @parse_stage_name (sample_headers 4 8 4) (chars " in.dat@n1:/d/in")
    (replicate 9 "#"%char) (replicate 5 "#"%char) (replicate 9 "#"%char) =
  (0, (chars "in.dat" ++ [NUL; "#"; "#"]%char,
       chars "n1" ++ [NUL; "#"; "#"]%char,
       chars "/d/in" ++ [NUL; "#"; "#"; "#"]%char)).
Proof. reflexivity. Qed.

Example parse_stage_name_without_host :
  fst (@parse_stage_name (sample_headers 4 8 4) (chars "in.dat:/d/in")
         (replicate 9 "#"%char) (replicate 5 "#"%char) (replicate 9 "#"%char)) = 1.
Proof. reflexivity. Qed.

Example parse_stage_name_empty_host :
  fst (@parse_stage_name (sample_headers 4 8 4) (chars "a@:/d")
         (replicate 9 "#"%char) (replicate 5 "#"%char) (replicate 9 "#"%char)) = 1.
Proof. reflexivity. Qed.

Example parse_stage_name_blank_in_host :
  fst (@parse_stage_name (sample_headers 4 8 4) (chars "a@n 1:/d")
         (replicate 9 "#"%char) (replicate 5 "#"%char) (replicate 9 "#"%char)) = 1.
Proof. reflexivity. Qed.

Example parse_stage_name_second_at :
  fst (@parse_stage_name (sample_headers 4 8 4) (chars "a@n1:/d@x")
         (replicate 9 "#"%char) (replicate 5 "#"%char) (replicate 9 "#"%char)) = 1.
Proof. reflexivity. Qed.

Example parse_stage_name_long_local :
  fst (@parse_stage_name (sample_headers 4 8 4) (chars "123456789@n1:/d")
         (replicate 9 "#"%char) (replicate 5 "#"%char) (replicate 9 "#"%char)) = 1.
Proof. reflexivity. Qed.

Section ParseStage_facts.
Context `{Headers}.

(** A successful parse has read the whole string as blanks, a local part,
    [@], a host part, [:] and a remote part, none of them cut short. *)
Lemma parse_stage_name_accepts pair local_name host_name remote_name :
  let '(rc, (l', h', r')) := parse_stage_name pair local_name host_name remote_name in
  (rc = 0 \/ rc = 1) /\
  (rc = 0 ->
     exists ws l h r rest,
       pair = ws ++ l ++ "@"%char :: h ++ ":"%char :: r ++ rest /\
       deref rest = NUL /\
       Forall (fun x => isspace x = true) ws /\
       Forall (taken ISNAMECHAR) l /\ Forall (taken ISNAMECHAR2) h /\
       Forall (taken ISNAMECHAR) r /\
       l <> [] /\ h <> [] /\ r <> [] /\
       (length l <= MAXPATHLEN)%nat /\ (length h <= PBS_MAXSERVERNAME)%nat /\
       (length r <= MAXPATHLEN)%nat /\
       l' = <[length l := NUL]> (write_at 0 l local_name) /\
       h' = <[length h := NUL]> (write_at 0 h host_name) /\
       r' = <[length r := NUL]> (write_at 0 r remote_name)).
Proof.
  unfold parse_stage_name.
  destruct (scan_part ISNAMECHAR MAXPATHLEN (skip_space pair) 0 local_name)
    as [b|c1 l_pos b1] eqn:E1; [split; [by right|done]|].
  destruct (l_pos =? 0)%nat eqn:El; [split; [by right|done]|].
  destruct (Ascii.eqb (deref c1) "@") eqn:Eat.
  2:{ cbn [andb].
      destruct (scan_part_Stopped _ _ _ _ _ _ _ _ E1)
        as (l & Hc & Hl & -> & -> & Hle & Hst).
      destruct (Ascii.eqb (deref c1) ":") eqn:Ecol.
      { apply Ascii.eqb_eq in Ecol.
        destruct Hst as [Hst|Hst]; rewrite Ecol in Hst; done. }
      cbn. split; [by right|done]. }
  destruct (scan_part_Stopped _ _ _ _ _ _ _ _ E1)
    as (l & Hc & Hl & -> & -> & Hle & _). cbn [Nat.add] in *.
  apply Ascii.eqb_eq in Eat. apply deref_cons in Eat; [|done].
  destruct (scan_part ISNAMECHAR2 PBS_MAXSERVERNAME (tail c1) 0 host_name)
    as [b|c2 h_pos b2] eqn:E2; [split; [by right|done]|].
  cbn [andb].
  destruct (h_pos =? 0)%nat eqn:Eh; [split; [by right|done]|].
  destruct (scan_part_Stopped _ _ _ _ _ _ _ _ E2)
    as (h & Hc2 & Hh & -> & -> & Hleh & _). cbn [Nat.add] in *.
  destruct (Ascii.eqb (deref c2) ":") eqn:Ecol.
  2:{ cbn. split; [by right|done]. }
  apply Ascii.eqb_eq in Ecol. apply deref_cons in Ecol; [|done].
  destruct (scan_part ISNAMECHAR MAXPATHLEN (tail c2) 0 remote_name)
    as [b|c3 r_pos b3] eqn:E3; [split; [by right|done]|].
  destruct (r_pos =? 0)%nat eqn:Er; [split; [by right|done]|].
  destruct (Ascii.eqb (deref c3) NUL) eqn:Enul; cbn [negb];
    [|split; [by right|done]].
  destruct (scan_part_Stopped _ _ _ _ _ _ _ _ E3)
    as (r & Hc3 & Hr & -> & -> & Hler & _). cbn [Nat.add] in *.
  split; [by left|]. intros _.
  destruct (skip_space_spec pair) as (ws & Hp & Hws & _).
  apply Nat.eqb_neq in El, Eh, Er. apply Ascii.eqb_eq in Enul.
  exists ws, l, h, r, c3.
  split. { rewrite Hp, Hc, Eat, Hc2, Ecol, Hc3. done. }
  repeat split; try done.
  all: try (intros ->; done).
  all: try (match goal with Hx : _ \/ _ |- _ => destruct Hx as [->|?]; done end).
Qed.

(** On a string of that shape the result depends on the lengths alone. *)
Lemma parse_stage_name_wellformed ws l h r ln hn rn :
  Forall (fun x => isspace x = true) ws ->
  l <> [] -> isspace (deref l) = false ->
  Forall (taken ISNAMECHAR) l -> Forall (taken ISNAMECHAR2) h ->
  Forall (taken ISNAMECHAR) r ->
  fst (parse_stage_name (ws ++ l ++ "@"%char :: h ++ ":"%char :: r) ln hn rn) =
    if (length l <=? MAXPATHLEN)%nat &&
       negb (length h =? 0)%nat && (length h <=? PBS_MAXSERVERNAME)%nat &&
       negb (length r =? 0)%nat && (length r <=? MAXPATHLEN)%nat
    then 0 else 1.
Proof.
  intros Hws Hl0 Hsp Hl Hh Hr. unfold parse_stage_name.
  rewrite skip_space_app; [|done|by destruct l].
  rewrite scan_part_app; [|done|by right|lia]. cbn [Nat.add].
  destruct (length l <=? MAXPATHLEN)%nat; [|done]. cbn [andb].
  replace (length l =? 0)%nat with false
    by (symmetry; apply Nat.eqb_neq; by destruct l).
  cbn [deref tail]. rewrite Ascii.eqb_refl.
  rewrite scan_part_app; [|done|by right|lia]. cbn [Nat.add andb].
  destruct (length h <=? PBS_MAXSERVERNAME)%nat;
    [|by rewrite andb_false_r].
  rewrite andb_true_r.
  destruct (length h =? 0)%nat; [done|]. cbn [negb deref tail].
  rewrite Ascii.eqb_refl.
  rewrite <- (app_nil_r r) at 1.
  rewrite scan_part_app; [|done|by left|lia]. cbn [Nat.add andb].
  destruct (length r <=? MAXPATHLEN)%nat; [|by rewrite andb_false_r].
  rewrite andb_true_r.
  destruct (length r =? 0)%nat; done.
Qed.

(** C10, as the code has it.  [parse_stage_name] returns 0 or 1.
    (1) When it returns 0, the string (up to its terminator) is blanks, a
        local part, [@], a host part, [:] and a remote part; the three parts
        are non-empty; the local and the remote part have at most
        [MAXPATHLEN] characters and the host part at most
        [PBS_MAXSERVERNAME]; and each output array that has room for its
        part and a terminator holds that part, whole, followed by the
        terminator.
    (2) On a string of that shape it returns 1 as soon as the local or the
        remote part has more than [MAXPATHLEN] characters or the host part
        more than [PBS_MAXSERVERNAME]; it returns 0 when the parts are
        non-empty, the local and the remote part have at most [MAXPATHLEN]
        characters and the host part fewer than [PBS_MAXSERVERNAME]. *)
Theorem parse_stage_name_limits (pair local_name host_name remote_name : list ascii) :
  let '(rc, (l', h', r')) := parse_stage_name pair local_name host_name remote_name in
  (rc = 0 \/ rc = 1) /\
  (rc = 0 ->
     exists ws l h r rest,
       pair = ws ++ l ++ "@"%char :: h ++ ":"%char :: r ++ rest /\
       deref rest = NUL /\
       Forall (fun x => isspace x = true) ws /\
       Forall (taken ISNAMECHAR) l /\ Forall (taken ISNAMECHAR2) h /\
       Forall (taken ISNAMECHAR) r /\
       l <> [] /\ h <> [] /\ r <> [] /\
       (length l <= MAXPATHLEN)%nat /\ (length h <= PBS_MAXSERVERNAME)%nat /\
       (length r <= MAXPATHLEN)%nat /\
       ((length l < length local_name)%nat ->
          l' !! length l = Some NUL /\ c_str l' = l) /\
       ((length h < length host_name)%nat ->
          h' !! length h = Some NUL /\ c_str h' = h) /\
       ((length r < length remote_name)%nat ->
          r' !! length r = Some NUL /\ c_str r' = r)) /\
  (forall ws l h r,
     pair = ws ++ l ++ "@"%char :: h ++ ":"%char :: r ->
     Forall (fun x => isspace x = true) ws ->
     l <> [] -> isspace (deref l) = false ->
     Forall (taken ISNAMECHAR) l -> Forall (taken ISNAMECHAR2) h ->
     Forall (taken ISNAMECHAR) r ->
     ((MAXPATHLEN < length l)%nat \/ (PBS_MAXSERVERNAME < length h)%nat \/
      (MAXPATHLEN < length r)%nat -> rc = 1) /\
     ((length l <= MAXPATHLEN)%nat ->
      h <> [] -> (length h < PBS_MAXSERVERNAME)%nat ->
      r <> [] -> (length r <= MAXPATHLEN)%nat -> rc = 0)).
Proof.
  pose proof (parse_stage_name_accepts pair local_name host_name remote_name) as Ha.
  pose proof (fun ws l h r => parse_stage_name_wellformed ws l h r
                local_name host_name remote_name) as Hw.
  destruct (parse_stage_name pair local_name host_name remote_name)
    as [rc [[l' h'] r']] eqn:E.
  destruct Ha as [Hrc Ha]. split; [done|]. split.
  - intros Hz.
    destruct (Ha Hz) as (ws & l & h & r & rest & Hp & Hrest & Hws & Hl & Hh & Hr
                         & Hl0 & Hh0 & Hr0 & Hll & Hlh & Hlr & -> & -> & ->).
    exists ws, l, h, r, rest.
    do 12 (split; [done|]).
    split; [|split]; intros Hroom; by eapply terminated_copy.
  - intros ws l h r -> Hws Hl0 Hsp Hl Hh Hr.
    specialize (Hw ws l h r Hws Hl0 Hsp Hl Hh Hr). rewrite E in Hw. cbn [fst] in Hw.
    split.
    + intros Hlong. rewrite Hw.
      destruct (length l <=? MAXPATHLEN)%nat eqn:E1; [|done].
      destruct (length h <=? PBS_MAXSERVERNAME)%nat eqn:E2;
        [|by rewrite andb_false_r].
      destruct (length r <=? MAXPATHLEN)%nat eqn:E3; [|by rewrite andb_false_r].
      apply Nat.leb_le in E1, E2, E3. lia.
    + intros H1 H2 H3 H4 H5. rewrite Hw.
      replace (length l <=? MAXPATHLEN)%nat with true
        by (symmetry; by apply Nat.leb_le).
      replace (length h <=? PBS_MAXSERVERNAME)%nat with true
        by (symmetry; apply Nat.leb_le; lia).
      replace (length r <=? MAXPATHLEN)%nat with true
        by (symmetry; by apply Nat.leb_le).
      replace (length h =? 0)%nat with false
        by (symmetry; apply Nat.eqb_neq; by destruct h).
      replace (length r =? 0)%nat with false
        by (symmetry; apply Nat.eqb_neq; by destruct r).
      done.
Qed.

End ParseStage_facts.

(** C10, as worded, fails on the code: with [MAXPATHLEN] = 1024 a local
    part of exactly 1024 characters is accepted and stored whole, and so is a
    remote part of exactly 1024 characters. *)
Lemma parse_stage_name_limit_counterexample :
  let H := sample_headers 4 1024 255 in
  let long := replicate 1024 "a"%char in
  let room := replicate 1025 "#"%char in
  (let '(rc, (l', _, _)) :=
     @parse_stage_name H (long ++ chars "@host:/tmp/f") room room room in
   length long = @MAXPATHLEN H /\ rc = 0 /\ c_str l' = long) /\
  (let '(rc, (_, _, r')) :=
     @parse_stage_name H (chars "f@host:" ++ long) room room room in
   length long = @MAXPATHLEN H /\ rc = 0 /\ c_str r' = long).
Proof. vm_compute. repeat split. Qed.

Lemma parse_stage_name_limits_witness :
  let H := sample_headers 4 4 3 in
  let room := replicate 8 "#"%char in
  (let '(rc, _) := @parse_stage_name H (chars "abcde@h:/r") room room room in
   rc = 1) /\
  (let '(rc, (l', h', r')) :=
     @parse_stage_name H (chars " abcd@hh:/r") room room room in
   rc = 0 /\ c_str l' = chars "abcd" /\ c_str h' = chars "hh" /\
   c_str r' = chars "/r").
Proof.
  cbv zeta. split.
  - pose proof (@parse_stage_name_limits (sample_headers 4 4 3)
                  (chars "abcde@h:/r") (replicate 8 "#"%char)
                  (replicate 8 "#"%char) (replicate 8 "#"%char)) as T.
    destruct (@parse_stage_name (sample_headers 4 4 3) (chars "abcde@h:/r")
                (replicate 8 "#"%char) (replicate 8 "#"%char)
                (replicate 8 "#"%char)) as [rc [[l' h'] r']].
    destruct T as (_ & _ & T).
    refine (proj1 (T [] (chars "abcde") (chars "h") (chars "/r")
                     eq_refl _ _ eq_refl _ _ _) _).
    + constructor.
    + discriminate.
    + repeat (constructor; [split; [reflexivity|discriminate]|]). constructor.
    + repeat (constructor; [split; [reflexivity|discriminate]|]). constructor.
    + repeat (constructor; [split; [reflexivity|discriminate]|]). constructor.
    + left. cbn. lia.
  - pose proof (@parse_stage_name_limits (sample_headers 4 4 3)
                  (chars " abcd@hh:/r") (replicate 8 "#"%char)
                  (replicate 8 "#"%char) (replicate 8 "#"%char)) as T.
    destruct (@parse_stage_name (sample_headers 4 4 3) (chars " abcd@hh:/r")
                (replicate 8 "#"%char) (replicate 8 "#"%char)
                (replicate 8 "#"%char)) as [rc [[l' h'] r']] eqn:E.
    destruct T as (_ & _ & T).
    assert (Hrc : rc = 0).
    { refine (proj2 (T [" "%char] (chars "abcd") (chars "hh") (chars "/r")
                       eq_refl _ _ eq_refl _ _ _) _ _ _ _ _).
      + repeat constructor.
      + discriminate.
      + repeat (constructor; [split; [reflexivity|discriminate]|]). constructor.
      + repeat (constructor; [split; [reflexivity|discriminate]|]). constructor.
      + repeat (constructor; [split; [reflexivity|discriminate]|]). constructor.
      + cbn. lia.
      + discriminate.
      + cbn. lia.
      + discriminate.
      + cbn. lia. }
    split; [exact Hrc|].
    vm_compute in E. injection E as _ <- <- <-. repeat split.
Defined.

(** * Further properties *)

(** ** The connector: what a call binds, frees and leaves alone *)

Ltac run_cnt2mom :=
  unfold cnt2mom, pbs_connect2mom, err, release_slot; unfold_calls;
  repeat (wp_step;
          repeat match goal with
          | Hz : (_ <=? _)%nat = false |- _ => apply Nat.leb_gt in Hz
          | Hz : (_ <=? _)%nat = true |- _ => apply Nat.leb_le in Hz
          end;
          rewrite ?slot_insert_eq by (rewrite ?length_insert; lia); wp_simpl).

Section Connector_more.
Context `{Headers} `{Collaborators}.

Lemma find_slot_ge_1 t : (1 <= find_slot t)%nat.
Proof.
  destruct (scan_slots_spec t (NCONNECTS - 1) 1) as (Hr & _). fold (find_slot t) in Hr. lia.
Qed.

(** X1.  A call of [cnt2mom] that does not return -1 returns the index
    [conn] of the first free slot from index 1 on, which is at least 1 and
    below [NCONNECTS].  That slot, free before, now reads in use, error
    number 0, no error text, and holds the descriptor [socket] returned (not
    negative, handed to [DIS_tcp_setup] once and never closed); the table has
    one free slot less; [pbs_tcp_timeout] is [PBS_DIS_TCP_TIMEOUT_VLONG]; and
    the last call of the run is the unlock of the table, which succeeded. *)
Theorem cnt2mom_binds_slot (momhost : option string) (w : world) :
  length (connection w) = NCONNECTS ->
  let '(r, w') := cnt2mom momhost w in
  let evs := new_events w w' in
  let conn := find_slot (connection w) in
  r <> -1 ->
  r = Z.of_nat conn /\ (1 <= conn < NCONNECTS)%nat /\
  nonzero (ch_inuse (slot (connection w) conn)) = false /\
  exists sd a u,
    In (C_socket AF_INET SOCK_STREAM 0, a) evs /\ r_rc a = sd /\ 0 <= sd /\
    connection w' = <[conn := mk_handle 1 0 sd None]> (connection w) /\
    (free_slots (connection w') + 1 = free_slots (connection w))%nat /\
    pbs_tcp_timeout w' = PBS_DIS_TCP_TIMEOUT_VLONG /\
    count_calls (is_tcp_setup sd) evs = 1%nat /\
    count_calls (is_close sd) evs = 0%nat /\
    last evs = Some (C_unlock_conntable, u) /\ r_rc u = 0.
Proof.
  intros Hlen. apply wp_elim. destruct w as [t pe e tmo port tr].
  cbn [connection] in *.
  pose proof (scan_slots_spec t (NCONNECTS - 1) 1) as Hscan. cbv zeta in Hscan.
  fold (find_slot t) in Hscan.
  run_cnt2mom.
  all: read_trace; read_tests; intros Hr; try done.
  destruct Hscan as (Hge & _ & Hfree).
  split; [done|]. split; [lia|]. split; [apply Hfree; lia|].
  eexists _, _, _. split; [cbn [In]; repeat first [left; reflexivity | right]|].
  cbn [r_rc]. split; [reflexivity|]. split; [lia|].
  rewrite !list_insert_insert_eq. split; [reflexivity|].
  split.
  { match goal with |- (free_slots (<[?i := ?h]> ?tt) + 1 = _)%nat =>
         pose proof (free_slots_insert tt i h _
                       (slot_lookup tt i ltac:(lia))) as Hins
       end.
    rewrite Hfree in Hins by lia. cbn in Hins. lia. }
  split; [done|]. cbn. rewrite Z.eqb_refl. done.
Qed.

(** X2.  Whatever happens, [cnt2mom] changes no slot of the table but the
    one the scan selected: the table keeps its length, every other index
    reads as before, slot 0 in particular, and when the scan finds no free
    slot the table is left as it was. *)
Theorem cnt2mom_frame (momhost : option string) (w : world) :
  let '(r, w') := cnt2mom momhost w in
  length (connection w') = length (connection w) /\
  (forall j, j <> find_slot (connection w) -> connection w' !! j = connection w !! j) /\
  connection w' !! 0%nat = connection w !! 0%nat /\
  ((NCONNECTS <= find_slot (connection w))%nat -> connection w' = connection w).
Proof.
  apply wp_elim. destruct w as [t pe e tmo port tr]. cbn [connection].
  pose proof (find_slot_ge_1 t) as Hge.
  run_cnt2mom.
  all: rewrite ?length_insert.
  all: repeat split; try done; try lia.
  all: try (intros j Hj; by rewrite ?list_lookup_insert_ne by done).
  all: by rewrite ?list_lookup_insert_ne by lia.
Qed.

(** X3.  [cnt2mom] calls [socket] at most once, and a descriptor it
    obtained is accounted for at the return: either it has been closed,
    exactly once, the call returns -1 and the selected slot is free; or it
    has not been closed and the selected slot holds it, marked in use. *)
Theorem cnt2mom_descriptor_accounting (momhost : option string) (w : world) :
  length (connection w) = NCONNECTS ->
  let '(r, w') := cnt2mom momhost w in
  let evs := new_events w w' in
  let conn := find_slot (connection w) in
  (count_calls is_socket evs <= 1)%nat /\
  forall d t p a, In (C_socket d t p, a) evs -> 0 <= r_rc a ->
    let sd := r_rc a in
    if called (is_close sd) evs
    then count_calls (is_close sd) evs = 1%nat /\ r = -1 /\
         nonzero (ch_inuse (slot (connection w') conn)) = false
    else slot (connection w') conn = mk_handle 1 0 sd None.
Proof.
  intros Hlen. apply wp_elim. destruct w as [t pe e tmo port tr].
  cbn [connection] in *.
  pose proof (scan_slots_spec t (NCONNECTS - 1) 1) as Hscan. cbv zeta in Hscan.
  fold (find_slot t) in Hscan. destruct Hscan as (Hge & _ & Hfree).
  run_cnt2mom.
  all: read_trace; read_tests.
  all: (split; [cbn; lia|]).
  all: intros d ty p ans Hin Hsd; cbn [In] in Hin.
  all: repeat (destruct Hin as [Hin|Hin]); try done; simplify_eq.
  all: cbn [r_rc] in *; try lia.
  all: cbn; rewrite ?Z.eqb_refl; cbn.
  all: rewrite ?slot_insert_eq by (rewrite ?length_insert; lia); try done.
  all: repeat split; try done; apply Hfree; lia.
Qed.

(** X4.  [cnt2mom] calls [freeaddrinfo] exactly as often as [connect],
    at most once.  The list a successful [getaddrinfo] returned is therefore
    not released on the two paths that leave before [connect]: when the list
    has no IPv4 entry, and when [socket] fails. *)
Theorem cnt2mom_addrinfo_release (momhost : option string) (w : world) :
  let '(r, w') := cnt2mom momhost w in
  let evs := new_events w w' in
  count_calls is_freeaddrinfo evs = count_calls is_connect evs /\
  (count_calls is_connect evs <= 1)%nat /\
  (forall node h a, In (C_getaddrinfo node h, a) evs ->
     r_rc a = 0 -> first_inet (r_addrs a) = None ->
     count_calls is_freeaddrinfo evs = 0%nat) /\
  (forall d t p a, In (C_socket d t p, a) evs ->
     count_calls is_freeaddrinfo evs = if r_rc a <? 0 then 0%nat else 1%nat).
Proof.
  apply wp_elim. destruct w as [t pe e tmo port tr].
  run_cnt2mom.
  all: read_trace.
  all: (split; [reflexivity|]); (split; [cbn; lia|]).
  all: split; [intros node h ans Hin Hrc Hno | intros d ty p ans Hin]; cbn [In] in Hin.
  all: repeat (destruct Hin as [Hin|Hin]); try done; simplify_eq; try done.
  all: cbn [r_rc r_addrs] in *; try congruence.
  all: use_tests; reflexivity.
Qed.

(** X5.  When the connection context has been set up and the unlock of
    the table that follows fails, [cnt2mom] returns -1 although the binding
    is complete: the selected slot stays marked in use with the open
    descriptor, which is not closed, and the table has one free slot less
    than before the call. *)
Theorem cnt2mom_unlock_failure_keeps_slot (momhost : option string) (w : world) :
  length (connection w) = NCONNECTS ->
  let '(r, w') := cnt2mom momhost w in
  let evs := new_events w w' in
  let conn := find_slot (connection w) in
  forall a u, In (C_init_connect_context conn, a) evs -> r_rc a = 0 ->
    last evs = Some (C_unlock_conntable, u) -> r_rc u <> 0 ->
    r = -1 /\
    (exists sd, slot (connection w') conn = mk_handle 1 0 sd None /\
       count_calls (is_close sd) evs = 0%nat) /\
    (free_slots (connection w') + 1 = free_slots (connection w))%nat.
Proof.
  intros Hlen. apply wp_elim. destruct w as [t pe e tmo port tr].
  cbn [connection] in *.
  pose proof (scan_slots_spec t (NCONNECTS - 1) 1) as Hscan. cbv zeta in Hscan.
  fold (find_slot t) in Hscan. destruct Hscan as (Hge & _ & Hfree).
  run_cnt2mom.
  all: read_trace; read_tests.
  all: intros ans u Hin Hrc Hlast Hu; cbn [In] in Hin.
  all: repeat (destruct Hin as [Hin|Hin]); try done; simplify_eq.
  all: cbn [r_rc] in *; try done.
  all: repeat match goal with Hz : (_ =? 0) = false |- _ => apply Z.eqb_neq in Hz end.
  all: try lia.
  all: cbn [last] in Hlast; simplify_eq; cbn [r_rc] in *; try lia.
  split; [done|]. rewrite !list_insert_insert_eq. split.
  - eexists. rewrite ?slot_insert_eq by lia. split; [reflexivity|]. cbn. done.
  - match goal with |- (free_slots (<[?i := ?h]> ?tt) + 1 = _)%nat =>
         pose proof (free_slots_insert tt i h _
                       (slot_lookup tt i ltac:(lia))) as Hins
       end.
    rewrite Hfree in Hins by lia. cbn in Hins. lia.
Qed.

(** X6.  When [connect] fails, [cnt2mom] closes the descriptor (once) and
    returns -1; the value it copies into [pbs_errno] is [errno] as [close]
    left it, read after [close] has returned.  [pbs_errno] still holds that
    value at the return when the unlock of the table succeeds. *)
Theorem cnt2mom_connect_failure_errno (momhost : option string) (w : world) :
  let '(r, w') := cnt2mom momhost w in
  let evs := new_events w w' in
  forall sd addr a, In (C_connect sd addr, a) evs -> r_rc a < 0 ->
    r = -1 /\
    exists b u, In (C_close sd, b) evs /\
      count_calls (is_close sd) evs = 1%nat /\
      last evs = Some (C_unlock_conntable, u) /\
      (r_rc u = 0 -> pbs_errno w' = r_errno b).
Proof.
  apply wp_elim. destruct w as [t pe e tmo port tr].
  run_cnt2mom.
  all: read_trace; read_tests; cbn [errno pbs_errno].
  all: intros sd addr ans Hin Hrc; cbn [In] in Hin.
  all: repeat (destruct Hin as [Hin|Hin]); try done; simplify_eq.
  all: cbn [r_rc] in *; try lia.
  all: (split; [done|]).
  all: eexists _, _; split; [cbn [In]; repeat first [left; reflexivity | right]|].
  all: cbn; rewrite Z.eqb_refl; do 2 (split; [done|]).
  all: intros Hu; cbn [r_rc] in Hu; subst; done.
Qed.

Ltac codes :=
  cbn [r_rc]; repeat split; first [done | by apply Z.eqb_neq].

(** X7.  The first three calls of [cnt2mom] are, in this order, the
    set-up of the thread context, [pbs_loadconf(0)] and the lock of the
    table, each made only if the one before succeeded: a run is the first
    call alone, which failed; or the first two, of which the second failed;
    or the three, of which the third failed; or the three, all successful,
    and at least one call more.  A run that does not get the lock returns -1
    and has changed neither the table nor [pbs_tcp_timeout]. *)
Theorem cnt2mom_preliminaries (momhost : option string) (w : world) :
  let '(r, w') := cnt2mom momhost w in
  let evs := new_events w w' in
  let stopped :=
    r = -1 /\ connection w' = connection w /\
    pbs_tcp_timeout w' = pbs_tcp_timeout w in
  (exists i, evs = [(C_init_thread_context, i)] /\ r_rc i <> 0 /\ stopped) \/
  (exists i l, evs = [(C_init_thread_context, i); (C_loadconf 0, l)] /\
     r_rc i = 0 /\ r_rc l = 0 /\ stopped) \/
  (exists i l k,
     evs = [(C_init_thread_context, i); (C_loadconf 0, l); (C_lock_conntable, k)] /\
     r_rc i = 0 /\ r_rc l <> 0 /\ r_rc k <> 0 /\ stopped) \/
  (exists i l k e rest,
     evs = [(C_init_thread_context, i); (C_loadconf 0, l); (C_lock_conntable, k)]
             ++ e :: rest /\
     r_rc i = 0 /\ r_rc l <> 0 /\ r_rc k = 0).
Proof.
  apply wp_elim. destruct w as [t pe e tmo port tr].
  run_cnt2mom.
  all: read_trace; read_tests; cbn [connection pbs_tcp_timeout].
  all: first
    [ left; eexists; split; [reflexivity|]; solve [codes]
    | right; left; eexists _, _; split; [reflexivity|]; solve [codes]
    | right; right; left; eexists _, _, _; split; [reflexivity|]; solve [codes]
    | right; right; right; eexists _, _, _, _, _; split; [reflexivity|];
      solve [codes] ].
Qed.

End Connector_more.

Lemma cnt2mom_binds_slot_witness :
  let w := fresh_world 4 in
  let '(r, w') := @cnt2mom (sample_headers 4 1024 255) all_ok None w in
  length (connection w) = 4%nat /\ r <> -1 /\
  r = 1 /\ slot (connection w') 1 = mk_handle 1 0 3 None /\
  (free_slots (connection w') + 1 = free_slots (connection w))%nat.
Proof.
  pose proof (@cnt2mom_binds_slot (sample_headers 4 1024 255) all_ok None
                (fresh_world 4) eq_refl) as T.
  cbv zeta.
  destruct (@cnt2mom (sample_headers 4 1024 255) all_ok None (fresh_world 4))
    as [r w'] eqn:E.
  vm_compute in E. injection E as <- <-.
  assert (Hr : 1 <> -1) by discriminate.
  destruct (T Hr) as (_ & _ & _ & sd & a & u & _ & _ & _ & _ & Hfree & _).
  split; [reflexivity|]. split; [exact Hr|]. split; [reflexivity|].
  split; [reflexivity|exact Hfree].
Defined.

(** A table whose slots are all in use. *)
Lemma cnt2mom_frame_witness :
  let busy := replicate 3 (mk_handle 1 0 5 None) in
  let w := mk_world busy 0 0 0 0 [] in
  let '(r, w') := @cnt2mom (sample_headers 3 1024 255) all_ok None w in
  (3 <= @find_slot (sample_headers 3 1024 255) (connection w))%nat /\
  r = -1 /\ connection w' = connection w.
Proof.
  pose proof (@cnt2mom_frame (sample_headers 3 1024 255) all_ok None
                (mk_world (replicate 3 (mk_handle 1 0 5 None)) 0 0 0 0 [])) as T.
  cbv zeta.
  destruct (@cnt2mom (sample_headers 3 1024 255) all_ok None
              (mk_world (replicate 3 (mk_handle 1 0 5 None)) 0 0 0 0 []))
    as [r w'] eqn:E.
  assert (Hfull : (3 <= @find_slot (sample_headers 3 1024 255)
                          (replicate 3 (mk_handle 1 0 5 None)))%nat)
    by (vm_compute; lia).
  destruct T as (_ & _ & _ & T).
  split; [exact Hfull|]. split; [|exact (T Hfull)].
  vm_compute in E. by injection E as <- _.
Defined.

Lemma cnt2mom_descriptor_accounting_witness :
  let w := fresh_world 4 in
  let '(r, w') := @cnt2mom (sample_headers 4 1024 255) connect_refused None w in
  length (connection w) = 4%nat /\
  In (C_socket AF_INET SOCK_STREAM 0, answer 3) (new_events w w') /\
  count_calls (is_close 3) (new_events w w') = 1%nat /\ r = -1 /\
  nonzero (ch_inuse (slot (connection w') 1)) = false.
Proof.
  pose proof (@cnt2mom_descriptor_accounting (sample_headers 4 1024 255)
                connect_refused None (fresh_world 4) eq_refl) as T.
  cbv zeta.
  destruct (@cnt2mom (sample_headers 4 1024 255) connect_refused None
              (fresh_world 4)) as [r w'] eqn:E.
  vm_compute in E. injection E as <- <-.
  destruct T as [_ T].
  match goal with |- _ /\ In ?e ?evs /\ _ =>
    assert (Hin : In e evs) by (vm_compute; tauto) end.
  specialize (T AF_INET SOCK_STREAM 0 (answer 3) Hin ltac:(discriminate)).
  split; [reflexivity|]. split; [exact Hin|]. exact T.
Defined.

Lemma cnt2mom_addrinfo_release_witness :
  let w := fresh_world 4 in
  let '(r, w') := @cnt2mom (sample_headers 4 1024 255) socket_fails None w in
  In (C_getaddrinfo "localhost" hints, mk_response 0 0 0 [loopback6; loopback] None)
     (new_events w w') /\
  In (C_socket AF_INET SOCK_STREAM 0, mk_response (-1) 24 0 [] None)
     (new_events w w') /\
  count_calls is_freeaddrinfo (new_events w w') = 0%nat.
Proof.
  pose proof (@cnt2mom_addrinfo_release (sample_headers 4 1024 255)
                socket_fails None (fresh_world 4)) as T.
  cbv zeta.
  destruct (@cnt2mom (sample_headers 4 1024 255) socket_fails None
              (fresh_world 4)) as [r w'] eqn:E.
  vm_compute in E. injection E as <- <-.
  destruct T as (_ & _ & _ & T).
  match goal with |- _ /\ In ?e ?evs /\ _ =>
    assert (Hin : In e evs) by (vm_compute; tauto) end.
  split; [vm_compute; tauto|]. split; [exact Hin|].
  exact (T AF_INET SOCK_STREAM 0 _ Hin).
Defined.

Lemma cnt2mom_unlock_failure_keeps_slot_witness :
  let w := fresh_world 4 in
  let '(r, w') := @cnt2mom (sample_headers 4 1024 255) unlock_fails None w in
  length (connection w) = 4%nat /\
  In (C_init_connect_context 1, answer 0) (new_events w w') /\
  last (new_events w w') = Some (C_unlock_conntable, mk_response 1 15031 0 [] None) /\
  r = -1 /\
  (free_slots (connection w') + 1 = free_slots (connection w))%nat.
Proof.
  pose proof (@cnt2mom_unlock_failure_keeps_slot (sample_headers 4 1024 255)
                unlock_fails None (fresh_world 4) eq_refl) as T.
  cbv zeta.
  destruct (@cnt2mom (sample_headers 4 1024 255) unlock_fails None
              (fresh_world 4)) as [r w'] eqn:E.
  vm_compute in E. injection E as <- <-.
  match goal with |- _ /\ In ?e ?evs /\ _ =>
    assert (Hin : In e evs) by (vm_compute; tauto) end.
  destruct (T (answer 0) (mk_response 1 15031 0 [] None) Hin eq_refl eq_refl
              ltac:(discriminate)) as (Hr & _ & Hfree).
  split; [reflexivity|]. split; [exact Hin|]. split; [reflexivity|].
  split; [exact Hr|exact Hfree].
Defined.

Lemma cnt2mom_connect_failure_errno_witness :
  let w := fresh_world 4 in
  let '(r, w') := @cnt2mom (sample_headers 4 1024 255) connect_refused None w in
  In (C_connect 3 (mk_sockaddr 2130706433 39482), mk_response (-1) 111 0 [] None)
     (new_events w w') /\
  r = -1 /\ pbs_errno w' = 111.
Proof.
  pose proof (@cnt2mom_connect_failure_errno (sample_headers 4 1024 255)
                connect_refused None (fresh_world 4)) as T.
  cbv zeta.
  destruct (@cnt2mom (sample_headers 4 1024 255) connect_refused None
              (fresh_world 4)) as [r w'] eqn:E.
  vm_compute in E. injection E as <- <-.
  match goal with |- In ?e ?evs /\ _ =>
    assert (Hin : In e evs) by (vm_compute; tauto) end.
  destruct (T _ _ _ Hin ltac:(reflexivity)) as (Hr & _).
  split; [exact Hin|]. split; [exact Hr|reflexivity].
Defined.

(** Without a configuration the run ends at its second call. *)
Example cnt2mom_without_configuration :
  let w := fresh_world 4 in
  let '(r, w') := @cnt2mom (sample_headers 4 1024 255) loadconf_fails None w in
  r = -1 /\
  map fst (new_events w w') = [C_init_thread_context; C_loadconf 0] /\
  connection w' = connection w.
Proof. vm_compute. done. Qed.

(** ** The deferred scheduler reply: the request, the reply, the table *)

Section DefSchReply_more.
Context `{Headers} `{Collaborators}.

Ltac run_defschreply_txt txt :=
  unfold pbs_defschreply, encode_head, encode_failed; unfold_calls;
  destruct (null_or_empty txt) eqn:?; cbn [negb];
  change (1 =? 1) with true; change (0 =? 1) with false; cbn [andb];
  repeat (wp_step; rewrite ?slot_insert_eq by assumption; wp_simpl).

Ltac run_defschreply' :=
  unfold pbs_defschreply, encode_head, encode_failed; unfold_calls;
  repeat (wp_step; rewrite ?slot_insert_eq by assumption; wp_simpl).

(** X8.  The DIS write calls of a run of [pbs_defschreply] are a prefix
    of the request in its wire order (header, command, job id, error number,
    text flag, text if not empty, extension, flush), all on the socket the
    slot held at entry; every one but the last of the run succeeded, so
    nothing is written after a failed write; and the reply is read exactly
    when the flush was reached and every write succeeded. *)
Theorem defschreply_wire_order (c : nat) (cmd : Z) (id : option string)
    (err : Z) (txt extend : option string) (w : world) :
  let '(r, w') := pbs_defschreply c cmd id err txt extend w in
  let evs := new_events w w' in
  let sock := ch_socket (slot (connection w) c) in
  map fst (writes evs) `prefix_of`
    request_calls sock cmd (default "" id) err txt extend /\
  (forall i e, writes evs !! i = Some e -> (S i < length (writes evs))%nat ->
     r_rc (snd e) = 0) /\
  called is_rdrpy evs =
    called is_wflush evs && forallb (fun e => negb (failed e)) (writes evs).
Proof.
  apply wp_elim. destruct w as [t pe e tmo port tr]. cbn [connection].
  unfold request_calls.
  run_defschreply_txt txt.
  all: read_trace; read_tests.
  all: try match goal with Hz : (0 =? 0) = false |- _ => discriminate Hz end.
  all: unfold writes; cbn [List.filter fst writes_bytes map length].
  all: (split; [eexists; cbn [map app]; reflexivity|]).
  all: split; [intros i ev Hi Hlt; cbn [length] in Hlt;
               do 8 (try destruct i as [|i]); cbn in Hi; simplify_eq; cbn [snd r_rc];
               try lia; try done
              | unfold called, failed, nonzero; cbn; use_tests; cbn; try done].
Qed.

(** X9.  A run of [pbs_defschreply] that reads the reply ends with
    [PBSD_rdrpy(c)], [PBSD_FreeReply], unlock, in this order; the reply is
    read and freed once, after writes that all succeeded.  The value returned
    is the error number found in the slot once the reply is read, or
    [pbs_errno] when the unlock failed. *)
Theorem defschreply_reply_code (c : nat) (cmd : Z) (id : option string)
    (err : Z) (txt extend : option string) (w : world) :
  let '(r, w') := pbs_defschreply c cmd id err txt extend w in
  let evs := new_events w w' in
  forall a, In (C_PBSD_rdrpy c, a) evs ->
    exists pre f u,
      evs = pre ++ [(C_PBSD_rdrpy c, a); (C_PBSD_FreeReply, f);
                    (C_unlock_connection c, u)] /\
      called is_rdrpy pre = false /\ called is_FreeReply pre = false /\
      Forall (fun e => writes_bytes (fst e) = true -> r_rc (snd e) = 0) pre /\
      r = (if nonzero (r_rc u) then pbs_errno w'
           else ch_errno (slot (connection w') c)).
Proof.
  apply wp_elim. destruct w as [t pe e tmo port tr].
  run_defschreply'.
  all: read_trace; read_tests.
  all: intros a Hin; cbn [In] in Hin.
  all: repeat (destruct Hin as [Hin|Hin]); try done; simplify_eq.
  all: match goal with |- exists pre _ _, ?l = _ /\ _ =>
         exists (take (length l - 3) l) end; cbn [length Nat.sub take].
  all: eexists _, _; split; [reflexivity|].
  all: (split; [reflexivity|]); (split; [reflexivity|]).
  all: unfold nonzero; cbn [r_rc]; use_tests; cbn [negb].
  all: change (0 =? 0) with true; cbn [negb].
  all: split; [|reflexivity].
  all: repeat (constructor; [cbn; try done|]); constructor.
Qed.

(** X10.  Short of reading the reply, [pbs_defschreply] changes nothing
    in the table but the error text of slot [c]: the table keeps its length,
    the other slots read as before, and slot [c] keeps its in-use flag, its
    error number and its socket.  A run that copies no message either leaves
    the whole table as it was. *)
Theorem defschreply_frame (c : nat) (cmd : Z) (id : option string)
    (err : Z) (txt extend : option string) (w : world) :
  let '(r, w') := pbs_defschreply c cmd id err txt extend w in
  let evs := new_events w w' in
  called is_rdrpy evs = false ->
  length (connection w') = length (connection w) /\
  (forall j, j <> c -> connection w' !! j = connection w !! j) /\
  ch_inuse (slot (connection w') c) = ch_inuse (slot (connection w) c) /\
  ch_errno (slot (connection w') c) = ch_errno (slot (connection w) c) /\
  ch_socket (slot (connection w') c) = ch_socket (slot (connection w) c) /\
  (called is_strdup evs = false -> connection w' = connection w).
Proof.
  apply wp_elim. destruct w as [t pe e tmo port tr]. cbn [connection].
  destruct (decide (c < length t)%nat) as [Hc|Hc].
  - run_defschreply'.
    all: read_trace; rewrite ?length_insert.
    all: intros Hrd; try done.
    all: repeat split; try done.
    all: try (intros j Hj; by rewrite ?list_lookup_insert_ne by done).
    all: by rewrite ?slot_insert_eq by (rewrite ?length_insert; assumption).
  - assert (Hge : forall h, <[c:=h]> t = t)
      by (intros h; apply list_insert_ge; lia).
    run_defschreply'.
    all: read_trace; rewrite ?Hge.
    all: intros Hrd; repeat split; done.
Qed.

(** X11.  With a job id, [pbs_defschreply] first sets up the thread
    context and then locks the connection.  If the run does not get the
    lock, it ends with the failing one of these two calls and returns the
    code that call left in [pbs_errno]; the table is as it was. *)
Theorem defschreply_without_lock (c : nat) (cmd : Z) (id : option string)
    (err : Z) (txt extend : option string) (w : world) :
  null_or_empty id = false ->
  let '(r, w') := pbs_defschreply c cmd id err txt extend w in
  let evs := new_events w w' in
  map fst (take 2 evs) = take (length evs) [C_init_thread_context; C_lock_connection c] /\
  (after_lock c evs = None ->
     exists k a, evs <> [] /\ last evs = Some (k, a) /\ r_rc a <> 0 /\
       r = r_errno a /\ pbs_errno w' = r_errno a /\
       (length evs <= 2)%nat /\
       connection w' = connection w).
Proof.
  intros Hid. apply wp_elim. destruct w as [t pe e tmo port tr].
  unfold pbs_defschreply. rewrite Hid.
  unfold encode_head, encode_failed; unfold_calls;
  repeat (wp_step; rewrite ?slot_insert_eq by assumption; wp_simpl).
  all: read_trace; read_tests; cbn [connection pbs_errno].
  all: (split; [reflexivity|]).
  all: cbn -[nonzero]; rewrite ?Nat.eqb_refl; unfold failed, nonzero;
       cbn [snd r_rc]; use_tests; cbn; try done.
  all: intros _; eexists _, _; (split; [done|]); (split; [reflexivity|]).
  all: cbn [r_rc r_errno]; repeat split; try done; try lia.
  all: by apply Z.eqb_neq.
Qed.

(** X12.  When the encoder of the command, of the job id or of the error
    number fails, whatever its DIS code, the message [pbs_defschreply] asks
    [strdup] to copy is [dis_emsg[1]]: in [rc = diswui(...) != 0] the
    comparison is what [rc] receives.  If the copy and the unlock succeed,
    that message is the slot's error text and [PBSE_PROTOCOL] is returned. *)
Theorem defschreply_field_encoder_message (c : nat) (cmd : Z) (id : option string)
    (err : Z) (txt extend : option string) (w : world) :
  (c < length (connection w))%nat ->
  let '(r, w') := pbs_defschreply c cmd id err txt extend w in
  let evs := new_events w w' in
  forall k a, In (k, a) evs ->
    writes_bytes k = true -> is_wflush k = false -> keeps_code evs k = false ->
    r_rc a <> 0 ->
    exists m u, In (C_strdup (dis_emsg 1), m) evs /\
      count_calls is_strdup evs = 1%nat /\
      last evs = Some (C_unlock_connection c, u) /\
      (r_rc m <> 0 -> r_rc u = 0 ->
       r = PBSE_PROTOCOL /\
       ch_errtxt (slot (connection w') c) = Some (dis_emsg 1)).
Proof.
  intros Hc. apply wp_elim. destruct w as [t pe e tmo port tr].
  cbn [connection] in Hc.
  run_defschreply'.
  all: read_trace; read_tests.
  all: unfold nonzero; cbn [r_rc]; use_tests; cbn [negb b2z].
  all: intros k a Hin Hw Hfl Hk Hrc; cbn [In] in Hin.
  all: repeat (destruct Hin as [Hin|Hin]); try done; simplify_eq; try done.
  all: cbn in Hw, Hfl, Hk; try done.
  all: cbn [r_rc] in *; try done.
  all: eexists _, _; split; [cbn [In]; repeat first [left; reflexivity | right]|].
  all: (split; [reflexivity|]); (split; [reflexivity|]).
  all: cbn [r_rc]; intros Hm Hu; subst.
  all: try (apply Z.eqb_neq in Hm; rewrite Hm in *; cbn [negb] in * ).
  all: cbn; rewrite ?slot_insert_eq by assumption; try done.
Qed.

End DefSchReply_more.

Lemma defschreply_wire_order_witness :
  let w := fresh_world 4 in
  let '(r, w') := @pbs_defschreply (sample_headers 4 1024 255)
                    (failing is_diswsi (answer 7))
                    1 2 (Some "12.svr") 0 (Some "ok") None w in
  map fst (writes (new_events w w')) =
    [ C_encode_DIS_ReqHdr 0 75 "pbsuser"; C_diswui 0 2; C_diswst 0 "12.svr";
      C_diswui 0 0; C_diswsi 0 1 ] /\
  called is_rdrpy (new_events w w') = false /\
  forall i e, writes (new_events w w') !! i = Some e -> (i < 4)%nat ->
    r_rc (snd e) = 0.
Proof.
  pose proof (@defschreply_wire_order (sample_headers 4 1024 255)
                (failing is_diswsi (answer 7))
                1 2 (Some "12.svr") 0 (Some "ok") None (fresh_world 4)) as T.
  cbv zeta.
  destruct (@pbs_defschreply (sample_headers 4 1024 255)
              (failing is_diswsi (answer 7))
              1 2 (Some "12.svr") 0 (Some "ok") None (fresh_world 4))
    as [r w'] eqn:E.
  vm_compute in E. injection E as <- <-.
  destruct T as (_ & T & _).
  split; [reflexivity|]. split; [reflexivity|].
  intros i e Hi Hlt. apply (T i e Hi).
  change (S i < 5)%nat. lia.
Defined.

Lemma defschreply_reply_code_witness :
  let w := fresh_world 4 in
  let '(r, w') := @pbs_defschreply (sample_headers 4 1024 255)
                    (failing is_rdrpy (mk_response 15001 15001 0 [] None))
                    1 2 (Some "12.svr") 0 None None w in
  In (C_PBSD_rdrpy 1, mk_response 15001 15001 0 [] None) (new_events w w') /\
  r = 15001 /\
  exists pre f u,
    new_events w w' =
      pre ++ [(C_PBSD_rdrpy 1, mk_response 15001 15001 0 [] None);
              (C_PBSD_FreeReply, f); (C_unlock_connection 1, u)].
Proof.
  pose proof (@defschreply_reply_code (sample_headers 4 1024 255)
                (failing is_rdrpy (mk_response 15001 15001 0 [] None))
                1 2 (Some "12.svr") 0 None None (fresh_world 4)) as T.
  cbv zeta.
  destruct (@pbs_defschreply (sample_headers 4 1024 255)
              (failing is_rdrpy (mk_response 15001 15001 0 [] None))
              1 2 (Some "12.svr") 0 None None (fresh_world 4))
    as [r w'] eqn:E.
  vm_compute in E. injection E as <- <-.
  match goal with |- In ?e ?evs /\ _ =>
    assert (Hin : In e evs) by (vm_compute; tauto) end.
  destruct (T _ Hin) as (pre & f & u & He & _).
  split; [exact Hin|]. split; [reflexivity|]. exists pre, f, u. exact He.
Defined.

Lemma defschreply_frame_witness :
  let w := fresh_world 4 in
  let '(r, w') := @pbs_defschreply (sample_headers 4 1024 255)
                    (failing is_wflush (answer (-1)))
                    1 2 (Some "12.svr") 0 None None w in
  called is_rdrpy (new_events w w') = false /\
  called is_strdup (new_events w w') = false /\
  connection w' = connection w.
Proof.
  pose proof (@defschreply_frame (sample_headers 4 1024 255)
                (failing is_wflush (answer (-1)))
                1 2 (Some "12.svr") 0 None None (fresh_world 4)) as T.
  cbv zeta.
  destruct (@pbs_defschreply (sample_headers 4 1024 255)
              (failing is_wflush (answer (-1)))
              1 2 (Some "12.svr") 0 None None (fresh_world 4))
    as [r w'] eqn:E.
  vm_compute in E. injection E as <- <-.
  destruct (T eq_refl) as (_ & _ & _ & _ & _ & T').
  split; [reflexivity|]. split; [reflexivity|]. exact (T' eq_refl).
Defined.

Lemma defschreply_without_lock_witness :
  let w := fresh_world 4 in
  let '(r, w') := @pbs_defschreply (sample_headers 4 1024 255) lock_fails
                    1 2 (Some "12.svr") 0 None None w in
  null_or_empty (Some "12.svr") = false /\
  after_lock 1 (new_events w w') = None /\
  r = 15014 /\ connection w' = connection w.
Proof.
  pose proof (@defschreply_without_lock (sample_headers 4 1024 255) lock_fails
                1 2 (Some "12.svr") 0 None None (fresh_world 4) eq_refl) as T.
  cbv zeta.
  destruct (@pbs_defschreply (sample_headers 4 1024 255) lock_fails
              1 2 (Some "12.svr") 0 None None (fresh_world 4))
    as [r w'] eqn:E.
  vm_compute in E. injection E as <- <-.
  destruct T as [_ T].
  destruct (T eq_refl) as (k & a & _ & _ & _ & _ & _ & _ & Hconn).
  split; [reflexivity|]. split; [reflexivity|]. split; [reflexivity|exact Hconn].
Defined.

Lemma defschreply_field_encoder_message_witness :
  let w := fresh_world 4 in
  let '(r, w') := @pbs_defschreply (sample_headers 4 1024 255)
                    (failing is_diswui (answer 7))
                    1 2 (Some "12.svr") 0 None None w in
  (1 < length (connection w))%nat /\
  In (C_diswui 0 2, answer 7) (new_events w w') /\
  exists m, In (C_strdup (sample_emsg 1), m) (new_events w w') /\
    count_calls is_strdup (new_events w w') = 1%nat.
Proof.
  assert (Hc : (1 < length (connection (fresh_world 4)))%nat) by (cbn; lia).
  pose proof (@defschreply_field_encoder_message (sample_headers 4 1024 255)
                (failing is_diswui (answer 7))
                1 2 (Some "12.svr") 0 None None (fresh_world 4) Hc) as T.
  cbv zeta.
  destruct (@pbs_defschreply (sample_headers 4 1024 255)
              (failing is_diswui (answer 7))
              1 2 (Some "12.svr") 0 None None (fresh_world 4))
    as [r w'] eqn:E.
  vm_compute in E. injection E as <- <-.
  match goal with |- _ /\ In ?e ?evs /\ _ =>
    assert (Hin : In e evs) by (vm_compute; tauto) end.
  destruct (T _ _ Hin eq_refl eq_refl eq_refl ltac:(discriminate))
    as (m & u & Hm & Hcount & _).
  split; [exact Hc|]. split; [exact Hin|]. exists m. split; [exact Hm|exact Hcount].
Defined.

(** ** Stage names: what is stored, and where *)

Section ParseStage_more.
Context `{Headers}.

(** The result on a string of the expected shape, whatever follows its
    terminator. *)
Lemma parse_stage_name_shape ws l h r rest ln hn rn :
  Forall (fun x => isspace x = true) ws ->
  l <> [] -> isspace (deref l) = false ->
  Forall (taken ISNAMECHAR) l -> Forall (taken ISNAMECHAR2) h ->
  Forall (taken ISNAMECHAR) r -> deref rest = NUL ->
  let res := parse_stage_name (ws ++ l ++ "@"%char :: h ++ ":"%char :: r ++ rest)
               ln hn rn in
  if (length l <=? MAXPATHLEN)%nat &&
     negb (length h =? 0)%nat && (length h <=? PBS_MAXSERVERNAME)%nat &&
     negb (length r =? 0)%nat && (length r <=? MAXPATHLEN)%nat
  then res = (0, (<[length l := NUL]> (write_at 0 l ln),
                  <[length h := NUL]> (write_at 0 h hn),
                  <[length r := NUL]> (write_at 0 r rn)))
  else fst res = 1.
Proof.
  intros Hws Hl0 Hsp Hl Hh Hr Hrest. cbv zeta. unfold parse_stage_name.
  rewrite skip_space_app; [|done|by destruct l].
  rewrite scan_part_app; [|done|by right|lia]. cbn [Nat.add].
  destruct (length l <=? MAXPATHLEN)%nat; [|done]. cbn [andb].
  replace (length l =? 0)%nat with false
    by (symmetry; apply Nat.eqb_neq; by destruct l).
  cbn [deref tail]. rewrite Ascii.eqb_refl.
  rewrite scan_part_app; [|done|by right|lia]. cbn [Nat.add andb].
  destruct (length h <=? PBS_MAXSERVERNAME)%nat;
    [|by rewrite andb_false_r].
  rewrite andb_true_r.
  destruct (length h =? 0)%nat; [done|]. cbn [negb deref tail].
  rewrite Ascii.eqb_refl.
  rewrite scan_part_app; [|done|by left|lia]. cbn [Nat.add andb].
  destruct (length r <=? MAXPATHLEN)%nat; [|by rewrite andb_false_r].
  rewrite andb_true_r.
  destruct (length r =? 0)%nat; [done|]. cbn [negb].
  rewrite Hrest. rewrite Ascii.eqb_refl. cbn [negb]. done.
Qed.

(** X13.  Parsing gives back what was written: on blanks, a local name,
    [@], a host, [:], a remote name and a terminator (whatever follows it),
    the names being non-empty, within the limits and made of the characters
    their loops take, [parse_stage_name] returns 0 and each array with room
    for its name and a terminator holds exactly that name. *)
Theorem parse_stage_name_round_trip ws l h r rest ln hn rn :
  Forall (fun x => isspace x = true) ws ->
  isspace (deref l) = false ->
  Forall (taken ISNAMECHAR) l -> Forall (taken ISNAMECHAR2) h ->
  Forall (taken ISNAMECHAR) r -> deref rest = NUL ->
  l <> [] -> h <> [] -> r <> [] ->
  (length l <= MAXPATHLEN)%nat -> (length l < length ln)%nat ->
  (length h <= PBS_MAXSERVERNAME)%nat -> (length h < length hn)%nat ->
  (length r <= MAXPATHLEN)%nat -> (length r < length rn)%nat ->
  let '(rc, (l', h', r')) :=
    parse_stage_name (ws ++ l ++ "@"%char :: h ++ ":"%char :: r ++ rest) ln hn rn in
  rc = 0 /\ c_str l' = l /\ c_str h' = h /\ c_str r' = r.
Proof.
  intros Hws Hsp Hl Hh Hr Hrest Hl0 Hh0 Hr0 Hl1 Hl2 Hh1 Hh2 Hr1 Hr2.
  pose proof (parse_stage_name_shape ws l h r rest ln hn rn Hws Hl0 Hsp Hl Hh Hr Hrest)
    as Hs. cbv zeta in Hs.
  replace (length l <=? MAXPATHLEN)%nat with true in Hs
    by (symmetry; by apply Nat.leb_le).
  replace (length h <=? PBS_MAXSERVERNAME)%nat with true in Hs
    by (symmetry; by apply Nat.leb_le).
  replace (length r <=? MAXPATHLEN)%nat with true in Hs
    by (symmetry; by apply Nat.leb_le).
  replace (length h =? 0)%nat with false in Hs
    by (symmetry; apply Nat.eqb_neq; by destruct h).
  replace (length r =? 0)%nat with false in Hs
    by (symmetry; apply Nat.eqb_neq; by destruct r).
  cbn [andb negb] in Hs. rewrite Hs.
  split; [done|].
  split; [|split]; by eapply terminated_copy.
Qed.

Lemma c_str_stop a rest :
  Forall (fun x => x <> NUL) a -> deref rest = NUL -> c_str (a ++ rest) = a.
Proof.
  intros Ha Hrest. induction Ha as [|x a Hx Ha IH]; cbn.
  - destruct rest as [|y rest]; [done|]. cbn in *. subst y. done.
  - apply Ascii.eqb_neq in Hx. rewrite Hx. by rewrite IH.
Qed.

Lemma taken_not_NUL p l : Forall (taken p) l -> Forall (fun x => x <> NUL) l.
Proof. intros Hl. eapply Forall_impl; [exact Hl|]. by intros x [_ Hx]. Qed.

Lemma blank_not_NUL ws :
  Forall (fun x => isspace x = true) ws -> Forall (fun x => x <> NUL) ws.
Proof. intros Hl. eapply Forall_impl; [exact Hl|]. by intros x Hx ->. Qed.

(** X14.  A string [parse_stage_name] accepts has exactly one [@]: it
    reads, up to its terminator, as [p @ h : q] with no [@] in [p], [h] or
    [q]; the host [h] is not empty and has no blank and no colon, so it ends
    at the first colon after the [@]; and the remote name [q] is not empty.
    A string with no [@], or with a second one, is therefore refused. *)
Theorem parse_stage_name_one_at pair local_name host_name remote_name :
  fst (parse_stage_name pair local_name host_name remote_name) = 0 ->
  exists p h q,
    c_str pair = p ++ "@"%char :: h ++ ":"%char :: q /\
    ~ In "@"%char p /\ ~ In "@"%char h /\ ~ In "@"%char q /\
    ~ In ":"%char h /\ Forall (fun x => isspace x = false) h /\
    h <> [] /\ q <> [].
Proof.
  pose proof (parse_stage_name_accepts pair local_name host_name remote_name) as Ha.
  destruct (parse_stage_name pair local_name host_name remote_name)
    as [rc [[l' h'] r']]. cbn [fst]. intros ->.
  destruct Ha as [_ Ha].
  destruct (Ha eq_refl) as (ws & l & h & r & rest & -> & Hrest & Hws & Hl & Hh & Hr
                            & Hl0 & Hh0 & Hr0 & _).
  assert (Hn : forall s, Forall (taken ISNAMECHAR) s -> ~ In "@"%char s).
  { intros s Hs Hin%list_elem_of_In. rewrite Forall_forall in Hs.
    by destruct (Hs _ Hin) as [Hp _]. }
  exists (ws ++ l), h, r. split.
  { replace (ws ++ l ++ "@"%char :: h ++ ":"%char :: r ++ rest)
      with ((ws ++ l ++ "@"%char :: h ++ ":"%char :: r) ++ rest)
      by (rewrite <- !app_assoc; cbn; by rewrite <- !app_assoc).
    rewrite c_str_stop; [by rewrite <- app_assoc| |done].
    apply Forall_app. split; [by apply blank_not_NUL|].
    apply Forall_app. split; [by eapply taken_not_NUL|].
    constructor; [done|]. apply Forall_app. split; [by eapply taken_not_NUL|].
    constructor; [done|]. by eapply taken_not_NUL. }
  split.
  { intros [Hin|Hin]%in_app_or; [|by apply (Hn l)].
    apply list_elem_of_In in Hin.
    rewrite Forall_forall in Hws. by specialize (Hws _ Hin). }
  rewrite Forall_forall in Hh.
  split. { intros Hin%list_elem_of_In. by destruct (Hh _ Hin) as [Hp _]. }
  split; [by apply Hn|].
  split. { intros Hin%list_elem_of_In. by destruct (Hh _ Hin) as [Hp _]. }
  split; [|done].
  apply Forall_forall. intros x Hin. destruct (Hh _ Hin) as [Hp _].
  unfold ISNAMECHAR2 in Hp. by destruct (isspace x); rewrite ?andb_false_r in Hp.
Qed.

Lemma length_write_at l : forall pos buf, length (write_at pos l buf) = length buf.
Proof.
  induction l as [|x l IH]; intros pos buf; cbn [write_at]; [done|].
  by rewrite IH, length_insert.
Qed.

Lemma write_at_lookup_out l : forall pos buf i,
  (i < pos \/ pos + length l <= i)%nat -> write_at pos l buf !! i = buf !! i.
Proof.
  induction l as [|x l IH]; intros pos buf i Hi; cbn [write_at]; [done|].
  cbn [length] in Hi. rewrite IH by lia. apply list_lookup_insert_ne. lia.
Qed.

Lemma write_at_NUL l : forall pos buf i,
  Forall (fun x => x <> NUL) l ->
  write_at pos l buf !! i = Some NUL -> buf !! i = Some NUL.
Proof.
  induction l as [|x l IH]; intros pos buf i Hl Hi; cbn [write_at] in Hi; [done|].
  inversion Hl as [|? ? Hx Hl']; subst.
  apply IH in Hi; [|done].
  destruct (decide (pos = i)) as [->|Hne].
  - destruct (decide (i < length buf)%nat).
    + rewrite list_lookup_insert_eq in Hi by done. by simplify_eq.
    + by rewrite list_insert_ge in Hi by lia.
  - by rewrite list_lookup_insert_ne in Hi.
Qed.

Lemma scan_part_Overflow p limit c : forall pos buf b,
  scan_part p limit c pos buf = Overflow b ->
  exists pre, Forall (taken p) pre /\ b = write_at pos pre buf /\
    (pre = [] \/ (pos + length pre <= limit)%nat).
Proof.
  induction c as [|x c IH]; intros pos buf b Hs; cbn in Hs; [done|].
  destruct (Ascii.eqb x NUL) eqn:Ex; [done|].
  destruct (p x) eqn:Ep; [|done].
  destruct (limit <=? pos)%nat eqn:El.
  - simplify_eq. exists []. split; [constructor|]. split; [done|by left].
  - apply Nat.leb_gt in El.
    destruct (IH _ _ _ Hs) as (pre & Hpre & -> & Hle).
    exists (x :: pre). cbn [length write_at].
    split. { constructor; [|done]. split; [done|]. by apply Ascii.eqb_neq. }
    split; [done|]. right. destruct Hle as [->|Hle]; cbn [length] in *; lia.
Qed.

(** What a copying loop started at index 0 leaves in its array. *)
Lemma scan_part_buffer p limit c buf :
  exists pre, Forall (fun x => x <> NUL) pre /\ (length pre <= limit)%nat /\
    match scan_part p limit c 0 buf with
    | Overflow b => b = write_at 0 pre buf
    | Stopped _ pos b => pos = length pre /\ b = write_at 0 pre buf
    end.
Proof.
  destruct (scan_part p limit c 0 buf) as [b|c' pos b] eqn:E.
  - destruct (scan_part_Overflow _ _ _ _ _ _ E) as (pre & Hpre & -> & Hle).
    exists pre. split; [by eapply taken_not_NUL|]. split; [|done].
    destruct Hle as [->|Hle]; cbn [length] in *; lia.
  - destruct (scan_part_Stopped _ _ _ _ _ _ _ _ E)
      as (pre & _ & Hpre & -> & -> & Hle & _).
    exists pre. split; [by eapply taken_not_NUL|]. split; [|done].
    destruct Hle as [->|Hle]; cbn [length] in *; lia.
Qed.

(** The arrays after any call: each holds a copied prefix of its part, and
    the three terminators are stored together, on success only. *)
Lemma parse_stage_name_outputs pair ln hn rn :
  let '(rc, (l', h', r')) := parse_stage_name pair ln hn rn in
  exists l h r,
    Forall (fun x => x <> NUL) l /\ Forall (fun x => x <> NUL) h /\
    Forall (fun x => x <> NUL) r /\
    (length l <= MAXPATHLEN)%nat /\ (length h <= PBS_MAXSERVERNAME)%nat /\
    (length r <= MAXPATHLEN)%nat /\
    ((rc = 0 /\ l' = <[length l := NUL]> (write_at 0 l ln) /\
      h' = <[length h := NUL]> (write_at 0 h hn) /\
      r' = <[length r := NUL]> (write_at 0 r rn)) \/
     (rc = 1 /\ l' = write_at 0 l ln /\ h' = write_at 0 h hn /\
      r' = write_at 0 r rn)).
Proof.
  unfold parse_stage_name.
  assert (Hnil : Forall (fun x : ascii => x <> NUL) []) by constructor.
  destruct (scan_part_buffer ISNAMECHAR MAXPATHLEN (skip_space pair) ln)
    as (l & Hl & Hll & El).
  destruct (scan_part ISNAMECHAR MAXPATHLEN (skip_space pair) 0 ln)
    as [b|c1 l_pos b1].
  { subst. exists l, [], []. cbn [length write_at].
    repeat (split; [done || lia|]). by right. }
  destruct El as [-> ->].
  destruct (length l =? 0)%nat.
  { exists l, [], []. cbn [length write_at].
    repeat (split; [done || lia|]). by right. }
  destruct (scan_part_buffer ISNAMECHAR2 PBS_MAXSERVERNAME (tail c1) hn)
    as (h & Hh & Hlh & Eh).
  assert (Hhost : exists h, Forall (fun x => x <> NUL) h /\
            (length h <= PBS_MAXSERVERNAME)%nat /\
            match (if Ascii.eqb (deref c1) "@"
                   then scan_part ISNAMECHAR2 PBS_MAXSERVERNAME (tail c1) 0 hn
                   else Stopped c1 0 hn) with
            | Overflow b => b = write_at 0 h hn
            | Stopped _ pos b => pos = length h /\ b = write_at 0 h hn
            end).
  { destruct (Ascii.eqb (deref c1) "@"); [by exists h|].
    exists []. split; [done|]. split; [cbn; lia|done]. }
  clear h Hh Hlh Eh. destruct Hhost as (h & Hh & Hlh & Eh).
  destruct (if Ascii.eqb (deref c1) "@" then _ else _) as [b|c2 h_pos b2].
  { subst. exists l, h, []. cbn [length write_at].
    repeat (split; [done || lia|]). by right. }
  destruct Eh as [-> ->].
  destruct (_ && _).
  { exists l, h, []. cbn [length write_at].
    repeat (split; [done || lia|]). by right. }
  destruct (scan_part_buffer ISNAMECHAR MAXPATHLEN (tail c2) rn)
    as (r & Hr & Hlr & Er).
  assert (Hrem : exists r, Forall (fun x => x <> NUL) r /\
            (length r <= MAXPATHLEN)%nat /\
            match (if Ascii.eqb (deref c2) ":"
                   then scan_part ISNAMECHAR MAXPATHLEN (tail c2) 0 rn
                   else Stopped c2 0 rn) with
            | Overflow b => b = write_at 0 r rn
            | Stopped _ pos b => pos = length r /\ b = write_at 0 r rn
            end).
  { destruct (Ascii.eqb (deref c2) ":"); [by exists r|].
    exists []. split; [done|]. split; [cbn; lia|done]. }
  clear r Hr Hlr Er. destruct Hrem as (r & Hr & Hlr & Er).
  destruct (if Ascii.eqb (deref c2) ":" then _ else _) as [b|c3 r_pos b3].
  { subst. exists l, h, r. repeat (split; [done || lia|]). by right. }
  destruct Er as [-> ->].
  destruct (length r =? 0)%nat;
    [exists l, h, r; repeat (split; [done || lia|]); by right|].
  destruct (negb _); exists l, h, r; repeat (split; [done || lia|]);
    [by right|by left].
Qed.

(** X15.  [parse_stage_name] stores nothing beyond index [MAXPATHLEN] of
    the local and the remote array, nor beyond index [PBS_MAXSERVERNAME] of
    the host array (the arrays keep their lengths, and every higher index
    reads as before).  When it returns 1 it has stored no terminator: an
    array may then hold the beginning of a name, not terminated. *)
Theorem parse_stage_name_stores (pair local_name host_name remote_name : list ascii) :
  let '(rc, (l', h', r')) := parse_stage_name pair local_name host_name remote_name in
  (length l' = length local_name /\ length h' = length host_name /\
   length r' = length remote_name) /\
  (forall i, (MAXPATHLEN < i)%nat ->
     l' !! i = local_name !! i /\ r' !! i = remote_name !! i) /\
  (forall i, (PBS_MAXSERVERNAME < i)%nat -> h' !! i = host_name !! i) /\
  (rc <> 0 -> forall i,
     (l' !! i = Some NUL -> local_name !! i = Some NUL) /\
     (h' !! i = Some NUL -> host_name !! i = Some NUL) /\
     (r' !! i = Some NUL -> remote_name !! i = Some NUL)).
Proof.
  pose proof (parse_stage_name_outputs pair local_name host_name remote_name) as Ho.
  destruct (parse_stage_name pair local_name host_name remote_name)
    as [rc [[l' h'] r']].
  destruct Ho as (l & h & r & Hl & Hh & Hr & Hll & Hlh & Hlr & Ho).
  destruct Ho as [(-> & -> & -> & ->)|(-> & -> & -> & ->)].
  - rewrite !length_insert, !length_write_at. split; [done|].
    split; [|split; [|done]].
    + intros i Hi. rewrite !list_lookup_insert_ne by lia.
      by rewrite !write_at_lookup_out by lia.
    + intros i Hi. rewrite !list_lookup_insert_ne by lia.
      by rewrite !write_at_lookup_out by lia.
  - rewrite !length_write_at. split; [done|].
    split; [|split].
    + intros i Hi. by rewrite !write_at_lookup_out by lia.
    + intros i Hi. by rewrite !write_at_lookup_out by lia.
    + intros _ i. repeat split; by apply write_at_NUL.
Qed.

End ParseStage_more.

Ltac all_taken :=
  repeat (constructor; [split; [reflexivity|discriminate]|]); constructor.

Lemma parse_stage_name_round_trip_witness :
  let room := replicate 9 "#"%char in
  let '(rc, (l', h', r')) :=
    @parse_stage_name (sample_headers 4 8 4) (chars " in.dat@n1:/d/in")
      room room room in
  rc = 0 /\ c_str l' = chars "in.dat" /\ c_str h' = chars "n1" /\
  c_str r' = chars "/d/in".
Proof.
  refine (@parse_stage_name_round_trip (sample_headers 4 8 4)
            [" "%char] (chars "in.dat") (chars "n1") (chars "/d/in") []
            (replicate 9 "#"%char) (replicate 9 "#"%char) (replicate 9 "#"%char)
            _ eq_refl _ _ _ eq_refl _ _ _ _ _ _ _ _ _).
  - repeat constructor.
  - all_taken.
  - all_taken.
  - all_taken.
  - discriminate.
  - discriminate.
  - discriminate.
  - cbn. lia.
  - cbn. lia.
  - cbn. lia.
  - cbn. lia.
  - cbn. lia.
  - cbn. lia.
Defined.

Lemma parse_stage_name_one_at_witness :
  exists p h q,
    c_str (chars " in.dat@n1:/d/in") = p ++ "@"%char :: h ++ ":"%char :: q /\
    ~ In "@"%char p /\ ~ In "@"%char h /\ ~ In "@"%char q /\
    ~ In ":"%char h /\ Forall (fun x => isspace x = false) h /\
    h <> [] /\ q <> [].
Proof.
  apply (@parse_stage_name_one_at (sample_headers 4 8 4) (chars " in.dat@n1:/d/in")
           (replicate 9 "#"%char) (replicate 5 "#"%char) (replicate 9 "#"%char)).
  reflexivity.
Defined.

Lemma parse_stage_name_stores_witness :
  let '(rc, (l', h', r')) :=
    @parse_stage_name (sample_headers 4 8 4) (chars "in@n1 x:/d")
      (replicate 9 "#"%char) (replicate 5 "#"%char) (replicate 9 "#"%char) in
  rc = 1 /\ l' = chars "in" ++ replicate 7 "#"%char /\
  forall i, l' !! i <> Some NUL /\ h' !! i <> Some NUL /\ r' !! i <> Some NUL.
Proof.
  pose proof (@parse_stage_name_stores (sample_headers 4 8 4) (chars "in@n1 x:/d")
                (replicate 9 "#"%char) (replicate 5 "#"%char)
                (replicate 9 "#"%char)) as T.
  destruct (@parse_stage_name (sample_headers 4 8 4) (chars "in@n1 x:/d")
              (replicate 9 "#"%char) (replicate 5 "#"%char)
              (replicate 9 "#"%char)) as [rc [[l' h'] r']] eqn:E.
  vm_compute in E. injection E as <- <- <- <-.
  destruct T as (_ & _ & _ & T).
  split; [reflexivity|]. split; [reflexivity|].
  intros i. destruct (T ltac:(discriminate) i) as (Tl & Th & Tr).
  assert (Hno : forall n, replicate n "#"%char !! i <> Some NUL).
  { intros n Hn. apply lookup_replicate in Hn as [Hn _]. discriminate Hn. }
  repeat split; intros Hn;
    [apply Tl in Hn|apply Th in Hn|apply Tr in Hn]; by apply Hno in Hn.
Defined.

(** *** Reading the string *)

Lemma c_str_idem c : c_str (c_str c) = c_str c.
Proof.
  induction c as [|x c IH]; [done|]. cbn.
  destruct (Ascii.eqb x NUL) eqn:Ex; [done|]. cbn. by rewrite Ex, IH.
Qed.

Lemma deref_c_str c : deref (c_str c) = deref c.
Proof.
  destruct c as [|x c]; [done|]. cbn.
  destruct (Ascii.eqb x NUL) eqn:Ex; [|done]. apply Ascii.eqb_eq in Ex. by subst.
Qed.

Lemma tail_c_str c : deref c <> NUL -> tail (c_str c) = c_str (tail c).
Proof.
  destruct c as [|x c]; [done|]. cbn. intros Hx.
  apply Ascii.eqb_neq in Hx. by rewrite Hx.
Qed.

Lemma skip_space_c_str c : skip_space (c_str c) = c_str (skip_space c).
Proof.
  induction c as [|x c IH]; [done|]. cbn.
  destruct (Ascii.eqb x NUL) eqn:Ex.
  - apply Ascii.eqb_eq in Ex. subst x. cbn. done.
  - cbn. destruct (isspace x); [done|]. cbn. by rewrite Ex.
Qed.

(** A copying loop reads up to the terminator and no further. *)
Lemma scan_part_c_str p limit c : forall pos buf,
  scan_part p limit (c_str c) pos buf =
    match scan_part p limit c pos buf with
    | Overflow b => Overflow b
    | Stopped c' pos' b => Stopped (c_str c') pos' b
    end.
Proof.
  induction c as [|x c IH]; intros pos buf; [done|]. cbn.
  destruct (Ascii.eqb x NUL) eqn:Ex.
  - cbn. by rewrite Ex.
  - cbn. rewrite Ex. destruct (p x).
    + destruct (limit <=? pos)%nat; [done|]. apply IH.
    + cbn. by rewrite Ex.
Qed.

(** A copying loop takes the same steps whatever its array holds. *)
Lemma scan_part_any_buffer p limit c : forall pos buf buf',
  match scan_part p limit c pos buf, scan_part p limit c pos buf' with
  | Overflow _, Overflow _ => True
  | Stopped c1 p1 _, Stopped c2 p2 _ => c1 = c2 /\ p1 = p2
  | _, _ => False
  end.
Proof.
  induction c as [|x c IH]; intros pos buf buf'; cbn; [done|].
  destruct (Ascii.eqb x NUL); [done|]. destruct (p x); [|done].
  destruct (limit <=? pos)%nat; [done|]. apply IH.
Qed.

Section ParseStage_reads.
Context `{Headers}.

Lemma parse_stage_name_c_str s local_name host_name remote_name :
  parse_stage_name (c_str s) local_name host_name remote_name
  = parse_stage_name s local_name host_name remote_name.
Proof.
  unfold parse_stage_name.
  rewrite skip_space_c_str, scan_part_c_str.
  destruct (scan_part ISNAMECHAR MAXPATHLEN (skip_space s) 0 local_name)
    as [b|c1 l_pos b1]; [done|].
  destruct (l_pos =? 0)%nat; [done|].
  rewrite deref_c_str.
  destruct (Ascii.eqb (deref c1) "@") eqn:Eat.
  - apply Ascii.eqb_eq in Eat.
    rewrite tail_c_str by (by rewrite Eat). rewrite scan_part_c_str.
    destruct (scan_part ISNAMECHAR2 PBS_MAXSERVERNAME (tail c1) 0 host_name)
      as [b|c2 h_pos b2]; [done|].
    cbn [andb]. destruct (h_pos =? 0)%nat; [done|].
    rewrite deref_c_str.
    destruct (Ascii.eqb (deref c2) ":") eqn:Ecol.
    + apply Ascii.eqb_eq in Ecol.
      rewrite tail_c_str by (by rewrite Ecol). rewrite scan_part_c_str.
      destruct (scan_part ISNAMECHAR MAXPATHLEN (tail c2) 0 remote_name)
        as [b|c3 r_pos b3]; [done|].
      by rewrite deref_c_str.
    + by rewrite deref_c_str.
  - cbn [andb]. rewrite deref_c_str.
    destruct (Ascii.eqb (deref c1) ":") eqn:Ecol.
    + apply Ascii.eqb_eq in Ecol.
      rewrite tail_c_str by (by rewrite Ecol). rewrite scan_part_c_str.
      destruct (scan_part ISNAMECHAR MAXPATHLEN (tail c1) 0 remote_name)
        as [b|c3 r_pos b3]; [done|].
      by rewrite deref_c_str.
    + by rewrite deref_c_str.
Qed.

Lemma parse_stage_name_any_buffer pair ln hn rn ln' hn' rn' :
  fst (parse_stage_name pair ln hn rn) = fst (parse_stage_name pair ln' hn' rn').
Proof.
  unfold parse_stage_name.
  pose proof (scan_part_any_buffer ISNAMECHAR MAXPATHLEN (skip_space pair) 0 ln ln')
    as H1.
  destruct (scan_part ISNAMECHAR MAXPATHLEN (skip_space pair) 0 ln)
    as [b|c1 l_pos b1],
    (scan_part ISNAMECHAR MAXPATHLEN (skip_space pair) 0 ln')
    as [b'|c1' l_pos' b1']; try done.
  destruct H1 as [<- <-].
  destruct (l_pos =? 0)%nat; [done|].
  pose proof (scan_part_any_buffer ISNAMECHAR2 PBS_MAXSERVERNAME (tail c1) 0 hn hn')
    as H2.
  assert (Hhost :
    match (if Ascii.eqb (deref c1) "@"
           then scan_part ISNAMECHAR2 PBS_MAXSERVERNAME (tail c1) 0 hn
           else Stopped c1 0 hn),
          (if Ascii.eqb (deref c1) "@"
           then scan_part ISNAMECHAR2 PBS_MAXSERVERNAME (tail c1) 0 hn'
           else Stopped c1 0 hn') with
    | Overflow _, Overflow _ => True
    | Stopped c1 p1 _, Stopped c2 p2 _ => c1 = c2 /\ p1 = p2
    | _, _ => False
    end) by (by destruct (Ascii.eqb (deref c1) "@")).
  clear H2.
  destruct (if Ascii.eqb (deref c1) "@" then _ else Stopped c1 0 hn)
    as [b|c2 h_pos b2],
    (if Ascii.eqb (deref c1) "@" then _ else Stopped c1 0 hn')
    as [b'|c2' h_pos' b2']; try done.
  destruct Hhost as [<- <-].
  destruct (_ && _); [done|].
  pose proof (scan_part_any_buffer ISNAMECHAR MAXPATHLEN (tail c2) 0 rn rn') as H3.
  assert (Hrem :
    match (if Ascii.eqb (deref c2) ":"
           then scan_part ISNAMECHAR MAXPATHLEN (tail c2) 0 rn
           else Stopped c2 0 rn),
          (if Ascii.eqb (deref c2) ":"
           then scan_part ISNAMECHAR MAXPATHLEN (tail c2) 0 rn'
           else Stopped c2 0 rn') with
    | Overflow _, Overflow _ => True
    | Stopped c1 p1 _, Stopped c2 p2 _ => c1 = c2 /\ p1 = p2
    | _, _ => False
    end) by (by destruct (Ascii.eqb (deref c2) ":")).
  clear H3.
  destruct (if Ascii.eqb (deref c2) ":" then _ else Stopped c2 0 rn)
    as [b|c3 r_pos b3],
    (if Ascii.eqb (deref c2) ":" then _ else Stopped c2 0 rn')
    as [b'|c3' r_pos' b3']; try done.
  destruct Hrem as [<- <-].
  destruct (r_pos =? 0)%nat; [done|].
  by destruct (negb _).
Qed.

(** X24.  [parse_stage_name] reads its string up to the terminator and no
    further, and what it returns depends on nothing else: two strings that
    agree up to their terminators are parsed alike, with the same arrays
    into the same arrays, and with any arrays to the same verdict.  The
    function never looks at what the output arrays hold. *)
Theorem parse_stage_name_reads_to_terminator
    (pair pair' ln hn rn ln' hn' rn' : list ascii) :
  c_str pair = c_str pair' ->
  parse_stage_name pair ln hn rn = parse_stage_name pair' ln hn rn /\
  fst (parse_stage_name pair ln hn rn) = fst (parse_stage_name pair' ln' hn' rn').
Proof.
  intros Hp.
  assert (He : parse_stage_name pair ln hn rn = parse_stage_name pair' ln hn rn)
    by (by rewrite <- (parse_stage_name_c_str pair),
                   <- (parse_stage_name_c_str pair'), Hp).
  split; [done|]. rewrite He. apply parse_stage_name_any_buffer.
Qed.

End ParseStage_reads.

Lemma parse_stage_name_reads_to_terminator_witness :
  let room := replicate 9 "#"%char in
  @parse_stage_name (sample_headers 4 8 4)
    (chars "in@n1:/d" ++ NUL :: chars ",x@y:/z") room room room =
  @parse_stage_name (sample_headers 4 8 4) (chars "in@n1:/d") room room room.
Proof.
  exact (proj1 (@parse_stage_name_reads_to_terminator (sample_headers 4 8 4)
                  (chars "in@n1:/d" ++ NUL :: chars ",x@y:/z") (chars "in@n1:/d")
                  (replicate 9 "#"%char) (replicate 9 "#"%char) (replicate 9 "#"%char)
                  [] [] [] eq_refl)).
Defined.

(** ** Lists of stage pairs *)

Example stage_list_one :
  @parse_stage_list (sample_headers 4 8 4) true (chars "a@h:/r") = Returned 0.
Proof. reflexivity. Qed.
Example stage_list_two :
  @parse_stage_list (sample_headers 4 8 4) true (chars " a@h:/r , b@h:/x ") = Returned 0.
Proof. reflexivity. Qed.
Example stage_list_trailing_comma :
  @parse_stage_list (sample_headers 4 8 4) true (chars "a@h:/r,") = Returned 1.
Proof. reflexivity. Qed.
Example stage_list_blank :
  @parse_stage_list (sample_headers 4 8 4) true (chars "  ") = Undefined.
Proof. reflexivity. Qed.
Example stage_list_host_full :
  @parse_stage_list (sample_headers 4 8 4) true (chars "a@hhhh:/r") = Undefined.
Proof. reflexivity. Qed.
Example stage_list_escaped :
  @parse_stage_list (sample_headers 4 8 4) true (chars "a@h:/r\,b") = Returned 0.
Proof. reflexivity. Qed.
Example stage_list_double_comma :
  @parse_stage_list (sample_headers 4 8 4) true (chars "a@h:/r,,b@h:/r") = Returned 0.
Proof. reflexivity. Qed.
Example stage_list_blank_item :
  @parse_stage_list (sample_headers 4 8 4) true (chars "a@h:/r, ") = Returned 1.
Proof. reflexivity. Qed.

Lemma drop_leading_length c : forall before,
  (length (snd (drop_leading before c)) <= length c)%nat.
Proof.
  induction c as [|x c IH]; intros before; cbn; [lia|].
  destruct (isspace x); cbn; [|lia]. specialize (IH (x :: before)). lia.
Qed.

Lemma find_comma_length c : forall item,
  (length (snd (find_comma item c)) <= length c)%nat.
Proof.
  induction c as [|x c IH]; intros item; cbn; [lia|].
  destruct (Ascii.eqb x NUL); cbn; [lia|].
  destruct (_ && _); cbn; [lia|]. specialize (IH (x :: item)). lia.
Qed.

(** A round of the loop moves [c] forward. *)
Lemma round_advances before c :
  Ascii.eqb (deref c) NUL = false ->
  (length (snd (find_comma [] (snd (drop_leading before c)))) < length c)%nat.
Proof.
  destruct c as [|x c]; [done|]. cbn [deref]. intros Hx.
  cbn [drop_leading]. destruct (isspace x).
  - pose proof (find_comma_length (snd (drop_leading (x :: before) c)) []).
    pose proof (drop_leading_length c (x :: before)). cbn [length]. lia.
  - cbn [snd find_comma]. rewrite Hx. cbn [andb].
    rewrite andb_false_r.
    pose proof (find_comma_length c [x]). cbn [length]. lia.
Qed.

Section StageList_facts.
Context `{Headers}.

Lemma stage_items_finishes rounds : forall before c comma local host remote,
  (length c < rounds)%nat ->
  match stage_items rounds before c comma local host remote with
  | Returned rc => rc = 0 \/ rc = 1
  | Undefined => True
  | Unfinished => False
  end.
Proof.
  induction rounds as [|rounds IH]; intros before c comma local host remote Hc;
    [lia|].
  cbn [stage_items].
  destruct (Ascii.eqb (deref c) NUL) eqn:Ec; [destruct comma; auto|].
  pose proof (round_advances before c Ec) as Hadv.
  destruct (drop_leading before c) as [b1 c1]. cbn [snd] in Hadv.
  destruct (find_comma [] c1) as [item c2]. cbn [snd] in Hadv.
  destruct (drop_trailing (item ++ b1)) as [b2|]; [|done].
  destruct (parse_stage_name _ local host remote) as [rc [[l' h'] r']].
  destruct (nonzero rc); [auto|].
  destruct (strlen l') as [n|]; [|done]. destruct (n =? 0)%nat; [auto|].
  destruct (strlen h') as [n'|]; [|done]. destruct (n' =? 0)%nat; [auto|].
  destruct (strlen r') as [n''|]; [|done]. destruct (n'' =? 0)%nat; [auto|].
  destruct (Ascii.eqb (deref c2) ","); apply IH; destruct c2; cbn [length tail] in *; lia.
Qed.

Lemma stage_items_more rounds : forall before c comma local host remote extra,
  (length c < rounds)%nat ->
  stage_items (rounds + extra) before c comma local host remote =
  stage_items rounds before c comma local host remote.
Proof.
  induction rounds as [|rounds IH]; intros before c comma local host remote extra Hc;
    [lia|].
  cbn [Nat.add stage_items].
  destruct (Ascii.eqb (deref c) NUL) eqn:Ec; [done|].
  pose proof (round_advances before c Ec) as Hadv.
  destruct (drop_leading before c) as [b1 c1]. cbn [snd] in Hadv.
  destruct (find_comma [] c1) as [item c2]. cbn [snd] in Hadv.
  destruct (drop_trailing (item ++ b1)) as [b2|]; [|done].
  destruct (parse_stage_name _ local host remote) as [rc [[l' h'] r']].
  destruct (nonzero rc); [done|].
  destruct (strlen l') as [n|]; [|done]. destruct (n =? 0)%nat; [done|].
  destruct (strlen h') as [n'|]; [|done]. destruct (n' =? 0)%nat; [done|].
  destruct (strlen r') as [n''|]; [|done]. destruct (n'' =? 0)%nat; [done|].
  destruct (Ascii.eqb (deref c2) ","); apply IH; destruct c2; cbn [length tail] in *; lia.
Qed.

(** X16.  [parse_stage_list] ends: the loop moves [c] forward by at
    least one character a round, so the rounds granted (one more than the
    copy has characters) suffice, and granting more changes nothing.  When
    the run stays inside its arrays the value returned is 0 or 1. *)
Theorem parse_stage_list_finishes (enough_memory : bool) (list : list ascii) :
  parse_stage_list enough_memory list <> Unfinished /\
  (forall rc, parse_stage_list enough_memory list = Returned rc -> rc = 0 \/ rc = 1) /\
  (forall extra before comma local host remote,
     stage_items (S (length (c_str list)) + extra) before (c_str list) comma
       local host remote =
     stage_items (S (length (c_str list))) before (c_str list) comma
       local host remote).
Proof.
  split; [|split].
  - unfold parse_stage_list.
    destruct (length (c_str list) =? 0)%nat; [done|].
    destruct (negb enough_memory); [done|].
    pose proof (stage_items_finishes (S (length (c_str list))) [] (c_str list) false
                  (replicate (MAXPATHLEN + 1) NUL) (replicate PBS_MAXSERVERNAME NUL)
                  (replicate (MAXPATHLEN + 1) NUL) ltac:(lia)) as Hf.
    intros E. by rewrite E in Hf.
  - intros rc. unfold parse_stage_list.
    destruct (length (c_str list) =? 0)%nat; [intros [= <-]; by right|].
    destruct (negb enough_memory); [intros [= <-]; by right|].
    pose proof (stage_items_finishes (S (length (c_str list))) [] (c_str list) false
                  (replicate (MAXPATHLEN + 1) NUL) (replicate PBS_MAXSERVERNAME NUL)
                  (replicate (MAXPATHLEN + 1) NUL) ltac:(lia)) as Hf.
    intros E. by rewrite E in Hf.
  - intros. apply stage_items_more. lia.
Qed.

End StageList_facts.

Lemma drop_leading_app ws : forall before c,
  Forall (fun x => isspace x = true) ws -> isspace (deref c) = false ->
  drop_leading before (ws ++ c) = (rev ws ++ before, c).
Proof.
  induction ws as [|x ws IH]; intros before c Hws Hc.
  - destruct c as [|y c]; [done|]. cbn in *. by rewrite Hc.
  - inversion Hws as [|? ? Hx Hws']; subst. cbn [app drop_leading]. rewrite Hx.
    rewrite IH by done. cbn [rev]. by rewrite <- app_assoc.
Qed.

Lemma find_comma_app body : forall item rest,
  Forall (fun x => x <> NUL) body ->
  (forall i, body !! i = Some ","%char ->
     match i with
     | O => item = [] \/ deref item = "\"%char
     | S j => body !! j = Some "\"%char
     end) ->
  (rest = [] \/
   exists rest', rest = ","%char :: rest' /\ rev body ++ item <> [] /\
     deref (rev body ++ item) <> "\"%char) ->
  find_comma item (body ++ rest) = (rev body ++ item, rest).
Proof.
  induction body as [|x body IH]; intros item rest Hnul Hesc Hrest.
  - cbn [app rev] in *. destruct Hrest as [->|(rest' & -> & Hne & Hbs)]; [done|].
    cbn [find_comma]. change (Ascii.eqb "," NUL) with false.
    rewrite Ascii.eqb_refl. cbn [andb].
    destruct item as [|p item]; [done|]. cbn [deref] in Hbs.
    apply Ascii.eqb_neq in Hbs. by rewrite Hbs.
  - inversion Hnul as [|? ? Hx Hnul']; subst. cbn [app find_comma].
    apply Ascii.eqb_neq in Hx. rewrite Hx.
    assert (Hgo : Ascii.eqb x "," &&
                  match item with [] => false | p :: _ => negb (Ascii.eqb p "\") end
                  = false).
    { destruct (Ascii.eqb x ",") eqn:Ec; [|done]. apply Ascii.eqb_eq in Ec. subst x.
      cbn [andb]. destruct (Hesc 0%nat eq_refl) as [->|Hd]; [done|].
      destruct item as [|p item]; [done|]. cbn [deref] in Hd. subst p. done. }
    rewrite Hgo. rewrite IH; [cbn [rev]; by rewrite <- app_assoc|done| |].
    + intros [|j] Hj.
      * right. cbn [deref]. specialize (Hesc 1%nat Hj). cbn in Hesc. by simplify_eq.
      * exact (Hesc (S (S j)) Hj).
    + destruct Hrest as [->|(rest' & -> & Hne & Hbs)]; [by left|right].
      exists rest'. cbn [rev] in Hne, Hbs. rewrite <- app_assoc in Hne, Hbs.
      done.
Qed.

Lemma drop_trailing_app ws x b :
  Forall (fun x => isspace x = true) ws -> isspace x = false ->
  drop_trailing (ws ++ x :: b) = Some (replicate (length ws) NUL ++ x :: b).
Proof.
  intros Hws Hx. induction Hws as [|y ws Hy Hws IH]; cbn.
  - by rewrite Hx.
  - by rewrite Hy, IH.
Qed.

Lemma strlen_c_str buf : forall n,
  buf !! n = Some NUL -> strlen buf = Some (length (c_str buf)).
Proof.
  induction buf as [|x buf IH]; intros n Hn; [done|]. cbn.
  destruct (Ascii.eqb x NUL) eqn:Ex; [done|].
  destruct n as [|n]; cbn in Hn.
  - by simplify_eq.
  - by rewrite (IH n Hn).
Qed.

Lemma strlen_None buf : Forall (fun x => x <> NUL) buf -> strlen buf = None.
Proof.
  induction 1 as [|x buf Hx Hb IH]; [done|]. cbn.
  apply Ascii.eqb_neq in Hx. by rewrite Hx, IH.
Qed.

Lemma strlen_terminated p l buf :
  Forall (taken p) l -> (length l < length buf)%nat ->
  strlen (<[length l := NUL]> (write_at 0 l buf)) = Some (length l).
Proof.
  intros Hl Hlen. destruct (terminated_copy p l buf Hl Hlen) as [Hn Hc].
  rewrite (strlen_c_str _ _ Hn). by rewrite Hc.
Qed.

Lemma strlen_full p l buf :
  Forall (taken p) l -> length l = length buf ->
  strlen (<[length l := NUL]> (write_at 0 l buf)) = None.
Proof.
  intros Hl Hlen.
  rewrite list_insert_ge by (rewrite length_write_at; lia).
  pose proof (write_at_app l [] buf ltac:(lia)) as Hw. cbn in Hw. rewrite Hw.
  rewrite drop_ge by lia. rewrite app_nil_r.
  apply strlen_None. by eapply taken_not_NUL.
Qed.

Lemma commas_escaped_trail b t :
  commas_escaped b -> Forall (fun x => isspace x = true) t ->
  commas_escaped (b ++ t).
Proof.
  intros Hb Ht i Hi.
  destruct (decide (S i < length b)%nat) as [Hlt|Hge].
  - rewrite lookup_app_l in Hi by done. rewrite lookup_app_l by lia. by apply Hb.
  - rewrite lookup_app_r in Hi by lia.
    rewrite Forall_forall in Ht.
    by specialize (Ht _ (list_elem_of_lookup_2 _ _ _ Hi)).
Qed.

Lemma last_app_blank b t x :
  last (b ++ t) = Some x -> t <> [] ->
  Forall (fun x => isspace x = true) t -> isspace x = true.
Proof.
  intros Hl Ht Hb. destruct (exists_last Ht) as (t' & y & ->).
  rewrite app_assoc, last_snoc in Hl. simplify_eq.
  rewrite Forall_app in Hb. destruct Hb as [_ Hb]. by inversion Hb.
Qed.

Lemma deref_rev l : deref (rev l) = default NUL (last l).
Proof.
  destruct (decide (l = [])) as [->|Hne]; [done|].
  destruct (exists_last Hne) as (l' & y & ->).
  by rewrite rev_app_distr, last_snoc.
Qed.

Lemma rev_replicate {A} n (x : A) : rev (replicate n x) = replicate n x.
Proof.
  induction n as [|n IH]; [done|].
  cbn [replicate rev]. rewrite IH. by rewrite <- replicate_cons_app.
Qed.

Section StageList_pairs.
Context `{Headers}.

Lemma stage_round p rounds before rest comma0 local host remote :
  well_shaped p ->
  (rest = [] \/ exists rest', rest = ","%char :: rest') ->
  length local = (MAXPATHLEN + 1)%nat -> length host = PBS_MAXSERVERNAME ->
  length remote = (MAXPATHLEN + 1)%nat ->
  let run := stage_items (S rounds) before (text p ++ rest) comma0 local host remote in
  if fits p then
    if (length (host_part p) <? PBS_MAXSERVERNAME)%nat then
      exists before' local' host' remote',
        length local' = (MAXPATHLEN + 1)%nat /\ length host' = PBS_MAXSERVERNAME /\
        length remote' = (MAXPATHLEN + 1)%nat /\
        run = stage_items rounds before' (tail rest) (Ascii.eqb (deref rest) ",")
                local' host' remote'
    else run = Undefined
  else run = Returned 1.
Proof.
  intros (Hlead & Htrail & Hl0 & Hsp & Hl & Hh & Hr & Hlast & Hesc & Hbs)
         Hrest Hlen_l Hlen_h Hlen_r.
  destruct p as [ws l h r ws']. unfold text, body, fits in *.
  cbn [lead local_part host_part remote_part trail] in *.
  cbv zeta. cbn [stage_items].
  set (b := l ++ "@"%char :: h ++ ":"%char :: r) in *.
  assert (Hb0 : exists x b', b = x :: b' /\ isspace x = false /\ x <> NUL).
  { destruct l as [|x l']; [done|]. exists x, (l' ++ "@"%char :: h ++ ":"%char :: r).
    split; [done|]. split; [done|]. inversion Hl as [|? ? [_ Hx] _]. done. }
  destruct Hb0 as (x0 & b' & Hb & Hx0 & Hx0').
  assert (Hnul : Forall (fun x => x <> NUL) (b ++ ws')).
  { apply Forall_app. split; [|by apply blank_not_NUL].
    unfold b. apply Forall_app. split; [by eapply taken_not_NUL|].
    constructor; [done|]. apply Forall_app. split; [by eapply taken_not_NUL|].
    constructor; [done|]. by eapply taken_not_NUL. }
  assert (Hentry : Ascii.eqb (deref ((ws ++ b ++ ws') ++ rest)) NUL = false).
  { apply Ascii.eqb_neq. destruct ws as [|y ws].
    - rewrite Hb. done.
    - cbn. inversion Hlead as [|? ? Hy _]. by intros ->. }
  rewrite Hentry.
  replace ((ws ++ b ++ ws') ++ rest) with (ws ++ ((b ++ ws') ++ rest))
    by (by rewrite <- !app_assoc).
  rewrite drop_leading_app; [|done|by rewrite Hb].
  rewrite find_comma_app; [|done| |].
  2:{ intros [|j] Hj; [by left|].
      by apply (commas_escaped_trail b ws' Hesc Htrail). }
  2:{ destruct Hrest as [->|(rest' & ->)]; [by left|right].
      exists rest'. split; [done|]. rewrite app_nil_r.
      split. { intros Hnil. apply (f_equal (@rev _)) in Hnil.
               rewrite rev_involutive, Hb in Hnil. done. }
      rewrite deref_rev. intros Hd.
      destruct (last (b ++ ws')) as [y|] eqn:Ey; cbn in Hd; [subst y|done].
      destruct (decide (ws' = [])) as [->|Hne].
      - rewrite app_nil_r in Ey. done.
      - by pose proof (last_app_blank _ _ _ Ey Hne Htrail). }
  rewrite app_nil_r.
  assert (Hrb : exists y rb, rev b = y :: rb /\ isspace y = false).
  { destruct (exists_last (l := b)) as (b0 & y & Eb); [by rewrite Hb|].
    exists y, (rev b0). rewrite Eb, rev_app_distr. split; [done|].
    destruct (decide (r = [])) as [->|Hr0].
    - unfold b in Eb. rewrite app_comm_cons, app_assoc in Eb.
      change [":"%char] with ([] ++ [":"%char]) in Eb at 1.
      apply app_inj_tail in Eb as [_ <-]. done.
    - destruct (exists_last Hr0) as (r0 & z & ->).
      unfold b in Eb.
      replace (l ++ "@"%char :: h ++ ":"%char :: r0 ++ [z])
        with ((l ++ "@"%char :: h ++ ":"%char :: r0) ++ [z]) in Eb
        by (rewrite <- !app_assoc; cbn; by rewrite <- !app_assoc).
      apply app_inj_tail in Eb as [_ <-].
      apply Hlast. by rewrite last_snoc. }
  destruct Hrb as (y & rb & Erb & Hy).
  rewrite rev_app_distr, <- app_assoc, Erb. cbn [app].
  rewrite drop_trailing_app; [|by apply Forall_rev|done].
  rewrite !length_rev.
  set (c3 := match rest with [] => [] | _ :: c' => NUL :: c' end).
  assert (Hs : rev (take (length (rev ws' ++ y :: rb))
                      (replicate (length ws') NUL ++ y :: rb ++ rev ws ++ before))
               ++ c3
               = [] ++ l ++ "@"%char :: h ++ ":"%char :: r ++
                 (replicate (length ws') NUL ++ c3)).
  { replace (replicate (length ws') NUL ++ y :: rb ++ rev ws ++ before)
      with ((replicate (length ws') NUL ++ y :: rb) ++ rev ws ++ before)
      by (by rewrite <- app_assoc).
    rewrite take_app_length'
      by (rewrite !length_app, length_rev, length_replicate; done).
    rewrite rev_app_distr, rev_replicate, <- Erb, rev_involutive.
    unfold b. cbn [app]. rewrite <- !app_assoc. cbn [app].
    by rewrite <- !app_assoc. }
  rewrite Hs.
  assert (Hstop : deref (replicate (length ws') NUL ++ c3) = NUL).
  { destruct ws'; [|done]. cbn. unfold c3. by destruct rest. }
  pose proof (parse_stage_name_shape [] l h r _ local host remote
                ltac:(constructor) Hl0 Hsp Hl Hh Hr Hstop) as Hp.
  cbv zeta in Hp.
  destruct ((length l <=? MAXPATHLEN)%nat && negb (length h =? 0)%nat &&
            (length h <=? PBS_MAXSERVERNAME)%nat && negb (length r =? 0)%nat &&
            (length r <=? MAXPATHLEN)%nat) eqn:Efit.
  2:{ destruct (parse_stage_name _ local host remote) as [rc [[l' h'] r']].
      cbn [fst] in Hp. subst rc. done. }
  rewrite Hp. change (nonzero 0) with false. cbv iota beta.
  repeat (apply andb_true_iff in Efit as [Efit ?]).
  repeat match goal with
  | Hz : (_ <=? _)%nat = true |- _ => apply Nat.leb_le in Hz
  | Hz : negb (_ =? _)%nat = true |- _ =>
      apply negb_true_iff in Hz; apply Nat.eqb_neq in Hz
  end.
  rewrite (strlen_terminated _ l local Hl) by lia.
  replace (length l =? 0)%nat with false
    by (symmetry; apply Nat.eqb_neq; by destruct l).
  destruct (length h <? PBS_MAXSERVERNAME)%nat eqn:Eh.
  2:{ apply Nat.ltb_ge in Eh.
      rewrite (strlen_full _ h host Hh) by lia. done. }
  apply Nat.ltb_lt in Eh.
  rewrite (strlen_terminated _ h host Hh) by lia.
  replace (length h =? 0)%nat with false by (symmetry; by apply Nat.eqb_neq).
  rewrite (strlen_terminated _ r remote Hr) by lia.
  replace (length r =? 0)%nat with false by (symmetry; by apply Nat.eqb_neq).
  assert (Hlens : forall n x buf, length (<[n := NUL]> (write_at 0 x buf)) = length buf).
  { intros. by rewrite length_insert, length_write_at. }
  destruct Hrest as [->|(rest' & ->)]; unfold c3; cbn [deref tail].
  - change (Ascii.eqb NUL ",") with false. cbv iota beta.
    eexists _, _, _, _. split; [|split; [|split; [|reflexivity]]].
    all: by rewrite Hlens.
  - rewrite Ascii.eqb_refl. cbv iota beta.
    eexists _, _, _, _. split; [|split; [|split; [|reflexivity]]].
    all: by rewrite Hlens.
Qed.


Lemma text_no_NUL p : well_shaped p -> Forall (fun x => x <> NUL) (text p).
Proof.
  intros (Hlead & Htrail & _ & _ & Hl & Hh & Hr & _). unfold text, body.
  apply Forall_app. split; [by apply blank_not_NUL|].
  apply Forall_app. split; [|by apply blank_not_NUL].
  apply Forall_app. split; [by eapply taken_not_NUL|].
  constructor; [done|]. apply Forall_app. split; [by eapply taken_not_NUL|].
  constructor; [done|]. by eapply taken_not_NUL.
Qed.

Lemma text_not_nil p : well_shaped p -> (0 < length (text p))%nat.
Proof.
  intros (_ & _ & Hl0 & _). unfold text, body. rewrite !length_app.
  destruct (local_part p); [done|]. cbn [length]. lia.
Qed.

Lemma separated_cons t more :
  separated (t :: more) =
    t ++ match more with [] => [] | _ => ","%char :: separated more end.
Proof. destruct more; cbn [separated]; by rewrite ?app_nil_r. Qed.

Lemma separated_no_NUL ps :
  Forall well_shaped ps -> Forall (fun x => x <> NUL) (separated (map text ps)).
Proof.
  induction 1 as [|p ps Hp Hps IH]; [constructor|].
  cbn [map]. rewrite separated_cons. apply Forall_app.
  split; [by apply text_no_NUL|]. destruct (map text ps); [constructor|].
  by constructor.
Qed.

Lemma c_str_no_NUL l : Forall (fun x => x <> NUL) l -> c_str l = l.
Proof.
  intros Hl. rewrite <- (app_nil_r l) at 1. by apply c_str_stop.
Qed.

Lemma stage_items_pairs ps (trailing : bool) :
  forall rounds before comma0 local host remote,
  Forall well_shaped ps -> ps <> [] ->
  length local = (MAXPATHLEN + 1)%nat -> length host = PBS_MAXSERVERNAME ->
  length remote = (MAXPATHLEN + 1)%nat ->
  (length (separated (map text ps) ++ (if trailing then [","%char] else []))
     < rounds)%nat ->
  stage_items rounds before
    (separated (map text ps) ++ (if trailing then [","%char] else []))
    comma0 local host remote = verdict ps trailing.
Proof.
  induction ps as [|p more IH];
    intros rounds before comma0 local host remote Hps Hne Hl Hh Hr Hrounds; [done|].
  inversion Hps as [|? ? Hp Hmore]; subst.
  cbn [map] in *. rewrite separated_cons in *.
  rewrite <- app_assoc in *. rewrite length_app in Hrounds.
  pose proof (text_not_nil p Hp) as Hp0.
  destruct rounds as [|rounds]; [lia|].
  set (rest := match map text more with
               | [] => []
               | _ :: _ => ","%char :: separated (map text more)
               end ++ (if trailing then [","%char] else [])) in *.
  assert (Hrest : rest = [] \/ exists rest', rest = ","%char :: rest').
  { unfold rest. destruct (map text more); [|right; by eexists].
    destruct trailing; [right; by eexists|by left]. }
  pose proof (stage_round p rounds before rest comma0 local host remote
                Hp Hrest Hl Hh Hr) as Hround.
  cbv zeta in Hround. cbn [verdict].
  destruct (fits p); [|done].
  destruct (length (host_part p) <? PBS_MAXSERVERNAME)%nat; [|done].
  destruct Hround as (b' & l' & h' & r' & Hl' & Hh' & Hr' & ->).
  destruct more as [|q more].
  - cbn [map verdict] in *. unfold rest. cbn [app].
    destruct rounds as [|rounds]; [lia|].
    by destruct trailing.
  - unfold rest in *. cbn [map app deref tail length] in *. rewrite Ascii.eqb_refl.
    apply IH; try done. lia.
Qed.

Lemma within_limits_fits p :
  within_limits p ->
  fits p = true /\ (length (host_part p) <? PBS_MAXSERVERNAME)%nat = true.
Proof.
  intros (H1 & H2 & H3 & H4 & H5). unfold fits.
  replace (length (local_part p) <=? MAXPATHLEN)%nat with true
    by (symmetry; by apply Nat.leb_le).
  replace (length (host_part p) <=? PBS_MAXSERVERNAME)%nat with true
    by (symmetry; apply Nat.leb_le; lia).
  replace (length (remote_part p) <=? MAXPATHLEN)%nat with true
    by (symmetry; by apply Nat.leb_le).
  replace (length (host_part p) =? 0)%nat with false
    by (symmetry; apply Nat.eqb_neq; by destruct (host_part p)).
  replace (length (remote_part p) =? 0)%nat with false
    by (symmetry; apply Nat.eqb_neq; by destruct (remote_part p)).
  split; [done|]. by apply Nat.ltb_lt.
Qed.

Lemma verdict_within ps trailing :
  Forall within_limits ps -> verdict ps trailing = Returned (if trailing then 1 else 0).
Proof.
  induction 1 as [|p ps Hp Hps IH]; [done|].
  cbn [verdict]. destruct (within_limits_fits p Hp) as [-> ->]. done.
Qed.

Lemma verdict_first good bad more trailing :
  Forall within_limits good ->
  verdict (good ++ bad :: more) trailing = verdict (bad :: more) trailing.
Proof.
  induction 1 as [|p ps Hp Hps IH]; [done|].
  cbn [app]. change (verdict (p :: ps ++ bad :: more) trailing)
    with (if fits p then
            if (length (host_part p) <? PBS_MAXSERVERNAME)%nat
            then verdict (ps ++ bad :: more) trailing else Undefined
          else Returned 1).
  destruct (within_limits_fits p Hp) as [-> ->]. done.
Qed.

Lemma parse_stage_list_pairs ps (trailing : bool) :
  Forall well_shaped ps -> ps <> [] ->
  parse_stage_list true
    (separated (map text ps) ++ (if trailing then [","%char] else [])) =
  verdict ps trailing.
Proof.
  intros Hps Hne. unfold parse_stage_list.
  assert (Hnul : Forall (fun x => x <> NUL)
            (separated (map text ps) ++ (if trailing then [","%char] else []))).
  { apply Forall_app. split; [by apply separated_no_NUL|].
    destruct trailing; by repeat constructor. }
  rewrite (c_str_no_NUL _ Hnul).
  assert (Hpos : (0 < length (separated (map text ps)))%nat).
  { destruct ps as [|p ps]; [done|]. inversion Hps as [|? ? Hp _]; subst.
    cbn [map]. rewrite separated_cons, length_app.
    pose proof (text_not_nil p Hp). lia. }
  replace (length _ =? 0)%nat with false
    by (symmetry; apply Nat.eqb_neq; rewrite length_app; lia).
  cbn [negb].
  apply (stage_items_pairs ps trailing); rewrite ?length_replicate; try done. lia.
Qed.

(** X17.  A list of pairs written as the parser reads them, each within
    the limits, separated by commas (blanks around a pair are dropped,
    escaped commas stay in the names) is accepted: [parse_stage_list]
    returns 0.  The same list with a comma after the last pair is refused:
    it returns 1. *)
Theorem parse_stage_list_accepts (ps : list pair_text) :
  ps <> [] -> Forall well_shaped ps -> Forall within_limits ps ->
  parse_stage_list true (separated (map text ps)) = Returned 0 /\
  parse_stage_list true (separated (map text ps) ++ [","%char]) = Returned 1.
Proof.
  intros Hne Hps Hin. split.
  - rewrite <- (app_nil_r (separated _)).
    rewrite (parse_stage_list_pairs ps false Hps Hne). by apply verdict_within.
  - rewrite (parse_stage_list_pairs ps true Hps Hne). by apply verdict_within.
Qed.

(** X18.  In a list of pairs written as the parser reads them, the first
    pair out of the limits decides: if its local or remote name is longer
    than [MAXPATHLEN], its host longer than [PBS_MAXSERVERNAME], or its host
    or remote name empty, [parse_stage_list] returns 1, whatever comes after
    it. *)
Theorem parse_stage_list_rejects (good : list pair_text) (bad : pair_text)
    (more : list pair_text) :
  Forall well_shaped (good ++ bad :: more) -> Forall within_limits good ->
  (MAXPATHLEN < length (local_part bad))%nat \/ host_part bad = [] \/
  (PBS_MAXSERVERNAME < length (host_part bad))%nat \/ remote_part bad = [] \/
  (MAXPATHLEN < length (remote_part bad))%nat ->
  parse_stage_list true (separated (map text (good ++ bad :: more))) = Returned 1.
Proof.
  intros Hps Hgood Hbad.
  rewrite <- (app_nil_r (separated _)).
  rewrite (parse_stage_list_pairs _ false Hps) by (by destruct good).
  rewrite verdict_first by done. cbn [verdict].
  replace (fits bad) with false; [done|]. symmetry. unfold fits.
  destruct Hbad as [Hb|[Hb|[Hb|[Hb|Hb]]]].
  - replace (length (local_part bad) <=? MAXPATHLEN)%nat with false
      by (symmetry; apply Nat.leb_gt; lia). done.
  - rewrite Hb. cbn. by rewrite andb_false_r.
  - replace (length (host_part bad) <=? PBS_MAXSERVERNAME)%nat with false
      by (symmetry; apply Nat.leb_gt; lia). by rewrite !andb_false_r.
  - rewrite Hb. cbn. by rewrite !andb_false_r.
  - replace (length (remote_part bad) <=? MAXPATHLEN)%nat with false
      by (symmetry; apply Nat.leb_gt; lia). by rewrite !andb_false_r.
Qed.

(** X19.  A host name of exactly [PBS_MAXSERVERNAME] characters passes
    [parse_stage_name], which fills the host array with it and puts the
    terminator at index [PBS_MAXSERVERNAME].  In [parse_stage_list] the array
    is [host[PBS_MAXSERVERNAME]]: the terminator falls outside it, the array
    holds none, and the [strlen(host)] that follows reads past its end.  The
    run is undefined on the first such pair, the pairs before it being
    within the limits. *)
Theorem parse_stage_list_host_fills_array (good : list pair_text) (full : pair_text)
    (more : list pair_text) :
  Forall well_shaped (good ++ full :: more) -> Forall within_limits good ->
  (length (local_part full) <= MAXPATHLEN)%nat ->
  host_part full <> [] -> length (host_part full) = PBS_MAXSERVERNAME ->
  remote_part full <> [] -> (length (remote_part full) <= MAXPATHLEN)%nat ->
  (forall ln hn rn, length hn = PBS_MAXSERVERNAME ->
     let '(rc, (_, h', _)) := parse_stage_name (body full) ln hn rn in
     rc = 0 /\ h' = host_part full /\ strlen h' = None) /\
  parse_stage_list true (separated (map text (good ++ full :: more))) = Undefined.
Proof.
  intros Hps Hgood H1 H2 H3 H4 H5.
  assert (Hfit : fits full = true).
  { unfold fits.
    replace (length (local_part full) <=? MAXPATHLEN)%nat with true
      by (symmetry; by apply Nat.leb_le).
    replace (length (host_part full) <=? PBS_MAXSERVERNAME)%nat with true
      by (symmetry; apply Nat.leb_le; lia).
    replace (length (remote_part full) <=? MAXPATHLEN)%nat with true
      by (symmetry; by apply Nat.leb_le).
    replace (length (host_part full) =? 0)%nat with false
      by (symmetry; apply Nat.eqb_neq; by destruct (host_part full)).
    replace (length (remote_part full) =? 0)%nat with false
      by (symmetry; apply Nat.eqb_neq; by destruct (remote_part full)).
    done. }
  split.
  - intros ln hn rn Hhn.
    apply Forall_app in Hps as [_ Hps]. inversion Hps as [|? ? Hp _]; subst.
    destruct Hp as (_ & _ & Hl0 & Hsp & Hl & Hh & Hr & _).
    pose proof (parse_stage_name_shape [] _ _ _ [] ln hn rn
                  ltac:(constructor) Hl0 Hsp Hl Hh Hr eq_refl) as Hp.
    cbv zeta in Hp. unfold fits in Hfit. rewrite Hfit in Hp.
    rewrite app_nil_r in Hp. cbn [app] in Hp. unfold body. rewrite Hp.
    split; [done|].
    assert (Hfull : <[length (host_part full):=NUL]> (write_at 0 (host_part full) hn)
                    = host_part full).
    { rewrite list_insert_ge by (rewrite length_write_at; lia).
      pose proof (write_at_app (host_part full) [] hn ltac:(lia)) as Hw.
      cbn in Hw. rewrite Hw. rewrite drop_ge by lia. by rewrite app_nil_r. }
    rewrite Hfull. split; [done|].
    apply strlen_None. by eapply taken_not_NUL.
  - rewrite <- (app_nil_r (separated _)).
    rewrite (parse_stage_list_pairs _ false Hps) by (by destruct good).
    rewrite verdict_first by done. cbn [verdict]. rewrite Hfit.
    replace (length (host_part full) <? PBS_MAXSERVERNAME)%nat with false
      by (symmetry; apply Nat.ltb_ge; lia).
    done.
Qed.

(** X20.  On a list that is not empty and made of blanks only,
    [parse_stage_list] leaves its copy of the list: the loop that drops
    trailing blanks, started at [c - 1], walks back over every blank of the
    copy and reads the character in front of [l[0]]. *)
Theorem parse_stage_list_blank (ws : list ascii) :
  ws <> [] -> Forall (fun x => isspace x = true) ws ->
  parse_stage_list true ws = Undefined.
Proof.
  intros Hne Hws. unfold parse_stage_list.
  rewrite (c_str_no_NUL ws) by (by apply blank_not_NUL).
  replace (length ws =? 0)%nat with false
    by (symmetry; apply Nat.eqb_neq; by destruct ws).
  cbn [negb stage_items].
  replace (Ascii.eqb (deref ws) NUL) with false.
  2:{ symmetry. apply Ascii.eqb_neq. destruct ws as [|x ws]; [done|].
      inversion Hws as [|? ? Hx _]. cbn. by intros ->. }
  rewrite <- (app_nil_r ws) at 1. rewrite drop_leading_app by done.
  cbn [find_comma app]. rewrite app_nil_r.
  assert (Hd : forall l, Forall (fun x => isspace x = true) l -> drop_trailing l = None).
  { induction 1 as [|x l Hx Hl IH]; [done|]. cbn. by rewrite Hx, IH. }
  rewrite Hd; [done|]. by apply Forall_rev.
Qed.

End StageList_pairs.

(** Two pairs with blanks around the first and an escaped comma in the
    second; a pair without host; a pair whose host has four characters. *)
Lemma sample_pairs_shaped :
  Forall well_shaped
    [ mk_pair_text [" "%char] (chars "a") (chars "h") (chars "/r") [" "%char];
      mk_pair_text [] (chars "b") (chars "h") (chars "/x\,y") [];
      mk_pair_text [] (chars "c") [] (chars "/z") [];
      mk_pair_text [] (chars "d") (chars "hhhh") (chars "/w") [] ].
Proof.
  repeat constructor; try done.
  all: try (intros x [= <-]; reflexivity).
  all: try all_taken.
  all: intros i Hi; do 12 (try destruct i as [|i]); done.
Qed.

Lemma parse_stage_list_accepts_witness :
  @parse_stage_list (sample_headers 4 8 4) true (chars " a@h:/r ,b@h:/x\,y")
    = Returned 0 /\
  @parse_stage_list (sample_headers 4 8 4) true (chars " a@h:/r ,b@h:/x\,y,")
    = Returned 1.
Proof.
  refine (@parse_stage_list_accepts (sample_headers 4 8 4)
            [ mk_pair_text [" "%char] (chars "a") (chars "h") (chars "/r") [" "%char];
              mk_pair_text [] (chars "b") (chars "h") (chars "/x\,y") [] ]
            _ _ _).
  - discriminate.
  - pose proof sample_pairs_shaped as Hs.
    inversion Hs as [|? ? H1 Hs1]; subst. inversion Hs1 as [|? ? H2 _]; subst.
    constructor; [exact H1|]. constructor; [exact H2|]. constructor.
  - repeat constructor; cbn; (lia || discriminate).
Defined.

Lemma parse_stage_list_rejects_witness :
  @parse_stage_list (sample_headers 4 8 4) true
    (chars " a@h:/r ,b@h:/x\,y,c@:/z,d@hhhh:/w") = Returned 1.
Proof.
  refine (@parse_stage_list_rejects (sample_headers 4 8 4)
            [ mk_pair_text [" "%char] (chars "a") (chars "h") (chars "/r") [" "%char];
              mk_pair_text [] (chars "b") (chars "h") (chars "/x\,y") [] ]
            (mk_pair_text [] (chars "c") [] (chars "/z") [])
            [ mk_pair_text [] (chars "d") (chars "hhhh") (chars "/w") [] ]
            sample_pairs_shaped _ _).
  - repeat constructor; cbn; (lia || discriminate).
  - right. left. reflexivity.
Defined.

Lemma parse_stage_list_host_fills_array_witness :
  @parse_stage_list (sample_headers 4 8 4) true (chars "d@hhhh:/w") = Undefined.
Proof.
  pose proof sample_pairs_shaped as Hs.
  do 3 (inversion Hs as [|? ? _ Hs']; subst; clear Hs; rename Hs' into Hs).
  refine (proj2 (@parse_stage_list_host_fills_array (sample_headers 4 8 4)
            [] (mk_pair_text [] (chars "d") (chars "hhhh") (chars "/w") []) []
            Hs _ _ _ _ _ _)).
  - constructor.
  - cbn. lia.
  - discriminate.
  - reflexivity.
  - discriminate.
  - cbn. lia.
Defined.

Lemma parse_stage_list_blank_witness :
  @parse_stage_list (sample_headers 4 8 4) true (chars "  ") = Undefined.
Proof.
  apply (@parse_stage_list_blank (sample_headers 4 8 4) (chars "  ")).
  - discriminate.
  - repeat constructor.
Defined.

Section StageList_presence.
Context `{Headers}.

(** X25.  The three tests of [parse_stage_list] that "make sure all parts
    of the item are present" cannot fail: when [parse_stage_name] has
    returned 0 on the arrays of [parse_stage_list], [strlen(local)] and
    [strlen(remote)] are positive, and so is [strlen(host)] unless the host
    name fills its array, which then holds no terminator. *)
Theorem parse_stage_list_presence_tests (pair local host remote : list ascii) :
  length local = (MAXPATHLEN + 1)%nat -> length host = PBS_MAXSERVERNAME ->
  length remote = (MAXPATHLEN + 1)%nat ->
  let '(rc, (local', host', remote')) := parse_stage_name pair local host remote in
  rc = 0 ->
  (exists n, strlen local' = Some (S n)) /\
  (exists n, strlen remote' = Some (S n)) /\
  ((exists n, strlen host' = Some (S n)) \/
   (strlen host' = None /\ length (c_str host') = PBS_MAXSERVERNAME)).
Proof.
  intros Hl Hh Hr.
  pose proof (parse_stage_name_accepts pair local host remote) as Ha.
  destruct (parse_stage_name pair local host remote) as [rc [[l' h'] r']].
  destruct Ha as [_ Ha]. intros Hrc.
  destruct (Ha Hrc) as (ws & l & h & r & rest & _ & _ & _ & Htl & Hth & Htr
                         & Hl0 & Hh0 & Hr0 & Hll & Hlh & Hlr & -> & -> & ->).
  split; [|split].
  - rewrite (strlen_terminated _ l local Htl) by lia.
    destruct l; [done|]. by eexists.
  - rewrite (strlen_terminated _ r remote Htr) by lia.
    destruct r; [done|]. by eexists.
  - destruct (decide (length h < PBS_MAXSERVERNAME)%nat) as [Hlt|Hge].
    + left. rewrite (strlen_terminated _ h host Hth) by lia.
      destruct h; [done|]. by eexists.
    + right. rewrite (strlen_full _ h host Hth) by lia. split; [done|].
      rewrite list_insert_ge by (rewrite length_write_at; lia).
      pose proof (write_at_app h [] host ltac:(lia)) as Hw. cbn in Hw. rewrite Hw.
      rewrite drop_ge by lia. rewrite app_nil_r.
      rewrite c_str_no_NUL by (by eapply taken_not_NUL). lia.
Qed.

End StageList_presence.

Lemma parse_stage_list_presence_tests_witness :
  let '(rc, (local', host', remote')) :=
    @parse_stage_name (sample_headers 4 8 4) (chars "in@n1:/d")
      (replicate 9 NUL) (replicate 4 NUL) (replicate 9 NUL) in
  rc = 0 /\ strlen local' = Some 2%nat /\ strlen host' = Some 2%nat /\
  exists n, strlen remote' = Some (S n).
Proof.
  pose proof (@parse_stage_list_presence_tests (sample_headers 4 8 4)
                (chars "in@n1:/d") (replicate 9 NUL) (replicate 4 NUL)
                (replicate 9 NUL) eq_refl eq_refl eq_refl) as T.
  destruct (@parse_stage_name (sample_headers 4 8 4) (chars "in@n1:/d")
              (replicate 9 NUL) (replicate 4 NUL) (replicate 9 NUL))
    as [rc [[l' h'] r']] eqn:E.
  vm_compute in E. injection E as <- <- <- <-.
  destruct (T eq_refl) as (_ & Hrem & _).
  split; [reflexivity|]. split; [reflexivity|]. split; [reflexivity|exact Hrem].
Defined.

(** ** The command qdisable *)

Example qdisable_two_destinations :
  let '(status, w') := @Qdisable.main Qdisable.sample_headers Qdisable.one_server_down
                         ["qdisable"; "down"; "up"] Qdisable.start in
  status = 2 /\
  map fst (Qdisable.trace w') =
    [ Qdisable.C_PRINT_VERSION_AND_EXIT 3 ["qdisable"; "down"; "up"];
      Qdisable.C_CS_client_init;
      Qdisable.C_parse_destination_id "down";
      Qdisable.C_cnt2server (Some "down");
      Qdisable.C_fprintf_stderr
        ("qdisable: could not connect to server %s (%d)" ++ Qdisable.nl)
        [Qdisable.Str (Some "down"); Qdisable.Int 15010];
      Qdisable.C_parse_destination_id "up";
      Qdisable.C_cnt2server (Some "up");
      Qdisable.C_pbs_manager 5 2 1 (Some "workq")
        [Qdisable.mk_attropl "enabled" None "FALSE" 0] None;
      Qdisable.C_pbs_disconnect 5;
      Qdisable.C_CS_close_app ].
Proof. vm_compute. done. Qed.

Section Qdisable_facts.
Import Qdisable.
Context `{Qdisable.Headers} `{Qdisable.Collaborators}.

Lemma qwp_ret {A} (a : A) Q w : Q a w -> Qdisable.wp (Qdisable.ret a) Q w.
Proof. exact id. Qed.

Lemma qwp_bind {A B} (m : Qdisable.M A) (k : A -> Qdisable.M B) Q w :
  Qdisable.wp m (fun a w' => Qdisable.wp (k a) Q w') w ->
  Qdisable.wp (Qdisable.bind m k) Q w.
Proof. unfold Qdisable.wp, Qdisable.bind. destruct (m w). exact id. Qed.

Lemma qwp_gets {A} (f : process -> A) Q w : Q (f w) w -> Qdisable.wp (Qdisable.gets f) Q w.
Proof. exact id. Qed.

Lemma qwp_modify f Q w : Q tt (f w) -> Qdisable.wp (Qdisable.modify f) Q w.
Proof. exact id. Qed.

Lemma qwp_ext c Q w :
  (forall r, Q r (Qdisable.log (c, r) w)) -> Qdisable.wp (Qdisable.ext c) Q w.
Proof. intros HQ. unfold Qdisable.wp, Qdisable.ext. apply HQ. Qed.

Lemma qwp_wand {A} (m : Qdisable.M A) (Q Q' : A -> process -> Prop) w :
  Qdisable.wp m Q w -> (forall a w', Q a w' -> Q' a w') -> Qdisable.wp m Q' w.
Proof. unfold Qdisable.wp. destruct (m w). auto. Qed.

Lemma qwp_elim {A} (m : Qdisable.M A) Q w :
  Qdisable.wp m Q w -> let '(a, w') := m w in Q a w'.
Proof. exact id. Qed.

Ltac qd_simpl :=
  cbv beta iota zeta delta [Qdisable.log Qdisable.set_exitstatus Qdisable.set_pbs_errno];
  cbn [Qdisable.exitstatus Qdisable.pbs_errno Qdisable.trace Qdisable.r_rc
       Qdisable.r_errno Qdisable.r_queue Qdisable.r_server Qdisable.r_msg
       Qdisable.r_exit fst snd].

Ltac qd_step :=
  lazymatch goal with
  | |- Qdisable.wp (Qdisable.bind _ _) _ _ => apply qwp_bind
  | |- Qdisable.wp (Qdisable.ret _) _ _ => apply qwp_ret
  | |- Qdisable.wp (Qdisable.gets _) _ _ => apply qwp_gets
  | |- Qdisable.wp (Qdisable.modify _) _ _ => apply qwp_modify
  | |- Qdisable.wp (Qdisable.ext _) _ _ =>
      let r := fresh "r" in
      let rc := fresh "rc" in
      let en := fresh "en" in
      let qu := fresh "qu" in
      let sv := fresh "sv" in
      let ms := fresh "ms" in
      let ex := fresh "ex" in
      apply qwp_ext; intros r; destruct r as [rc en qu sv ms ex]
  | |- Qdisable.wp (if ?b then _ else _) _ _ => destruct b eqn:?
  | |- Qdisable.wp (match ?x with Some a => @?f a | None => _ end) _ _ =>
      destruct x eqn:?
  end;
  qd_simpl.

Ltac run_execute :=
  unfold Qdisable.execute, Qdisable.cnt2server, Qdisable.pbs_manager,
    Qdisable.pbs_geterrmsg, Qdisable.pbs_disconnect, Qdisable.fprintf_stderr,
    Qdisable.ifl_call;
  repeat qd_step.

Ltac read_qtrace :=
  cbv beta iota zeta delta [Qdisable.new_events]; cbn [Qdisable.trace];
  rewrite <- ?app_assoc; rewrite ?drop_all, ?drop_app_length; cbn [app].

(** X21.  [execute] first connects to the server.  With a handle above 0
    it sends one request, [pbs_manager] on that handle with [MGR_CMD_SET],
    [MGR_OBJ_QUEUE], the queue and the single attribute [enabled = FALSE],
    and its last call is [pbs_disconnect] on the same handle, once, whether
    the request was accepted or not; a refused request asks for the
    server's message first and sets [exitstatus] to 2, an accepted one makes
    no other call and leaves [exitstatus] alone.  With no handle it prints
    the server name and [pbs_errno] as [cnt2server] left it, sets
    [exitstatus] to 2 and contacts nobody. *)
Theorem execute_connects_requests_disconnects (queue server : option string)
    (w : process) :
  let '(_, w') := execute queue server w in
  let evs := new_events w w' in
  exists c rest, evs = (C_cnt2server server, c) :: rest /\
    if 0 <? r_rc c then
      exists m mid d,
        rest = (C_pbs_manager (r_rc c) MGR_CMD_SET MGR_OBJ_QUEUE queue [attr] None, m)
               :: mid ++ [(C_pbs_disconnect (r_rc c), d)] /\
        count_calls is_cnt2server rest = 0%nat /\
        count_calls is_pbs_manager mid = 0%nat /\
        count_calls is_pbs_disconnect mid = 0%nat /\
        exitstatus w' = (if nonzero (r_rc m) then 2 else exitstatus w) /\
        (r_rc m = 0 -> mid = []) /\
        (r_rc m <> 0 -> exists g mid', mid = (C_pbs_geterrmsg (r_rc c), g) :: mid')
    else
      exists p,
        rest = [(C_fprintf_stderr
                   ("qdisable: could not connect to server %s (%d)" ++ nl)
                   [Str server; Int (r_errno c)], p)] /\
        exitstatus w' = 2.
Proof.
  apply qwp_elim. destruct w as [st pe tr].
  run_execute.
  all: read_qtrace.
  all: eexists _, _; (split; [reflexivity|]); cbn [r_rc r_errno].
  all: match goal with Hz : (0 <? _) = _ |- _ => rewrite Hz end.
  all: try (eexists; split; reflexivity).
  all: match goal with |- exists m mid d, ?l = _ /\ _ =>
         match l with
         | _ :: ?tl =>
           eexists _, (take (length tl - 1) tl), _
         end end; cbn [length Nat.sub take app].
  all: (split; [reflexivity|]); cbn [r_rc].
  all: match goal with Hz : nonzero _ = _ |- _ => rewrite Hz end.
  all: do 4 (split; [reflexivity|]).
  all: read_tests.
  all: split; intros Hm; try done; try (by eexists _, _).
  all: by apply Z.eqb_neq in Hm.
Qed.


Lemma status_after_app a : forall s b,
  status_after s (a ++ b) = status_after (status_after s a) b.
Proof. induction a as [|e a IH]; intros s b; cbn; [done|apply IH]. Qed.

Lemma parsed_app a b : parsed (a ++ b) = parsed a ++ parsed b.
Proof.
  induction a as [|[c r] a IH]; cbn; [done|]. destruct c; cbn; by rewrite ?IH.
Qed.

Lemma sessions_app a : forall o b,
  sessions o (a ++ b) =
    match sessions o a with Some o' => sessions o' b | None => None end.
Proof.
  induction a as [|[c r] a IH]; intros o b; cbn [app sessions fst snd]; [done|].
  destruct c, o; try done; try apply IH.
  all: destruct (_ =? _); try done; apply IH.
Qed.

Lemma count_calls_app p a b :
  count_calls p (a ++ b) = (count_calls p a + count_calls p b)%nat.
Proof. unfold count_calls. by rewrite List.filter_app, length_app. Qed.

(** What one [execute] adds to the run. *)
Lemma execute_effect queue server w :
  Qdisable.wp (execute queue server) (fun _ w' =>
    exists evs, trace w' = trace w ++ evs /\
      exitstatus w' = status_after (exitstatus w) evs /\
      parsed evs = [] /\ sessions None evs = Some None /\
      count_calls is_CS_client_init evs = 0%nat) w.
Proof.
  destruct w as [st pe tr].
  run_execute.
  all: eexists; (split; [rewrite <- ?app_assoc; cbn [app]; reflexivity|]).
  all: unfold failure_status, nonzero in *; cbn.
  all: repeat match goal with Hz : _ = _ |- _ => rewrite Hz end; cbn.
  all: rewrite ?Z.eqb_refl; cbn.
  all: repeat match goal with
       | Hz : negb ?b = _ |- context [?b] =>
           destruct b; cbn in Hz; try discriminate Hz; cbn
       end.
  all: done.
Qed.

Lemma destinations_effect argv : forall w,
  Qdisable.wp (destinations argv) (fun _ w' =>
    exists evs, trace w' = trace w ++ evs /\
      exitstatus w' = status_after (exitstatus w) evs /\
      parsed evs = argv /\ sessions None evs = Some None /\
      count_calls is_CS_client_init evs = 0%nat) w.
Proof.
  induction argv as [|dest argv IH]; intros w.
  - apply qwp_ret. exists []. by rewrite app_nil_r.
  - cbn [destinations]. apply qwp_bind, qwp_ext. intros r.
    apply qwp_bind.
    assert (Hstep : Qdisable.wp
              (if r_rc r =? 0 then execute (r_queue r) (r_server r)
               else Qdisable.bind
                      (fprintf_stderr
                         ("qdisable: illegally formed destination: %s" ++ nl)
                         [Str (Some dest)])
                      (fun _ => Qdisable.modify (set_exitstatus 1)))
              (fun _ w' => exists evs,
                 trace w' = trace w ++ (C_parse_destination_id dest, r) :: evs /\
                 exitstatus w' =
                   status_after (exitstatus w) ((C_parse_destination_id dest, r) :: evs) /\
                 parsed evs = [] /\ sessions None evs = Some None /\
                 count_calls is_CS_client_init evs = 0%nat)
              (log (C_parse_destination_id dest, r) w)).
    { destruct (r_rc r =? 0) eqn:Erc.
      - eapply qwp_wand; [apply execute_effect|].
        intros _ w' (evs & Ht & Hs & Hp & Hse & Hc). exists evs.
        cbn [trace log] in Ht. rewrite <- app_assoc in Ht. cbn [app] in Ht.
        split; [done|]. split; [|done].
        cbn [status_after]. unfold failure_status at 1. cbn [fst snd]. rewrite Erc.
        done.
      - unfold fprintf_stderr. destruct w as [st pe tr].
        repeat qd_step. eexists.
        split; [rewrite <- app_assoc; cbn [app]; reflexivity|].
        cbn [status_after]. unfold failure_status. cbn [fst snd]. rewrite Erc.
        cbn. done. }
    eapply qwp_wand; [exact Hstep|]. clear Hstep.
    intros _ w1 (evs1 & Ht1 & Hs1 & Hp1 & Hse1 & Hc1).
    eapply qwp_wand; [apply IH|].
    intros _ w2 (evs2 & Ht2 & Hs2 & Hp2 & Hse2 & Hc2).
    exists ((C_parse_destination_id dest, r) :: evs1 ++ evs2).
    split. { rewrite Ht2, Ht1, <- app_assoc. done. }
    split. { rewrite Hs2, Hs1. rewrite app_comm_cons. by rewrite status_after_app. }
    split. { cbn [parsed]. by rewrite parsed_app, Hp1, Hp2. }
    split. { cbn [sessions fst]. by rewrite sessions_app, Hse1. }
    rewrite app_comm_cons, count_calls_app. rewrite Hc2.
    unfold count_calls in *. cbn. by rewrite Hc1.
Qed.


Lemma failure_status_nonzero e x : failure_status e = Some x -> x = 1 \/ x = 2.
Proof.
  unfold failure_status. destruct (fst e); try done.
  all: match goal with |- (if ?b then _ else _) = _ -> _ => destruct b end.
  all: intros [= <-]; auto.
Qed.

Lemma status_after_zero evs : forall s,
  status_after s evs = 0 <-> s = 0 /\ Forall (fun e => failure_status e = None) evs.
Proof.
  induction evs as [|e evs IH]; intros s; cbn [status_after].
  - split; [by intros ->|by intros [-> _]].
  - rewrite IH. destruct (failure_status e) as [x|] eqn:E; cbn [default].
    + destruct (failure_status_nonzero _ _ E) as [-> | ->].
      all: split; [by intros [? _]|]; intros [_ Hf]; inversion Hf; congruence.
    + split; intros [-> Hf]; (split; [done|]).
      * by constructor.
      * by inversion Hf.
Qed.

Lemma status_after_range evs : forall s,
  status_after s evs = s \/ status_after s evs = 1 \/ status_after s evs = 2.
Proof.
  induction evs as [|e evs IH]; intros s; cbn [status_after]; [by left|].
  destruct (failure_status e) as [x|] eqn:E; cbn [default from_option id];
    [|apply IH].
  destruct (failure_status_nonzero _ _ E) as [-> | ->].
  - destruct (IH 1) as [Hs | [Hs | Hs]]; rewrite Hs; auto.
  - destruct (IH 2) as [Hs | [Hs | Hs]]; rewrite Hs; auto.
Qed.

(** What a run of [main] adds to the trace. *)
Lemma main_effect argv w :
  Qdisable.wp (main argv) (fun status w' =>
    let argc := Z.of_nat (length argv) in
    exists v rest, trace w' = trace w ++ (C_PRINT_VERSION_AND_EXIT argc argv, v) :: rest /\
      match r_exit v with
      | Some s => status = s /\ rest = []
      | None =>
        if argc =? 1 then
          status = 1 /\ parsed rest = [] /\
          count_calls is_CS_client_init rest = 0%nat /\
          count_calls is_cnt2server rest = 0%nat /\
          sessions None rest = Some None
        else
          exists i rest', rest = (C_CS_client_init, i) :: rest' /\
            if r_rc i =? CS_SUCCESS then
              exists mid z, rest' = mid ++ [(C_CS_close_app, z)] /\
                status = status_after (exitstatus w) mid /\
                parsed mid = tail argv /\ sessions None mid = Some None /\
                count_calls is_CS_client_init mid = 0%nat
            else
              status = 1 /\ parsed rest' = [] /\
              count_calls is_cnt2server rest' = 0%nat /\
              sessions None rest' = Some None
      end) w.
Proof.
  unfold main. cbv zeta. apply qwp_bind, qwp_ext. intros v.
  destruct (r_exit v) as [s|] eqn:Ev.
  { apply qwp_ret. exists v, []. cbn [trace log]. rewrite Ev. done. }
  destruct (Z.of_nat (length argv) =? 1) eqn:Eargc.
  { unfold fprintf_stderr. destruct w as [st pe tr]. repeat qd_step.
    eexists v, _. split; [rewrite <- ?app_assoc; cbn [app]; reflexivity|].
    rewrite Ev. done. }
  apply qwp_bind, qwp_ext. intros i.
  destruct (negb (r_rc i =? CS_SUCCESS)) eqn:Ei.
  { unfold fprintf_stderr. destruct w as [st pe tr]. repeat qd_step.
    eexists v, _. split; [rewrite <- ?app_assoc; cbn [app]; reflexivity|].
    rewrite Ev. eexists i, _. split; [reflexivity|].
    apply negb_true_iff in Ei. cbn [r_rc]. rewrite Ei. done. }
  apply negb_false_iff in Ei.
  apply qwp_bind. eapply qwp_wand; [apply destinations_effect|].
  intros _ w1 (mid & Ht & Hs & Hp & Hse & Hc).
  apply qwp_bind, qwp_ext. intros z. apply qwp_gets.
  exists v, ((C_CS_client_init, i) :: mid ++ [(C_CS_close_app, z)]).
  cbn [trace log exitstatus] in *. split.
  { rewrite Ht. rewrite <- !app_assoc. done. }
  rewrite Ev. exists i, (mid ++ [(C_CS_close_app, z)]).
  split; [done|]. rewrite Ei. exists mid, z. done.
Qed.

(** X22.  The status [main] exits with.  If the version macro exits, its
    status.  With no argument, 1, before the security library is touched;
    when that library cannot be initialised, 1.  Otherwise [exitstatus] as
    the destinations left it: each destination that cannot be parsed sets it
    to 1 and each server that cannot be reached or refuses the request sets
    it to 2, a later failure overwriting an earlier one and a later success
    clearing nothing.  Started with [exitstatus] 0, the command exits with 0
    exactly when no destination failed. *)
Theorem main_exit_status (argv : list string) (w : process) :
  let '(status, w') := main argv w in
  let evs := new_events w w' in
  let argc := Z.of_nat (length argv) in
  exists v rest, evs = (C_PRINT_VERSION_AND_EXIT argc argv, v) :: rest /\
    match r_exit v with
    | Some s => status = s /\ rest = []
    | None =>
      if argc =? 1 then
        status = 1 /\ count_calls is_CS_client_init rest = 0%nat
      else
        exists i rest', rest = (C_CS_client_init, i) :: rest' /\
          if r_rc i =? CS_SUCCESS then
            status = status_after (exitstatus w) rest' /\
            (status = exitstatus w \/ status = 1 \/ status = 2) /\
            (exitstatus w = 0 ->
             (status = 0 <-> Forall (fun e => failure_status e = None) rest'))
          else status = 1
    end.
Proof.
  apply qwp_elim. eapply qwp_wand; [apply main_effect|].
  intros status w' (v & rest & Ht & Hm). cbv zeta in *.
  exists v, rest. split; [unfold new_events; by rewrite Ht, drop_app_length|].
  destruct (r_exit v); [done|].
  destruct (_ =? 1); [by destruct Hm as (? & _ & ? & _)|].
  destruct Hm as (i & rest' & -> & Hm). exists i, rest'. split; [done|].
  destruct (_ =? CS_SUCCESS); [|by destruct Hm].
  destruct Hm as (mid & z & -> & -> & _).
  assert (Hsame : forall s, status_after s (mid ++ [(C_CS_close_app, z)])
                            = status_after s mid).
  { intros s. by rewrite status_after_app. }
  rewrite Hsame. split; [done|]. split; [apply status_after_range|].
  intros Hw. rewrite Hw, status_after_zero. split.
  - intros [_ Hf]. apply Forall_app. split; [done|]. by repeat constructor.
  - intros Hf. apply Forall_app in Hf as [Hf _]. done.
Qed.

(** X23.  The calls of [main], in order: the version macro;
    [CS_client_init]; then, if it succeeded, the arguments after the command
    name handed to [parse_destination_id] one by one in their order, and
    [CS_close_app] as the last call.  No server is contacted before the
    security library is initialised or when it cannot be.  Connections do
    not overlap: each one is closed before the next destination is parsed,
    requests go to the connection that is open, none is open at the end. *)
Theorem main_one_connection_at_a_time (argv : list string) (w : process) :
  let '(status, w') := main argv w in
  let evs := new_events w w' in
  let argc := Z.of_nat (length argv) in
  sessions None evs = Some None /\
  exists v rest, evs = (C_PRINT_VERSION_AND_EXIT argc argv, v) :: rest /\
    match r_exit v with
    | Some s => rest = []
    | None =>
      if argc =? 1 then
        parsed rest = [] /\ count_calls is_cnt2server rest = 0%nat
      else
        exists i rest', rest = (C_CS_client_init, i) :: rest' /\
          if r_rc i =? CS_SUCCESS then
            exists mid z, rest' = mid ++ [(C_CS_close_app, z)] /\
              parsed mid = tail argv /\
              count_calls is_CS_client_init mid = 0%nat
          else parsed rest' = [] /\ count_calls is_cnt2server rest' = 0%nat
    end.
Proof.
  apply qwp_elim. eapply qwp_wand; [apply main_effect|].
  intros status w' (v & rest & Ht & Hm). cbv zeta in *.
  assert (He : new_events w w' =
               (C_PRINT_VERSION_AND_EXIT (Z.of_nat (length argv)) argv, v) :: rest)
    by (unfold new_events; by rewrite Ht, drop_app_length).
  rewrite He. cbn [sessions fst].
  destruct (r_exit v) eqn:Ev.
  { destruct Hm as [_ ->]. split; [done|]. exists v, []. by rewrite Ev. }
  destruct (_ =? 1).
  { destruct Hm as (_ & Hp & _ & Hc & Hs). split; [done|]. exists v, rest.
    by rewrite Ev. }
  destruct Hm as (i & rest' & -> & Hm). cbn [sessions fst].
  destruct (_ =? CS_SUCCESS) eqn:Ei.
  - destruct Hm as (mid & z & -> & _ & Hp & Hs & Hc). split.
    + by rewrite sessions_app, Hs.
    + exists v, ((C_CS_client_init, i) :: mid ++ [(C_CS_close_app, z)]).
      split; [done|]. rewrite Ev.
      exists i, (mid ++ [(C_CS_close_app, z)]). split; [done|].
      rewrite Ei. by exists mid, z.
  - destruct Hm as (_ & Hp & Hc & Hs). split; [done|].
    exists v, ((C_CS_client_init, i) :: rest'). split; [done|]. rewrite Ev.
    exists i, rest'. split; [done|]. by rewrite Ei.
Qed.

End Qdisable_facts.

Lemma execute_connects_requests_disconnects_witness :
  let '(_, w') := @Qdisable.execute Qdisable.sample_headers Qdisable.one_server_down
                    (Some "workq") (Some "down") Qdisable.start in
  (exists c rest,
     Qdisable.new_events Qdisable.start w' =
       (Qdisable.C_cnt2server (Some "down"), c) :: rest /\
     Qdisable.r_rc c = -1 /\ length rest = 1%nat) /\
  Qdisable.exitstatus w' = 2.
Proof.
  pose proof (@execute_connects_requests_disconnects Qdisable.sample_headers
                Qdisable.one_server_down (Some "workq") (Some "down") Qdisable.start)
    as T.
  destruct (@Qdisable.execute Qdisable.sample_headers Qdisable.one_server_down
              (Some "workq") (Some "down") Qdisable.start) as [u w'] eqn:E.
  destruct u. vm_compute in E. injection E as <-.
  cbv zeta in T. destruct T as (c & rest & He & T).
  pose proof He as He'. vm_compute in He'. injection He' as <- <-.
  cbn in T. destruct T as (p & _ & Hs).
  split; [|exact Hs]. eexists _, _. split; [exact He|]. split; reflexivity.
Defined.

Lemma main_exit_status_witness :
  let '(status, w') := @Qdisable.main Qdisable.sample_headers Qdisable.one_server_down
                         ["qdisable"; "up"] Qdisable.start in
  Qdisable.exitstatus Qdisable.start = 0 /\ status = 0 /\
  Forall (fun e => Qdisable.failure_status e = None)
    (drop 2 (Qdisable.new_events Qdisable.start w')).
Proof.
  pose proof (@main_exit_status Qdisable.sample_headers Qdisable.one_server_down
                ["qdisable"; "up"] Qdisable.start) as T.
  destruct (@Qdisable.main Qdisable.sample_headers Qdisable.one_server_down
              ["qdisable"; "up"] Qdisable.start) as [status w'] eqn:E.
  vm_compute in E. injection E as <- <-.
  cbv zeta in T. destruct T as (v & rest & He & T).
  vm_compute in He. injection He as <- <-.
  cbn in T. destruct T as (i & rest' & Hr & T). injection Hr as <- <-.
  cbn in T. destruct T as (_ & _ & T).
  split; [reflexivity|]. split; [reflexivity|].
  exact (proj1 (T eq_refl) eq_refl).
Defined.
